(** * chesskitten: game timeline, engine session and move classifier

    A shallow embedding of [src/js/chesslogic.js] (class [ChessLogic],
    [getMaterialBalance], [getGamePhase], [getOpening], [analyzeFullGame])
    and of [src/js/engine.js] (class [Engine]).

    Conventions of the embedding.
    - JavaScript numbers that carry evaluations are rationals ([Q]): the
      oracle reports an integer number of centipawns which the session
      divides by 100, or an integer mate distance.  Material balances,
      depths and indices are integers.
    - JavaScript strings are [string]; [null]/[undefined] is [None].
    - chess.js and the Stockfish worker are collaborators outside the
      repository; they enter as interfaces ([Rules], [ChessGame]) or as
      events of a transition system. *)

From Stdlib Require Import ZArith QArith Qabs Lqa Lia List String Ascii Bool.
From stdpp Require Import base list option strings pretty.
Import ListNotations.

Local Open Scope string_scope.
Local Open Scope list_scope.

(** ** JavaScript string primitives used by the sources *)

Module Js.

(** [s.startsWith(p)] *)
Definition startsWith (s p : string) : bool := String.prefix p s.

(** [s.includes(needle)] *)
Fixpoint includes (s needle : string) : bool :=
  String.prefix needle s ||
  match s with
  | EmptyString => false
  | String _ rest => includes rest needle
  end.

(** [s.split(' ')[0]] *)
Fixpoint firstToken (s : string) : string :=
  match s with
  | EmptyString => EmptyString
  | String c rest =>
      if Ascii.eqb c " " then EmptyString else String c (firstToken rest)
  end.

(** the text after the first blank, if there is a blank *)
Fixpoint afterBlank (s : string) : option string :=
  match s with
  | EmptyString => None
  | String c rest => if Ascii.eqb c " " then Some rest else afterBlank rest
  end.

(** [s.split(' ')[1]] *)
Definition secondToken (s : string) : option string :=
  option_map firstToken (afterBlank s).

(** [s.substring(a, b)] for [a <= b] *)
Definition substring (a b : nat) (s : string) : string :=
  String.substring a (b - a) s.

(** truthiness of a possibly-null string: [null], [undefined] and [''] are falsy *)
Definition truthy (o : option string) : bool :=
  match o with
  | Some s => negb (String.eqb s "")
  | None => false
  end.

(** [a.join(sep)] *)
Fixpoint join (sep : string) (l : list string) : string :=
  match l with
  | [] => ""
  | [x] => x
  | x :: rest => x +:+ sep +:+ join sep rest
  end.

End Js.

(** strict comparison on rationals, as a boolean *)
Definition Qltb (x y : Q) : bool := negb (Qle_bool y x).

(** ** Data model of the analysis *)

Inductive color := White | Black.

Inductive piece := Pawn | Knight | Bishop | Rook | Queen | King.

#[global] Instance color_eq_dec : EqDecision color.
Proof. solve_decision. Defined.

#[global] Instance piece_eq_dec : EqDecision piece.
Proof. solve_decision. Defined.

(** an entry of [logic.squares]: [{from, to, color, piece}] *)
Record square_move := {
  from : string;
  to : string;
  color_of : color;
  piece_of : piece
}.

(** what [Chess.get(square)] answers for an occupied square *)
Record placed := { p_type : piece; p_color : color }.

(** The rules collaborator (chess.js) as far as [analyzeFullGame] consumes
    it: every function takes the FEN the temporary [Chess] object is built
    from. *)
Class Rules := {
  turn : string -> color;
  game_over : string -> bool;
  in_checkmate : string -> bool;
  (** [new Chess(fen).get(square)]; [None] for an empty square or a throw *)
  get : string -> string -> option placed;
  (** [new Chess(fen).move({from, to, promotion}).san]; [None] when the
      move object is null or the call throws *)
  move_san : string -> string -> string -> option string -> option string
}.

(** entries of [evals]: [{score, isMate, raw, pv}] *)
Record eval := {
  score : Q;
  isMate : bool;
  raw : Q;
  pv : option string
}.

(** the members of [CLASSIFICATION] *)
Inductive tier :=
  BRILLIANT | GREAT | BEST | GOOD | BOOK | INACCURACY | MISTAKE | BLUNDER.

#[global] Instance tier_eq_dec : EqDecision tier.
Proof. solve_decision. Defined.

Definition key (t : tier) : string :=
  match t with
  | BRILLIANT => "brilliant"
  | GREAT => "great"
  | BEST => "best"
  | GOOD => "good"
  | BOOK => "book"
  | INACCURACY => "inaccuracy"
  | MISTAKE => "mistake"
  | BLUNDER => "blunder"
  end.

Inductive phase := opening | endgame | middlegame.

#[global] Instance phase_eq_dec : EqDecision phase.
Proof. solve_decision. Defined.

(** the reason tags pushed by [analyzeFullGame] *)
Inductive tag :=
  | is_check | is_capture | is_castling | missed_mate
  | hanging_piece | lost_material | missed_tactic | weakened_king
  | ignored_threat | missed_fork | missed_castling | early_queen
  | knight_on_rim | edge_pawn_push | redundant_move
  | bad_trade | allowed_trade | kicks_piece.

#[global] Instance tag_eq_dec : EqDecision tag.
Proof. solve_decision. Defined.

(** ** [getMaterialBalance] *)

(** the table [vals] *)
Definition vals (c : ascii) : option Z :=
  match c with
  | "P"%char => Some 1%Z
  | "N"%char => Some 3%Z
  | "B"%char => Some 3%Z
  | "R"%char => Some 5%Z
  | "Q"%char => Some 9%Z
  | "p"%char => Some (-1)%Z
  | "n"%char => Some (-3)%Z
  | "b"%char => Some (-3)%Z
  | "r"%char => Some (-5)%Z
  | "q"%char => Some (-9)%Z
  | _ => None
  end.

(** the loop [for (let c of pieces) if (vals[c]) bal += vals[c]] *)
Fixpoint balanceLoop (pieces : string) (bal : Z) : Z :=
  match pieces with
  | EmptyString => bal
  | String c rest =>
      balanceLoop rest
        match vals c with
        | Some v => (bal + v)%Z
        | None => bal
        end
  end.

Definition getMaterialBalance (fen : string) : Z :=
  balanceLoop (Js.firstToken fen) 0.

(** ** [getGamePhase] *)

Fixpoint majorMinorLoop (pieces : string) (n : nat) : nat :=
  match pieces with
  | EmptyString => n
  | String c rest =>
      majorMinorLoop rest
        (if Js.includes "NBRQnbrq" (String c EmptyString) then S n else n)
  end.

Definition getGamePhase (fen : string) (moveIndex : nat) : phase :=
  let majorMinorCount := majorMinorLoop (Js.firstToken fen) 0 in
  if (moveIndex <? 24)%nat && (10 <=? majorMinorCount)%nat then opening
  else if (majorMinorCount <=? 6)%nat then endgame
  else middlegame.

(** ** [COMMON_OPENINGS] and [getOpening] *)

Record opening_entry := { prefix : string; name : string; desc : string }.

Definition COMMON_OPENINGS : list opening_entry := [
  {| prefix := "e4 c5 Nf3 d6 d4 cxd4 Nxd4 Nf6 Nc3 a6"; name := "the Sicilian Najdorf";
     desc := "one of the sharpest, most respected, and deeply analyzed lines in chess." |};
  {| prefix := "e4 c5 Nf3 Nc6 d4 cxd4 Nxd4"; name := "the Open Sicilian";
     desc := "a highly dynamic battleground where White plays for an attack while Black relies on a strong center." |};
  {| prefix := "e4 c5 c3"; name := "the Alapin Sicilian";
     desc := "an anti-Sicilian setup aiming to build a strong classical pawn center." |};
  {| prefix := "e4 c5"; name := "the Sicilian Defense";
     desc := "a sharp, asymmetrical opening that immediately fights for the center." |};
  {| prefix := "e4 e5 Nf3 Nc6 Bb5 a6"; name := "the Ruy Lopez, Morphy Defense";
     desc := "challenging the Spanish bishop early to solidify Black's position." |};
  {| prefix := "e4 e5 Nf3 Nc6 Bb5"; name := "the Ruy Lopez";
     desc := "the Spanish Game, a highly classical opening focusing on rapid development." |};
  {| prefix := "e4 e5 Nf3 Nc6 Bc4 Bc5 c3 Nf6 d4"; name := "the Giuoco Piano, Main Line";
     desc := "a classical Italian setup fighting for full central control." |};
  {| prefix := "e4 e5 Nf3 Nc6 Bc4 Bc5"; name := "the Giuoco Piano";
     desc := "the 'Quiet Game', maneuvering pieces to ideal squares before striking." |};
  {| prefix := "e4 e5 Nf3 Nc6 Bc4 Nf6"; name := "the Two Knights Defense";
     desc := "a highly aggressive counterattack against the Italian Game." |};
  {| prefix := "e4 e5 Nf3 Nc6 Bc4"; name := "the Italian Game";
     desc := "aiming for rapid development and attacking the vulnerable f7 square." |};
  {| prefix := "e4 e5 Nf3 Nc6 d4"; name := "the Scotch Game";
     desc := "an immediate central break aiming for open, tactical play." |};
  {| prefix := "e4 e6 d4 d5 Nd2"; name := "the French Defense, Tarrasch Variation";
     desc := "a solid choice for White avoiding the pin on b4." |};
  {| prefix := "e4 e6 d4 d5"; name := "the French Defense";
     desc := "a resilient counter-attacking opening relying on central pawn tension." |};
  {| prefix := "e4 c6 d4 d5"; name := "the Caro-Kann Defense";
     desc := "an incredibly solid setup supporting a central break without blocking the light-squared bishop." |};
  {| prefix := "d4 d5 c4 e6"; name := "the Queen's Gambit Declined";
     desc := "a sturdy classical approach that declines the wing pawn sacrifice." |};
  {| prefix := "d4 d5 c4 c6"; name := "the Slav Defense";
     desc := "a highly respected defense to the Queen's Gambit securing the d5 outpost." |};
  {| prefix := "d4 d5 c4 dxc4"; name := "the Queen's Gambit Accepted";
     desc := "accepting the gambit pawn to challenge White's center later." |};
  {| prefix := "d4 d5 c4"; name := "the Queen's Gambit";
     desc := "the most classical 1. d4 opening offering a flank pawn for central dominance." |};
  {| prefix := "d4 Nf6 c4 e6 Nc3 Bb4"; name := "the Nimzo-Indian Defense";
     desc := "a premier hypermodern opening allowing a doubled pawn for rapid development." |};
  {| prefix := "d4 Nf6 c4 g6 Nc3 Bg7 e4"; name := "the King's Indian Defense";
     desc := "a hyper-dynamic, attacking opening leading to complex tactical imbalances." |};
  {| prefix := "d4 Nf6 c4 g6 Nc3 d5"; name := "the Grünfeld Defense";
     desc := "an aggressive hypermodern choice striking back at White's center immediately with pawns." |};
  {| prefix := "d4 f5"; name := "the Dutch Defense";
     desc := "an uncompromising, asymmetrical fight for the e4 square." |};
  {| prefix := "e4 d6 d4 Nf6 Nc3 g6"; name := "the Pirc Defense";
     desc := "a hypermodern defense fighting for the center from the flanks." |};
  {| prefix := "e4 g6"; name := "the Modern Defense";
     desc := "a flexible and provocative hypermodern opening." |};
  {| prefix := "c4 e5 Nc3"; name := "the English Opening, Reversed Sicilian";
     desc := "a rich strategical system playing the Sicilian up a tempo." |};
  {| prefix := "c4"; name := "the English Opening";
     desc := "a flexible flank opening that fights for the center from the side." |};
  {| prefix := "Nf3 d5 g3"; name := "the Réti Opening";
     desc := "a hypermodern system exerting pressure on the center from afar." |};
  {| prefix := "Nf3"; name := "the Zukertort Opening";
     desc := "a highly flexible first move frequently transposing into other classical setups." |};
  {| prefix := "b3"; name := "Larsen's Opening";
     desc := "a hypermodern flank opening preparing an immediate fianchetto." |};
  {| prefix := "f4"; name := "Bird's Opening";
     desc := "an aggressive flank attack seizing control of the e5 square early." |};
  {| prefix := "e4 d5 exd5 Qxd5"; name := "the Scandinavian Defense";
     desc := "an early central challenge that forces immediate decisions from White." |};
  {| prefix := "e4 e5 f4"; name := "the King's Gambit";
     desc := "the ultimate romantic chess opening, sacrificing a pawn for an open f-file and rapid attack." |};
  {| prefix := "e4 e5 Nf3 d6"; name := "the Philidor Defense";
     desc := "a solid, if somewhat passive, opening approach for Black." |};
  {| prefix := "e4 e5"; name := "the Double King's Pawn Opening";
     desc := "a classical and principled way to start the game." |};
  {| prefix := "d4 d5"; name := "the Closed Game";
     desc := "a strategic, positional battle from move one." |}
].

(** longest matching prefix; the pair carries [bestMatch] and [longest] *)
Definition getOpening (sansPrefix : list string) : option opening_entry :=
  let moveStr := Js.join " " sansPrefix in
  fst (fold_left
         (fun (acc : option opening_entry * nat) (op : opening_entry) =>
            if Js.startsWith moveStr (prefix op)
               && (snd acc <? String.length (prefix op))%nat
            then (Some op, String.length (prefix op))
            else acc)
         COMMON_OPENINGS (None, 0%nat)).

(** ** The classification loop of [analyzeFullGame] *)

Record classification := {
  cls : tier;
  cpLoss : Q;
  evalBefore : Q;
  evalAfter : Q;
  engineBest : option string;
  engineBestSan : option string;
  enginePv : option string;
  cls_from : string;
  cls_to : string;
  cls_piece : piece;
  tags : list tag;
  cls_phase : phase;
  matBefore : Z;
  matAfter : Z;
  opening_info : option opening_entry;
  hungPiece : option piece
}.

Definition BOOK_MOVES : nat := 6.

(** "Handle mate scores": [e.isMate ? (e.score > 0 ? 100 : -100) : e.score] *)
Definition mateCollapsed (e : eval) : Q :=
  if isMate e then (if Qltb 0 (score e) then 100 else -100) else score e.

(** "Centipawn loss from the mover's perspective" *)
Definition cpLossOf (isWhiteMove : bool) (scoreBefore scoreAfter : Q) : Q :=
  if isWhiteMove then scoreBefore - scoreAfter else scoreAfter - scoreBefore.

Definition isWhite (playedMove : square_move) : bool :=
  bool_decide (color_of playedMove = White).

(** [engineBest && (playedMove.from + playedMove.to) === engineBest] *)
Definition matchesEngineBest (playedMove : square_move) (best : option string) : bool :=
  Js.truthy best &&
  match best with
  | Some b => String.eqb (from playedMove +:+ to playedMove) b
  | None => false
  end.

(** the [if]/[else if] cascade that sets [cls] *)
Definition tierOf (m : nat) (playedMove : square_move) (best : option string)
    (loss : Q) : tier :=
  if (m <? BOOK_MOVES)%nat && Qltb (Qabs loss) (5 # 10) then BOOK
  else if matchesEngineBest playedMove best then
    if Qle_bool loss (-2) then BRILLIANT
    else if Qle_bool loss (-1) then GREAT
    else BEST
  else if Qle_bool loss (-2) then BRILLIANT
  else if Qle_bool loss (-1) then GREAT
  else if Qle_bool loss (4 # 10) then BEST
  else if Qle_bool loss (12 # 10) then GOOD
  else if Qle_bool loss (25 # 10) then INACCURACY
  else if Qle_bool loss 5 then MISTAKE
  else BLUNDER.

(** "positive if mover won material" *)
Definition matDiffOf (isWhiteMove : bool) (before after : Z) : Z :=
  if isWhiteMove then (after - before)%Z else (- (after - before))%Z.

(** [san.match(/^[ah][3456]/)] *)
Definition edgePawnPattern (san : string) : bool :=
  match san with
  | String c1 (String c2 _) =>
      (Ascii.eqb c1 "a" || Ascii.eqb c1 "h")
      && (Ascii.eqb c2 "3" || Ascii.eqb c2 "4" || Ascii.eqb c2 "5" || Ascii.eqb c2 "6")
  | _ => false
  end.

(** [o && o.includes(needle)] for a possibly-undefined string *)
Definition pvIncludes (o : option string) (needle : string) : bool :=
  Js.truthy o &&
  match o with
  | Some s => Js.includes s needle
  | None => false
  end.

(** [evalAfter.pv ? evalAfter.pv.split(' ')[0] : null], kept only when
    [nextBest && nextBest.length >= 4] *)
Definition nextBestOf (after : eval) : option string :=
  if Js.truthy (pv after) then
    match pv after with
    | Some s =>
        let nb := Js.firstToken s in
        if negb (String.eqb nb "") && (4 <=? String.length nb)%nat
        then Some nb else None
    | None => None
    end
  else None.

Definition when (b : bool) (t : tag) : list tag := if b then [t] else [].

Section Classifier.
Context `{Rules}.

(** conversion of the engine's coordinate move to SAN, with the LAN text
    kept when the conversion fails *)
Definition engineBestSanOf (fen : string) (best : option string) : option string :=
  if Js.truthy best then
    match best with
    | Some b =>
        let promotion :=
          if (4 <? String.length b)%nat
          then Some (String.substring 4 (String.length b - 4) b)
          else None in
        match move_san fen (Js.substring 0 2 b) (Js.substring 2 4 b) promotion with
        | Some s => if negb (String.eqb s "") then Some s else Some b
        | None => Some b
        end
    | None => None
    end
  else best.

(** "Did they miss a forced mate?" *)
Definition missedMate (isWhiteMove : bool) (before after : eval) : bool :=
  if isWhiteMove
  then isMate before && Qltb 0 (score before) && negb (isMate after)
  else isMate before && Qltb (score before) 0 && negb (isMate after).

(** the piece the opponent's best reply lands on, when it is the mover's own *)
Definition hungPieceOf (fenAfter : string) (after : eval)
    (playedMove : square_move) : option piece :=
  match nextBestOf after with
  | Some nextBest =>
      match get fenAfter (Js.substring 2 4 nextBest) with
      | Some pieceAtTarget =>
          if bool_decide (p_color pieceAtTarget = color_of playedMove)
          then Some (p_type pieceAtTarget) else None
      | None => None
      end
  | None => None
  end.

(** "It's an inaccuracy or worse": the tag read off the material delta *)
Definition materialTags (matDiff : Z) : list tag :=
  if (matDiff <=? -3)%Z then [hanging_piece]
  else if (matDiff <? 0)%Z then [lost_material] else [].

(** "Moving the same piece twice in the opening instead of developing" *)
Definition redundantTags (m : nat) (ph : phase) (playedMove : square_move)
    (squares : list square_move) : list tag :=
  if (2 <=? m)%nat && bool_decide (ph = opening) then
    match squares !! (m - 2)%nat with
    | Some lastMyMove =>
        when (bool_decide (piece_of playedMove = piece_of lastMyMove)
              && String.eqb (from playedMove) (to lastMyMove))
             redundant_move
    | None => []
    end
  else [].

(** "Trading evaluation" *)
Definition tradeTags (isWhiteMove : bool) (san : string) (scoreBefore : Q)
    (matDiff : Z) : list tag :=
  if (Z.abs matDiff =? 0)%Z && Js.includes san "x" then
    if (isWhiteMove && Qltb scoreBefore (-300))
       || (negb isWhiteMove && Qltb 300 scoreBefore)
    then [bad_trade] else [allowed_trade]
  else [].

(** the tags pushed inside [if (cpLoss > 1.2) { ... }], in program order *)
Definition blameTags (m : nat) (fenAfter san : string) (before after : eval)
    (bestSan : option string) (playedMove : square_move)
    (squares : list square_move) (ph : phase)
    (scoreBefore scoreAfter : Q) (matDiff : Z) : list tag :=
  materialTags matDiff
  ++ when (Js.truthy (pv before)
           && (pvIncludes (pv before) "x" || pvIncludes (pv before) "+"))
          missed_tactic
  ++ when (Js.includes san "K") weakened_king
  ++ when (pvIncludes (pv after) "x") ignored_threat
  ++ when (Js.truthy bestSan
           && match bestSan with
              | Some s => Js.startsWith s "N"
              | None => false
              end
           && Qltb 2 (scoreBefore - scoreAfter))
          missed_fork
  ++ when (Js.startsWith san "K" && negb (Js.includes san "O-O")
           && bool_decide (ph = opening))
          missed_castling
  ++ when (Js.startsWith san "Q" && bool_decide (ph = opening) && (m <? 10)%nat)
          early_queen
  ++ when (Js.startsWith san "N" && (Js.includes san "a" || Js.includes san "h"))
          knight_on_rim
  ++ when (edgePawnPattern san && bool_decide (ph = opening)) edge_pawn_push
  ++ redundantTags m ph playedMove squares
  ++ tradeTags (isWhite playedMove) san scoreBefore matDiff.

(** the tag pushed inside [else if (playedMove.piece === 'p') { ... }] *)
Definition kickTags (fenAfter : string) (after : eval)
    (playedMove : square_move) : list tag :=
  match nextBestOf after with
  | Some nextBest =>
      match get fenAfter (Js.substring 0 2 nextBest) with
      | Some pieceMoving =>
          when (bool_decide (p_type pieceMoving ∈ [Knight; Bishop; Rook; Queen])
                && negb (bool_decide (p_color pieceMoving = color_of playedMove)))
               kicks_piece
      | None => []
      end
  | None => []
  end.

(** one iteration of [for (let m = 0; m < numMoves; m++)], with the values
    the iteration reads from [evals], [bestMoves], [fens], [logic.sans] and
    [logic.squares] at index [m] (and [m + 1]) already fetched *)
Definition classifyMove (m : nat) (fenBefore fenAfter san : string)
    (before after : eval) (best : option string) (playedMove : square_move)
    (sans : list string) (squares : list square_move) : classification :=
  let scoreBefore := mateCollapsed before in
  let scoreAfter := mateCollapsed after in
  let isWhiteMove := isWhite playedMove in
  let loss := cpLossOf isWhiteMove scoreBefore scoreAfter in
  let c := tierOf m playedMove best loss in
  let ph := getGamePhase fenBefore m in
  let mBefore := getMaterialBalance fenBefore in
  let mAfter := getMaterialBalance fenAfter in
  let matDiff := matDiffOf isWhiteMove mBefore mAfter in
  let bestSan := engineBestSanOf fenBefore best in
  let blamed := Qltb (12 # 10) loss in
  {| cls := c;
     cpLoss := loss;
     evalBefore := scoreBefore;
     evalAfter := scoreAfter;
     engineBest := best;
     engineBestSan := bestSan;
     enginePv := pv before;
     cls_from := from playedMove;
     cls_to := to playedMove;
     cls_piece := piece_of playedMove;
     tags :=
       when (Js.includes san "+") is_check
       ++ when (Js.includes san "x") is_capture
       ++ when (Js.includes san "O-O") is_castling
       ++ when (missedMate isWhiteMove before after) missed_mate
       ++ (if blamed then
             blameTags m fenAfter san before after bestSan playedMove squares
                       ph scoreBefore scoreAfter matDiff
           else if bool_decide (piece_of playedMove = Pawn) then
             kickTags fenAfter after playedMove
           else []);
     cls_phase := ph;
     matBefore := mBefore;
     matAfter := mAfter;
     opening_info :=
       if String.eqb (key c) "book" then getOpening (take (S m) sans) else None;
     hungPiece := if blamed then hungPieceOf fenAfter after playedMove else None
  |}.

(** the reads of iteration [m]; an index out of range makes the JavaScript
    dereference [undefined] and throw, which is [None] here.  A missing
    [bestMoves[m]] is [undefined], hence falsy like [null]. *)
Definition classifyAt (fens sans : list string) (squares : list square_move)
    (evals : list eval) (bestMoves : list (option string)) (m : nat)
    : option classification :=
  before ← evals !! m;
  after ← evals !! S m;
  playedMove ← squares !! m;
  fenBefore ← fens !! m;
  fenAfter ← fens !! S m;
  san ← sans !! m;
  Some (classifyMove m fenBefore fenAfter san before after
          (mjoin (bestMoves !! m)) playedMove sans squares).

(** the whole second loop: [numMoves = logic.sans.length] iterations *)
Definition classifyLoop (fens sans : list string) (squares : list square_move)
    (evals : list eval) (bestMoves : list (option string))
    : option (list classification) :=
  mapM (classifyAt fens sans squares evals bestMoves) (seq 0 (length sans)).

End Classifier.

(** ** [class Engine] *)

Module Engine.

(** what an awaited evaluation resolves with *)
Record result := {
  depth : Z;
  score : option Q;
  isMate : bool;
  bestMove : option string;
  pv : option string
}.

(** the argument of the live [onUpdate] callback *)
Record update := {
  u_depth : Z;
  u_score : Q;
  u_isMate : bool;
  u_bestMove : string;
  u_pv : string
}.

(** the four regular-expression matches [_onMessage] takes on an [info]
    line: the captured integers, and the trimmed capture of [pv] *)
Record info_match := {
  depthMatch : option Z;
  cpMatch : option Z;
  mateMatch : option Z;
  pvMatch : option string
}.

(** the closures handed to [setTimeout] and [setInterval] *)
Inductive timeout_cb := CbUci | CbEvalTimeout.

Inductive interval_cb :=
  | CbPollEvaluate (fen : string) (depth : Z)
  | CbPollAsync (p : nat) (fen : string) (depth : Z).

(** what a method or handler does to the outside, in program order.
    Promises, timers and intervals are named by the numbers the runtime
    gave them. *)
Inductive effect :=
  | Post (msg : string)
  | Throw
  | Resolve (p : nat) (r : result)
  | OnUpdate (u : update)
  | ConsoleLog (s : string)
  | ConsoleError (s : string)
  | SetTimeout (id : nat) (cb : timeout_cb) (delay : Z)
  | ClearTimeout (id : nat)
  | SetInterval (id : nat) (cb : interval_cb) (delay : Z)
  | ClearInterval (id : nat).

(** the fields of an [Engine] object; [worker] and [onUpdate] record
    whether the field is non-null *)
Record t := {
  onUpdate : bool;
  ready : bool;
  worker : bool;
  _currentBestMove : option string;
  _currentPv : option string;
  _currentScore : option Q;
  _currentDepth : Z;
  _currentIsMate : bool;
  _resolveEval : option nat;
  _targetDepth : Z;
  _isAsyncSearch : bool;
  _evalTimeout : option nat
}.

(** the object literal both resolution sites build *)
Definition snapshot (e : t) : result :=
  {| depth := _currentDepth e;
     score := _currentScore e;
     isMate := _currentIsMate e;
     bestMove := _currentBestMove e;
     pv := _currentPv e |}.

(** [this.worker.postMessage(msg)] without a guard: a [TypeError] when the
    worker is null *)
Definition post (e : t) (msgs : list string) : list effect :=
  if worker e then map Post msgs else [Throw].

(** [constructor(onUpdate)] followed by [_init()]; [started] tells whether
    [new Worker(...)] returned rather than threw, [uciTimer] is the timer
    the runtime allots to the delayed handshake *)
Definition create (hasOnUpdate started : bool) (uciTimer : nat) : t * list effect :=
  ({| onUpdate := hasOnUpdate;
      ready := false;
      worker := started;
      _currentBestMove := None;
      _currentPv := None;
      _currentScore := None;
      _currentDepth := 0;
      _currentIsMate := false;
      _resolveEval := None;
      _targetDepth := 14;
      _isAsyncSearch := false;
      _evalTimeout := None |},
   if started then [SetTimeout uciTimer CbUci 500]
   else [ConsoleError "Could not create Stockfish worker:"]).

(** the listener of the worker's [error] event *)
Definition onError (e : t) : t * list effect :=
  (e, [ConsoleError "Stockfish worker error:"]).

Section Handlers.
(** the regular expressions of [_onMessage], as one matcher *)
Variable matchInfo : string -> info_match.

(** the branch [if (line.startsWith('info') && line.includes(' score '))];
    the boolean tells whether the branch left [_onMessage] by [return] *)
Definition onInfo (line : string) (e : t) : bool * t * list effect :=
  let im := matchInfo line in
  match depthMatch im with
  | None => (true, e, [])
  | Some d =>
      let parsed :=
        match cpMatch im, mateMatch im with
        | Some cp, _ => Some ((inject_Z cp / 100)%Q, false)
        | None, Some mt => Some (inject_Z mt, true)
        | None, None => None
        end in
      match parsed with
      | None => (true, e, [])
      | Some (sc, mate) =>
          let pv' := if Js.truthy (pvMatch im) then pvMatch im else None in
          let bestMove' :=
            match pv' with
            | Some s => Some (Js.firstToken s)
            | None => None
            end in
          (false,
           {| onUpdate := onUpdate e;
              ready := ready e;
              worker := worker e;
              _currentBestMove :=
                if Js.truthy bestMove' then bestMove' else _currentBestMove e;
              _currentPv := if Js.truthy pv' then pv' else _currentPv e;
              _currentScore := Some sc;
              _currentDepth := d;
              _currentIsMate := mate;
              _resolveEval := _resolveEval e;
              _targetDepth := _targetDepth e;
              _isAsyncSearch := _isAsyncSearch e;
              _evalTimeout := _evalTimeout e |},
           if onUpdate e then
             [OnUpdate {| u_depth := d; u_score := sc; u_isMate := mate;
                          u_bestMove :=
                            if Js.truthy bestMove' then default "" bestMove' else "—";
                          u_pv := if Js.truthy pv' then default "" pv' else "" |}]
           else [])
      end
  end.

(** [this._currentBestMove = bm] *)
Definition with_best (bm : option string) (e : t) : t :=
  {| onUpdate := onUpdate e; ready := ready e; worker := worker e;
     _currentBestMove := bm; _currentPv := _currentPv e;
     _currentScore := _currentScore e; _currentDepth := _currentDepth e;
     _currentIsMate := _currentIsMate e; _resolveEval := _resolveEval e;
     _targetDepth := _targetDepth e; _isAsyncSearch := _isAsyncSearch e;
     _evalTimeout := _evalTimeout e |}.

(** the branch [if (line.startsWith('bestmove'))] *)
Definition onBestmove (line : string) (e : t) : t * list effect :=
  let bm := Js.secondToken line in
  let e1 :=
    if Js.truthy bm && negb (bool_decide (bm = Some "(none)"))
    then with_best bm e else e in
  if _isAsyncSearch e1 then
    match _resolveEval e1 with
    | Some resolve =>
        let e2 :=
          {| onUpdate := onUpdate e1; ready := ready e1; worker := worker e1;
             _currentBestMove := _currentBestMove e1;
             _currentPv := _currentPv e1;
             _currentScore := _currentScore e1;
             _currentDepth := _currentDepth e1;
             _currentIsMate := _currentIsMate e1;
             _resolveEval := None;
             _targetDepth := _targetDepth e1;
             _isAsyncSearch := false;
             _evalTimeout := None |} in
        (e2,
         match _evalTimeout e1 with
         | Some tm => [ClearTimeout tm]
         | None => []
         end ++ [Resolve resolve (snapshot e2)])
    | None => (e1, [])
    end
  else (e1, []).

(** [_onMessage(line)]; [None] is a message that is not a string *)
Definition onMessage (data : option string) (e : t) : t * list effect :=
  match data with
  | None => (e, [])
  | Some line =>
      if String.eqb line "uciok" && negb (worker e) then (e, [Throw])
      else
        let o1 := if String.eqb line "uciok" then [Post "isready"] else [] in
        let e2 :=
          if String.eqb line "readyok" then
            {| onUpdate := onUpdate e; ready := true; worker := worker e;
               _currentBestMove := _currentBestMove e; _currentPv := _currentPv e;
               _currentScore := _currentScore e; _currentDepth := _currentDepth e;
               _currentIsMate := _currentIsMate e; _resolveEval := _resolveEval e;
               _targetDepth := _targetDepth e; _isAsyncSearch := _isAsyncSearch e;
               _evalTimeout := _evalTimeout e |}
          else e in
        let o2 :=
          if String.eqb line "readyok" then [ConsoleLog "Stockfish engine ready."]
          else [] in
        let '(returned, e3, o3) :=
          if Js.startsWith line "info" && Js.includes line " score "
          then onInfo line e2 else (false, e2, []) in
        if returned then (e3, o1 ++ o2 ++ o3)
        else if Js.startsWith line "bestmove" then
          let '(e4, o4) := onBestmove line e3 in (e4, o1 ++ o2 ++ o3 ++ o4)
        else (e3, o1 ++ o2 ++ o3)
  end.

End Handlers.

(** [_doEval(fen, depth)] *)
Definition _doEval (fen : string) (d : Z) (e : t) : t * list effect :=
  (e, post e ["stop"; "position fen " +:+ fen; "go depth " +:+ pretty d]).

(** [evaluate(fen, depth)]; [check] is the interval the runtime allots when
    the session has to poll for readiness *)
Definition evaluate (check : nat) (fen : string) (d : Z) (e : t) : t * list effect :=
  if negb (worker e) then (e, [])
  else if negb (ready e) then (e, [SetInterval check (CbPollEvaluate fen d) 200])
  else _doEval fen d e.

(** the closure [waitReady] of [evalAsync]; [resolve] names the promise
    under construction and [tm] the safety timer the runtime allots *)
Definition waitReady (resolve tm : nat) (fen : string) (d : Z) (e : t)
    : t * list effect :=
  let e' :=
    {| onUpdate := onUpdate e; ready := ready e; worker := worker e;
       _currentBestMove := None; _currentPv := _currentPv e;
       _currentScore := Some 0%Q; _currentDepth := 0; _currentIsMate := false;
       _resolveEval := Some resolve; _targetDepth := _targetDepth e;
       _isAsyncSearch := true; _evalTimeout := Some tm |} in
  (e', SetTimeout tm CbEvalTimeout 10000
       :: post e' ["stop"; "position fen " +:+ fen; "go depth " +:+ pretty d]).

(** [evalAsync(fen, depth)]: the executor of the new promise *)
Definition evalAsync (resolve fresh : nat) (fen : string) (d : Z) (e : t)
    : t * list effect :=
  if negb (ready e) then (e, [SetInterval fresh (CbPollAsync resolve fen d) 200])
  else waitReady resolve fresh fen d e.

(** the "Safety timeout" closure *)
Definition onEvalTimeout (e : t) : t * list effect :=
  match _resolveEval e with
  | Some r =>
      let e' :=
        {| onUpdate := onUpdate e; ready := ready e; worker := worker e;
           _currentBestMove := _currentBestMove e; _currentPv := _currentPv e;
           _currentScore := _currentScore e; _currentDepth := _currentDepth e;
           _currentIsMate := _currentIsMate e; _resolveEval := None;
           _targetDepth := _targetDepth e; _isAsyncSearch := false;
           _evalTimeout := _evalTimeout e |} in
      (e', if worker e then [Post "stop"; Resolve r (snapshot e')] else [Throw])
  | None => (e, [])
  end.

(** a fired [setTimeout] closure *)
Definition onTimeout (cb : timeout_cb) (e : t) : t * list effect :=
  match cb with
  | CbUci => (e, if worker e then [Post "uci"] else [])
  | CbEvalTimeout => onEvalTimeout e
  end.

(** one tick of a readiness poll; [check] is the interval's own number and
    [fresh] the timer a started [waitReady] would be allotted *)
Definition onInterval (check fresh : nat) (cb : interval_cb) (e : t)
    : t * list effect :=
  if ready e then
    match cb with
    | CbPollEvaluate fen d =>
        let '(e', o) := _doEval fen d e in (e', ClearInterval check :: o)
    | CbPollAsync p fen d =>
        let '(e', o) := waitReady p fresh fen d e in (e', ClearInterval check :: o)
    end
  else (e, []).

(** [stop()] *)
Definition stop (e : t) : t * list effect :=
  (e, if worker e then [Post "stop"] else []).

(** [setOption(name, value)] *)
Definition setOption (name value : string) (e : t) : t * list effect :=
  (e, if worker e
      then [Post ("setoption name " +:+ name +:+ " value " +:+ value)] else []).

End Engine.

(** ** An engine session in its runtime

    The event loop of the page, the worker and the message channel between
    them, around one [Engine] object.  Handlers run to completion; what they
    post reaches the worker in order, and what the worker emits is queued
    until the event loop delivers it to [_onMessage]. *)

Module Session.

(** who issued a command, and hence whose search a worker line reports:
    the start-up handshake, or the public call (for [evalAsync], the number
    of its promise) *)
Inductive origin := Handshake | Request (id : nat).

#[global] Instance origin_eq_dec : EqDecision origin.
Proof. solve_decision. Defined.

(** Modelled from the spec: the state of the oracle behind the line
    protocol of section 6 (the Stockfish worker script is not among the
    sources): whether it came to life, whose search it is running, and the
    best move it has found so far. *)
Record worker_state := {
  alive : bool;
  searching : option origin;
  wbest : string
}.

(** Modelled from the spec: the oracle's answer to one command of the line
    protocol of section 6.  It acknowledges the handshake and the readiness
    check, starts a search on [go], and on [stop] ends the search it is
    running with its terminating [bestmove] line. *)
Definition react (who : origin) (msg : string) (w : worker_state)
    : worker_state * list (origin * string) :=
  if negb (alive w) then (w, [])
  else if String.eqb msg "uci" then (w, [(Handshake, "uciok")])
  else if String.eqb msg "isready" then (w, [(Handshake, "readyok")])
  else if String.eqb msg "stop" then
    match searching w with
    | Some o =>
        ({| alive := true; searching := None; wbest := wbest w |},
         [(o, "bestmove " +:+ wbest w)])
    | None => (w, [])
    end
  else if Js.startsWith msg "go" then
    ({| alive := true; searching := Some who; wbest := "(none)" |}, [])
  else (w, []).

(** why a promise was resolved: by a worker line (of the given search), by
    a timer (set by the given request), or inside a public call *)
Inductive cause := Signal (o : origin) | Timer (o : origin) | Call.

(** what the page can observe *)
Inductive entry :=
  | Resolved (p : nat) (r : Engine.result) (c : cause)
  | Updated (u : Engine.update)
  | Console (isError : bool) (s : string)
  | Thrown.

Record sys := {
  eng : Engine.t;
  next_id : nat;
  timeouts : list (nat * (Engine.timeout_cb * origin));
  intervals : list (nat * Engine.interval_cb);
  wk : option worker_state;
  channel : list (origin * string);
  log : list entry
}.

Definition with_eng (e : Engine.t) (s : sys) : sys :=
  {| eng := e; next_id := next_id s; timeouts := timeouts s;
     intervals := intervals s; wk := wk s; channel := channel s; log := log s |}.

Definition with_next (n : nat) (s : sys) : sys :=
  {| eng := eng s; next_id := n; timeouts := timeouts s;
     intervals := intervals s; wk := wk s; channel := channel s; log := log s |}.

Definition with_timeouts (l : list (nat * (Engine.timeout_cb * origin))) (s : sys) : sys :=
  {| eng := eng s; next_id := next_id s; timeouts := l;
     intervals := intervals s; wk := wk s; channel := channel s; log := log s |}.

Definition with_intervals (l : list (nat * Engine.interval_cb)) (s : sys) : sys :=
  {| eng := eng s; next_id := next_id s; timeouts := timeouts s;
     intervals := l; wk := wk s; channel := channel s; log := log s |}.

Definition with_channel (l : list (origin * string)) (s : sys) : sys :=
  {| eng := eng s; next_id := next_id s; timeouts := timeouts s;
     intervals := intervals s; wk := wk s; channel := l; log := log s |}.

Definition logged (x : entry) (s : sys) : sys :=
  {| eng := eng s; next_id := next_id s; timeouts := timeouts s;
     intervals := intervals s; wk := wk s; channel := channel s;
     log := log s ++ [x] |}.

(** a posted command reaches the worker, whose lines join the channel *)
Definition deliver_post (who : origin) (msg : string) (s : sys) : sys :=
  match wk s with
  | Some w =>
      let '(w', out) := react who msg w in
      {| eng := eng s; next_id := next_id s; timeouts := timeouts s;
         intervals := intervals s; wk := Some w';
         channel := channel s ++ out; log := log s |}
  | None => s
  end.

(** the runtime's part in one effect of a handler run on behalf of [who]
    and triggered by [why] *)
Definition absorb (who : origin) (why : cause) (s : sys) (x : Engine.effect) : sys :=
  match x with
  | Engine.Post msg => deliver_post who msg s
  | Engine.Throw => logged Thrown s
  | Engine.Resolve p r => logged (Resolved p r why) s
  | Engine.OnUpdate u => logged (Updated u) s
  | Engine.ConsoleLog t => logged (Console false t) s
  | Engine.ConsoleError t => logged (Console true t) s
  | Engine.SetTimeout id cb _ => with_timeouts (timeouts s ++ [(id, (cb, who))]) s
  | Engine.ClearTimeout id =>
      with_timeouts (filter (fun x => negb (fst x =? id)%nat) (timeouts s)) s
  | Engine.SetInterval id cb _ => with_intervals (intervals s ++ [(id, cb)]) s
  | Engine.ClearInterval id =>
      with_intervals (filter (fun x => negb (fst x =? id)%nat) (intervals s)) s
  end.

(** run a handler: install the engine it leaves, then absorb its effects *)
Definition perform (who : origin) (why : cause)
    (r : Engine.t * list Engine.effect) (s : sys) : sys :=
  fold_left (absorb who why) (snd r) (with_eng (fst r) s).

Definition find_id {A} (id : nat) (l : list (nat * A)) : option A :=
  match filter (fun x => (fst x =? id)%nat) l with
  | x :: _ => Some (snd x)
  | [] => None
  end.

Inductive event :=
  | CallEvaluate (fen : string) (depth : Z)
  | CallEvalAsync (fen : string) (depth : Z)
  | CallStop
  | CallSetOption (name value : string)
  | Deliver
  | TimerFires (id : nat)
  | IntervalTicks (id : nat)
  | WorkerInfo (line best : string)
  | WorkerDone
  | WorkerError.

Section Run.
Variable matchInfo : string -> Engine.info_match.

Definition step (s : sys) (ev : event) : sys :=
  match ev with
  | CallEvaluate fen d =>
      let id := next_id s in
      perform (Request id) Call (Engine.evaluate id fen d (eng s))
              (with_next (S id) s)
  | CallEvalAsync fen d =>
      let p := next_id s in
      perform (Request p) Call (Engine.evalAsync p (S p) fen d (eng s))
              (with_next (S (S p)) s)
  | CallStop => perform Handshake Call (Engine.stop (eng s)) s
  | CallSetOption n v => perform Handshake Call (Engine.setOption n v (eng s)) s
  | Deliver =>
      match channel s with
      | (o, line) :: rest =>
          perform Handshake (Signal o)
                  (Engine.onMessage matchInfo (Some line) (eng s))
                  (with_channel rest s)
      | [] => s
      end
  | TimerFires id =>
      match find_id id (timeouts s) with
      | Some (cb, o) =>
          perform o (Timer o) (Engine.onTimeout cb (eng s))
                  (with_timeouts
                     (filter (fun x => negb (fst x =? id)%nat) (timeouts s)) s)
      | None => s
      end
  | IntervalTicks id =>
      match find_id id (intervals s) with
      | Some cb =>
          let who :=
            match cb with
            | Engine.CbPollAsync p _ _ => Request p
            | Engine.CbPollEvaluate _ _ => Request id
            end in
          perform who Call (Engine.onInterval id (next_id s) cb (eng s))
                  (with_next (S (next_id s)) s)
      | None => s
      end
  | WorkerInfo line best =>
      match wk s with
      | Some w =>
          match alive w, searching w with
          | true, Some o =>
              {| eng := eng s; next_id := next_id s; timeouts := timeouts s;
                 intervals := intervals s;
                 wk := Some {| alive := true; searching := Some o; wbest := best |};
                 channel := channel s ++ [(o, line)]; log := log s |}
          | _, _ => s
          end
      | None => s
      end
  | WorkerDone =>
      match wk s with
      | Some w =>
          match alive w, searching w with
          | true, Some o =>
              {| eng := eng s; next_id := next_id s; timeouts := timeouts s;
                 intervals := intervals s;
                 wk := Some {| alive := true; searching := None; wbest := wbest w |};
                 channel := channel s ++ [(o, "bestmove " +:+ wbest w)];
                 log := log s |}
          | _, _ => s
          end
      | None => s
      end
  | WorkerError => perform Handshake Call (Engine.onError (eng s)) s
  end.

Definition run (evs : list event) (s : sys) : sys := fold_left step evs s.

End Run.

(** the page constructs its engine: [started] tells whether [new Worker]
    returned, [loads] whether the worker script then comes to life *)
Definition boot (hasOnUpdate started loads : bool) : sys :=
  perform Handshake Call (Engine.create hasOnUpdate started 0)
    {| eng := fst (Engine.create hasOnUpdate started 0);
       next_id := 1;
       timeouts := [];
       intervals := [];
       wk := if started
             then Some {| alive := loads; searching := None; wbest := "(none)" |}
             else None;
       channel := [];
       log := [] |}.

(** the promises the log shows as resolved, in order *)
Definition resolved (l : list entry) : list nat :=
  omap (fun x => match x with Resolved p _ _ => Some p | _ => None end) l.

End Session.

(** ** [class ChessLogic] *)

Module Logic.

(** an entry of [game.history({ verbose: true })] *)
Record vmove := {
  v_san : string;
  v_from : string;
  v_to : string;
  v_color : color;
  v_piece : piece
}.

(** The chess.js game object the timeline wraps, as an interface over its
    state [G]: [new Chess()], [reset()], [fen()], [load_pgn(pgn, {sloppy})]
    with its boolean answer, [history({verbose})] and [move(san)]. *)
Class ChessGame (G : Type) := {
  new_chess : G;
  g_reset : G -> G;
  g_fen : G -> string;
  g_load_pgn : string -> G -> bool * G;
  g_history : G -> list vmove;
  g_move : string -> G -> G
}.

Section Timeline.
Context {G : Type} `{ChessGame G}.

Record t := {
  game : G;
  fens : list string;
  sans : list string;
  squares : list square_move;
  idx : Z;
  classifications : list classification
}.

(** [_snapshot()] *)
Definition _snapshot (l : t) : t :=
  {| game := game l; fens := fens l ++ [g_fen (game l)]; sans := sans l;
     squares := squares l; idx := idx l; classifications := classifications l |}.

(** [constructor()] *)
Definition create : t :=
  _snapshot {| game := new_chess; fens := []; sans := []; squares := [];
               idx := 0; classifications := [] |}.

(** [reset()] *)
Definition reset (l : t) : t :=
  _snapshot {| game := g_reset (game l); fens := []; sans := []; squares := [];
               idx := 0; classifications := [] |}.

(** the body of [for (const m of moves)] in [loadPGN] *)
Definition replay (l : t) (m : vmove) : t :=
  _snapshot
    {| game := g_move (v_san m) (game l);
       fens := fens l;
       sans := sans l ++ [v_san m];
       squares := squares l ++ [{| from := v_from m; to := v_to m;
                                   color_of := v_color m; piece_of := v_piece m |}];
       idx := idx l;
       classifications := classifications l |}.

(** [loadPGN(pgn)], with its boolean answer *)
Definition loadPGN (pgn : string) (l : t) : bool * t :=
  let l1 := reset l in
  let '(ok, g) := g_load_pgn pgn (game l1) in
  let l2 := {| game := g; fens := fens l1; sans := sans l1; squares := squares l1;
               idx := idx l1; classifications := classifications l1 |} in
  if negb ok then (false, l2)
  else
    let moves := g_history g in
    let l3 := fold_left replay moves (reset l2) in
    (true,
     {| game := game l3; fens := fens l3; sans := sans l3; squares := squares l3;
        idx := Z.of_nat (length (fens l3)) - 1;
        classifications := classifications l3 |}).

(** [fen()]: [this.fens[this.idx]] *)
Definition fen (l : t) : option string :=
  if (idx l <? 0)%Z then None else fens l !! Z.to_nat (idx l).

Definition with_idx (i : Z) (l : t) : t :=
  {| game := game l; fens := fens l; sans := sans l; squares := squares l;
     idx := i; classifications := classifications l |}.

Definition goStart (l : t) : t := with_idx 0 l.

Definition goEnd (l : t) : t := with_idx (Z.of_nat (length (fens l)) - 1) l.

Definition goNext (l : t) : t :=
  if (idx l <? Z.of_nat (length (fens l)) - 1)%Z then with_idx (idx l + 1) l else l.

Definition goPrev (l : t) : t :=
  if (0 <? idx l)%Z then with_idx (idx l - 1) l else l.

Definition goTo (i : Z) (l : t) : t :=
  if (0 <=? i)%Z && (i <? Z.of_nat (length (fens l)))%Z then with_idx i l else l.

(** the public operations that move or rebuild the timeline *)
Inductive op :=
  | DoReset
  | DoLoadPGN (pgn : string)
  | DoGoStart
  | DoGoEnd
  | DoGoNext
  | DoGoPrev
  | DoGoTo (i : Z).

Definition apply (l : t) (o : op) : t :=
  match o with
  | DoReset => reset l
  | DoLoadPGN pgn => snd (loadPGN pgn l)
  | DoGoStart => goStart l
  | DoGoEnd => goEnd l
  | DoGoNext => goNext l
  | DoGoPrev => goPrev l
  | DoGoTo i => goTo i l
  end.

Definition run (ops : list op) (l : t) : t := fold_left apply ops l.

End Timeline.

Arguments t G : clear implicits.

End Logic.

(** ** The evaluation loop of [analyzeFullGame] *)

Section Analyzer.
Context `{Rules}.

(** the awaited [engine.evalAsync(fen, depth)], with the session it runs on
    threaded through *)
Variable Oracle : Type.
Variable evalAsync : string -> Z -> Oracle -> Engine.result * Oracle.

(** the number a possibly-null score is read as *)
Definition number (o : option Q) : Q := default 0%Q o.

(** the loop's variables: [evals], [bestMoves], the session, and what has
    been observed of the loop: the indices sent to the oracle and the
    arguments [onProgress] was called with *)
Record loop_state := {
  evals : list eval;
  bestMoves : list (option string);
  session : Oracle;
  asked : list nat;
  progress : list (nat * nat)
}.

(** the synthesized evaluation of a terminal position *)
Definition terminalEval (fen : string) : eval :=
  let isWhiteTurn := bool_decide (turn fen = White) in
  if in_checkmate fen
  then {| score := if isWhiteTurn then -100 else 100; isMate := true;
          raw := 0; pv := None |}
  else {| score := 0; isMate := false; raw := 0; pv := None |}.

(** the normalized evaluation of an oracle answer *)
Definition normalizedEval (fen : string) (result : Engine.result) : eval :=
  let isWhiteTurn := bool_decide (turn fen = White) in
  {| score := if isWhiteTurn then number (Engine.score result)
              else - number (Engine.score result);
     isMate := Engine.isMate result;
     raw := number (Engine.score result);
     pv := if Js.truthy (Engine.pv result) then Engine.pv result else Some "" |}.

(** one iteration of [for (let i = 0; i < fens.length; i++)] *)
Definition evaluateAt (targetDepth : Z) (total : nat) (a : loop_state)
    (i : nat) (fen : string) : loop_state :=
  if game_over fen then
    {| evals := evals a ++ [terminalEval fen];
       bestMoves := bestMoves a ++ [None];
       session := session a;
       asked := asked a;
       progress := progress a ++ [(i, total)] |}
  else
    let '(result, o) := evalAsync fen targetDepth (session a) in
    {| evals := evals a ++ [normalizedEval fen result];
       bestMoves := bestMoves a ++ [Engine.bestMove result];
       session := o;
       asked := asked a ++ [i];
       progress := progress a ++ [(i, total)] |}.

Fixpoint evaluateLoop (targetDepth : Z) (total i : nat) (rest : list string)
    (a : loop_state) : loop_state :=
  match rest with
  | [] => a
  | fen :: rest' =>
      evaluateLoop targetDepth total (S i) rest'
        (evaluateAt targetDepth total a i fen)
  end.

(** the first half of [analyzeFullGame(engine, logic, targetDepth, onProgress)] *)
Definition evaluateGame (targetDepth : Z) (fens : list string) (o : Oracle)
    : loop_state :=
  evaluateLoop targetDepth (length fens) 0 fens
    {| evals := []; bestMoves := []; session := o; asked := []; progress := [] |}.

(** [analyzeFullGame]: both loops; [None] when the second loop throws *)
Definition analyzeFullGame (targetDepth : Z) (fens sans : list string)
    (squares : list square_move) (o : Oracle) : option (list classification) :=
  let a := evaluateGame targetDepth fens o in
  classifyLoop fens sans squares (evals a) (bestMoves a).

End Analyzer.

(** ** Sample collaborators for the worked examples *)

Definition startFen : string :=
  "rnbqkbnr/pppppppp/8/8/8/8/PPPPPPPP/RNBQKBNR w KQkq - 0 1".

Definition afterE4Fen : string :=
  "rnbqkbnr/pppppppp/8/8/4P3/8/PPPP1PPP/RNBQKBNR b KQkq e3 0 1".

(** White is mated (fool's mate) *)
Definition foolsMateFen : string :=
  "rnb1kbnr/pppp1ppp/8/4p3/6Pq/5P2/PPPPP2P/RNBQKBNR w KQkq - 1 3".

(** Black is mated on the back rank *)
Definition backRankFen : string :=
  "3R2k1/5ppp/8/8/8/8/5PPP/6K1 b - - 1 1".

(** Black to move has no move and is not in check *)
Definition stalemateFen : string :=
  "7k/5Q2/6K1/8/8/8/8/8 b - - 0 1".

(** chess.js restricted to what the examples ask of it: the side to move
    is read off the FEN, and the terminal positions are the three above *)
Definition sampleRules : Rules :=
  {| turn := fun fen =>
       if bool_decide (Js.secondToken fen = Some "b") then Black else White;
     game_over := fun fen =>
       String.eqb fen foolsMateFen || String.eqb fen backRankFen
       || String.eqb fen stalemateFen;
     in_checkmate := fun fen =>
       String.eqb fen foolsMateFen || String.eqb fen backRankFen;
     get := fun _ _ => None;
     move_san := fun _ _ _ _ => None |}.

(** ** Desirability of a tier

    The place of a tier in the table [CLASSIFICATION], which lists the
    tiers from the most to the least desirable; a larger number is a
    better tier. *)
Definition desirability (t : tier) : nat :=
  match t with
  | BRILLIANT => 7
  | GREAT => 6
  | BEST => 5
  | GOOD => 4
  | BOOK => 3
  | INACCURACY => 2
  | MISTAKE => 1
  | BLUNDER => 0
  end.

(** the Book rule of the cascade applies *)
Definition bookRule (m : nat) (loss : Q) : Prop :=
  (m < BOOK_MOVES)%nat /\ (Qabs loss < 5 # 10)%Q.

(** a move record with the given squares *)
Definition mkMove (f t : string) (c : color) (p : piece) : square_move :=
  {| from := f; to := t; color_of := c; piece_of := p |}.

(** an oracle-derived evaluation with the given White-perspective score *)
Definition plainEval (s : Q) : eval :=
  {| score := s; isMate := false; raw := s; pv := Some "" |}.

(** ** Inputs of the worked examples *)

(** 1. e4, played and recommended *)
Definition e4Move : square_move := mkMove "e2" "e4" White Pawn.

(** Nf3 as White's eleventh half-move, played and recommended *)
Definition nf3Move : square_move := mkMove "g1" "f3" White Knight.

(** ... Nf6 by Black *)
Definition nf6Move : square_move := mkMove "g8" "f6" Black Knight.

(** after 1. e4 e5 2. Bc4 Bc5 3. d3 d6 4. c3 Nc6 5. Qe2 Be6 *)
Definition middleFen : string :=
  "r2qk1nr/ppp2ppp/2npb3/2b1p3/2B1P3/2PP4/PP2QPPP/RNB1K1NR w KQkq - 3 6".

(** ... 6. Nf3 *)
Definition middleFenBlack : string :=
  "r2qk1nr/ppp2ppp/2npb3/2b1p3/2B1P3/2PP1N2/PP2QPPP/RNB1K2R b KQkq - 4 6".

(** ... 6... Nf6 *)
Definition afterNf6Fen : string :=
  "r2qk2r/ppp2ppp/2npbn2/2b1p3/2B1P3/2PP1N2/PP2QPPP/RNB1K2R w KQkq - 5 7".

(** ** The material balance in the words of its description

    [occurrences c s] counts the character [c] in [s]; [materialSum] is
    the signed sum with pawn 1, knight 3, bishop 3, rook 5, queen 9,
    White's pieces counted positively and Black's negatively.  Kings and
    every other character of the field have no term. *)
Fixpoint occurrences (c : ascii) (s : string) : Z :=
  match s with
  | EmptyString => 0
  | String a rest => ((if Ascii.eqb a c then 1 else 0) + occurrences c rest)%Z
  end.

Definition materialSum (pieces : string) : Z :=
  (1 * (occurrences "P" pieces - occurrences "p" pieces)
   + 3 * (occurrences "N" pieces - occurrences "n" pieces)
   + 3 * (occurrences "B" pieces - occurrences "b" pieces)
   + 5 * (occurrences "R" pieces - occurrences "r" pieces)
   + 9 * (occurrences "Q" pieces - occurrences "q" pieces))%Z.

(** the material change across a move, seen from the mover *)
Definition moverDelta (c : color) (fenBefore fenAfter : string) : Z :=
  let d := (materialSum (Js.firstToken fenAfter)
            - materialSum (Js.firstToken fenBefore))%Z in
  match c with
  | White => d
  | Black => (- d)%Z
  end.

(** a two-position timeline whose move is recorded as the capture Bxe5
    while the material is the same before and after: White is a queen for a
    bishop down in both positions *)
Definition tradeFenBefore : string := "3qk3/8/8/8/3B4/8/8/4K3 w - - 0 1".

Definition tradeFenAfter : string := "3qk3/8/8/4B3/8/8/8/4K3 b - - 1 1".

(** the oracle on that timeline: -5 for White to move, then +7 for Black
    to move, both at the requested depth and without a line *)
Definition tradeOracle (fen : string) (d : Z) (served : nat)
    : Engine.result * nat :=
  ({| Engine.depth := d;
      Engine.score := Some (if (served =? 0)%nat then -5 else 7)%Q;
      Engine.isMate := false;
      Engine.bestMove := None;
      Engine.pv := None |}, S served).

Definition bxe5Move : square_move := mkMove "d4" "e5" White Bishop.

(** ** A sample chess.js game object

    The game object restricted to what the timeline examples ask of it:
    its state is the list of SAN moves made; it knows the positions of
    1. e4 e5 and parses the two transcripts of the examples, of which the
    second breaks off at an impossible move after 1. e4 was made. *)
Definition afterE4E5Fen : string :=
  "rnbqkbnr/pppp1ppp/8/4p3/4P3/8/PPPP1PPP/RNBQKBNR w KQkq e6 0 2".

Definition sampleHistory (g : list string) : list Logic.vmove :=
  omap (fun s =>
          if String.eqb s "e4" then
            Some {| Logic.v_san := "e4"; Logic.v_from := "e2"; Logic.v_to := "e4";
                    Logic.v_color := White; Logic.v_piece := Pawn |}
          else if String.eqb s "e5" then
            Some {| Logic.v_san := "e5"; Logic.v_from := "e7"; Logic.v_to := "e5";
                    Logic.v_color := Black; Logic.v_piece := Pawn |}
          else None) g.

#[local] Instance sampleGame : Logic.ChessGame (list string) :=
  {| Logic.new_chess := [];
     Logic.g_reset := fun _ => [];
     Logic.g_fen := fun g =>
       match g with
       | [] => startFen
       | [_] => afterE4Fen
       | _ => afterE4E5Fen
       end;
     Logic.g_load_pgn := fun pgn g =>
       if String.eqb pgn "1. e4 e5" then (true, ["e4"; "e5"])
       else if String.eqb pgn "1. e4 Qh9" then (false, ["e4"])
       else (false, g);
     Logic.g_history := sampleHistory;
     Logic.g_move := fun s g => g ++ [s] |}.

(** the timeline after the page loaded 1. e4 e5 *)
Definition loadedTimeline : Logic.t (list string) :=
  snd (Logic.loadPGN "1. e4 e5" Logic.create).

(** the move records of the fool's mate *)
Definition foolsMateSans : list string := ["f3"; "e5"; "g4"; "Qh4#"].

Definition foolsMateSquares : list square_move := [
  mkMove "f2" "f3" White Pawn;
  mkMove "e7" "e5" Black Pawn;
  mkMove "g2" "g4" White Pawn;
  mkMove "d8" "h4" Black Queen
].

(** ** The cursor invariant of a timeline *)
Definition cursor_ok {G : Type} (l : Logic.t G) : Prop :=
  Logic.fens l <> []
  /\ (0 <= Logic.idx l <= Z.of_nat (length (Logic.fens l)) - 1)%Z.

(** ** A sample oracle and a sample game for the analyzer

    The oracle counts the requests it served and always answers +0.3 at
    depth 12 with 1... e5 as its line; the game is the fool's mate
    1. f3 e5 2. g4 Qh4#. *)
Definition sampleOracle (fen : string) (d : Z) (served : nat)
    : Engine.result * nat :=
  ({| Engine.depth := d; Engine.score := Some (3 # 10);
      Engine.isMate := false; Engine.bestMove := Some "e7e5";
      Engine.pv := Some "e7e5 g1f3" |}, S served).

Definition foolsMateFens : list string := [
  startFen;
  "rnbqkbnr/pppppppp/8/8/8/5P2/PPPPP1PP/RNBQKBNR b KQkq - 0 1";
  "rnbqkbnr/pppp1ppp/8/4p3/8/5P2/PPPPP1PP/RNBQKBNR w KQkq e6 0 2";
  "rnbqkbnr/pppp1ppp/8/4p3/6P1/5P2/PPPPP2P/RNBQKBNR b KQkq g3 0 2";
  foolsMateFen
].

(** ** Session states after a failed start

    What holds of a session whose worker never came to life, whatever
    happens next: it is not ready, no awaited request is installed, the
    worker (if the object exists at all) is dead and has sent nothing, the
    only timer is the handshake's, and the page has seen nothing but
    console errors. *)
Definition onlyConsoleError (x : Session.entry) : Prop :=
  exists t, x = Session.Console true t.

Definition silent (s : Session.sys) : Prop :=
  Engine.ready (Session.eng s) = false
  /\ Engine._resolveEval (Session.eng s) = None
  /\ match Session.wk s with
     | None => True
     | Some w => Session.alive w = false
     end
  /\ Session.channel s = []
  /\ Forall (fun x => fst (snd x) = Engine.CbUci) (Session.timeouts s)
  /\ Forall onlyConsoleError (Session.log s).

(** ** Event sequences of the session examples *)

(** the matcher on lines that carry none of the four fields, which is all
    the lines of the examples below *)
Definition noMatch (line : string) : Engine.info_match :=
  {| Engine.depthMatch := None; Engine.cpMatch := None;
     Engine.mateMatch := None; Engine.pvMatch := None |}.

(** the handshake completes: the delayed [uci] is sent, [uciok] and then
    [readyok] are delivered *)
Definition handshake : list Session.event :=
  [Session.TimerFires 0; Session.Deliver; Session.Deliver].

(** a live evaluation of the start position is searching (the worker has
    1. e4 as its current best, reported in a line [_onMessage] skips) when
    an awaited evaluation of the position after 1. e4 is requested; the
    next worker message is then delivered *)
Definition supersededSearch : list Session.event :=
  handshake ++
  [Session.CallEvaluate startFen 14;
   Session.WorkerInfo "info string thinking" "e2e4";
   Session.Deliver;
   Session.CallEvalAsync afterE4Fen 12;
   Session.Deliver].

(** an awaited evaluation runs into its safety timeout; the caller at once
    awaits the next position; the next worker message is then delivered *)
Definition timedOutSearch : list Session.event :=
  handshake ++
  [Session.CallEvalAsync startFen 12;
   Session.WorkerInfo "info string thinking" "e2e4";
   Session.Deliver;
   Session.TimerFires 2;
   Session.CallEvalAsync afterE4Fen 12;
   Session.Deliver].

(** the page asks a session that failed to start for a live and for an
    awaited evaluation, and the readiness poll ticks three times *)
Definition askAfterFailedStart : list Session.event :=
  [Session.CallEvaluate startFen 14;
   Session.CallEvalAsync startFen 12;
   Session.IntervalTicks 3;
   Session.IntervalTicks 3;
   Session.IntervalTicks 3].

(** ** Book-keeping of promises in a session

    A promise of [evalAsync] is pending while its [resolve] sits in
    [_resolveEval] or in the closure of a readiness poll. *)
Definition pollPromise (x : nat * Engine.interval_cb) : option nat :=
  match snd x with
  | Engine.CbPollAsync p _ _ => Some p
  | Engine.CbPollEvaluate _ _ => None
  end.

Definition pending (rs : option nat) (ivs : list (nat * Engine.interval_cb))
    : list nat :=
  option_list rs ++ omap pollPromise ivs.

(** the part of a session the book-keeping reads *)
Definition facet (s : Session.sys)
    : option nat * list (nat * Engine.interval_cb) * list nat * nat :=
  (Engine._resolveEval (Session.eng s), Session.intervals s,
   Session.resolved (Session.log s), Session.next_id s).

(** no promise is both resolved and pending or counted twice, and every
    promise met so far is older than the next number the runtime hands out *)
Definition accountedFor
    (f : option nat * list (nat * Engine.interval_cb) * list nat * nat) : Prop :=
  let '(rs, ivs, done, n) := f in
  NoDup (done ++ pending rs ivs)
  /\ Forall (fun p => (p < n)%nat) (done ++ pending rs ivs).

(** an effect that neither resolves a promise nor touches the polls *)
Definition quiet (x : Engine.effect) : Prop :=
  match x with
  | Engine.Resolve _ _ | Engine.SetInterval _ _ _ | Engine.ClearInterval _ => False
  | _ => True
  end.

(** what a handler may do to the promise in [_resolveEval] ([rs] before,
    the second argument after): leave or drop it without resolving
    anything, or resolve exactly it, as its last effect *)
Inductive settles (rs : option nat) : option nat -> list Engine.effect -> Prop :=
  | settles_quiet (rs' : option nat) (effs : list Engine.effect) :
      Forall quiet effs -> rs' = rs \/ rs' = None -> settles rs rs' effs
  | settles_resolve (p : nat) (r : Engine.result) (q : list Engine.effect) :
      rs = Some p -> Forall quiet q ->
      settles rs None (q ++ [Engine.Resolve p r]).

(** ** More of the analysis, for the properties beyond the claims *)

(** the indices, counted from [i], of the positions of [rest] that are not
    terminal: the ones the first loop sends to the oracle *)
Fixpoint openIndices `{Rules} (i : nat) (rest : list string) : list nat :=
  match rest with
  | [] => []
  | fen :: rest' =>
      (if game_over fen then [] else [i]) ++ openIndices (S i) rest'
  end.

(** the tags in the order the loop body pushes them: the four contextual
    tags, the tags of the branch [cpLoss > 1.2], and the tag of the pawn
    branch *)
Definition contextOrder : list tag :=
  [is_check; is_capture; is_castling; missed_mate].

Definition blameOrder : list tag :=
  [hanging_piece; lost_material; missed_tactic; weakened_king; ignored_threat;
   missed_fork; missed_castling; early_queen; knight_on_rim; edge_pawn_push;
   redundant_move; bad_trade; allowed_trade].

Definition tagOrder : list tag := contextOrder ++ blameOrder ++ [kicks_piece].

(** chess.js as [sampleRules], which in addition converts the coordinate
    move e7e5 of the position after 1. f3 to its SAN *)
Definition sampleRulesSan : Rules :=
  {| turn := @turn sampleRules;
     game_over := @game_over sampleRules;
     in_checkmate := @in_checkmate sampleRules;
     get := fun _ _ => None;
     move_san := fun fen f t promo =>
       if String.eqb f "e7" && String.eqb t "e5"
          && bool_decide (promo = None)
       then Some "e5" else None |}.

(** ** Openings and phases, for the properties beyond the claims *)

#[global] Instance opening_entry_eq_dec : EqDecision opening_entry.
Proof. solve_decision. Defined.

(** [op] is a row of the table whose prefix the joined moves start with *)
Definition openingMatches (sans : list string) (op : opening_entry) : Prop :=
  op ∈ COMMON_OPENINGS /\ Js.startsWith (Js.join " " sans) (prefix op) = true.

(** the number of knights, bishops, rooks and queens of both colours in a
    piece-placement field *)
Definition majorMinorPieces (pieces : string) : Z :=
  (occurrences "N" pieces + occurrences "B" pieces + occurrences "R" pieces
   + occurrences "Q" pieces + occurrences "n" pieces + occurrences "b" pieces
   + occurrences "r" pieces + occurrences "q" pieces)%Z.

(** ** The remaining methods of [ChessLogic] *)

(** [a[i]] for a number [i] that may be negative or past the end *)
Definition at_index {A} (l : list A) (i : Z) : option A :=
  if (i <? 0)%Z then None else l !! Z.to_nat i.

(** [moves()] *)
Definition moves {G} (l : Logic.t G) : list string := Logic.sans l.

(** [currentMoveSquares()] *)
Definition currentMoveSquares {G} (l : Logic.t G) : option square_move :=
  if (Logic.idx l =? 0)%Z then None
  else at_index (Logic.squares l) (Logic.idx l - 1).

(** [currentClassification()] *)
Definition currentClassification {G} (l : Logic.t G) : option classification :=
  if (Logic.idx l =? 0)%Z || (length (Logic.classifications l) =? 0)%nat then None
  else at_index (Logic.classifications l) (Logic.idx l - 1).

(** [getMoveClassification(moveIdx)] *)
Definition getMoveClassification {G} (moveIdx : Z) (l : Logic.t G)
    : option classification :=
  if (length (Logic.classifications l) =? 0)%nat then None
  else at_index (Logic.classifications l) moveIdx.

(** [turn()]: [this.idx % 2 === 0 ? 'w' : 'b'] *)
Definition turnOf {G} (l : Logic.t G) : color :=
  if (Z.rem (Logic.idx l) 2 =? 0)%Z then White else Black.

(** [getGameOpening()] *)
Definition getGameOpening {G} (l : Logic.t G) : option opening_entry :=
  if (length (Logic.sans l) =? 0)%nat then None else getOpening (Logic.sans l).

(** the page's assignment [logic.classifications = classifications] *)
Definition setClassifications {G} (cs : list classification) (l : Logic.t G)
    : Logic.t G :=
  {| Logic.game := Logic.game l; Logic.fens := Logic.fens l;
     Logic.sans := Logic.sans l; Logic.squares := Logic.squares l;
     Logic.idx := Logic.idx l; Logic.classifications := cs |}.

(** the move record [loadPGN] stores for a history entry *)
Definition recordOf (m : Logic.vmove) : square_move :=
  {| from := Logic.v_from m; to := Logic.v_to m;
     color_of := Logic.v_color m; piece_of := Logic.v_piece m |}.

(** the game object after each of the moves, made in turn from [g] *)
Fixpoint gamesAfter {G} `{Logic.ChessGame G} (g : G) (ms : list Logic.vmove)
    : list G :=
  match ms with
  | [] => []
  | m :: rest =>
      Logic.g_move (Logic.v_san m) g
      :: gamesAfter (Logic.g_move (Logic.v_san m) g) rest
  end.

(** the shape of a timeline: one position more than moves, one move
    record per move *)
Definition shape_ok {G} (l : Logic.t G) : Prop :=
  length (Logic.fens l) = S (length (Logic.sans l))
  /\ length (Logic.squares l) = length (Logic.sans l).

(** ** The entry points of an [Engine] object

    Every way control enters the object after its construction: the four
    public methods, the two listeners on the worker, and the closures
    handed to [setTimeout] and [setInterval]. *)
Inductive entryPoint :=
  | EnterEvaluate (check : nat) (fen : string) (depth : Z)
  | EnterEvalAsync (resolve fresh : nat) (fen : string) (depth : Z)
  | EnterStop
  | EnterSetOption (name value : string)
  | EnterMessage (data : option string)
  | EnterError
  | EnterTimeout (cb : Engine.timeout_cb)
  | EnterInterval (check fresh : nat) (cb : Engine.interval_cb).

Definition enter (matchInfo : string -> Engine.info_match) (c : entryPoint)
    (e : Engine.t) : Engine.t * list Engine.effect :=
  match c with
  | EnterEvaluate check fen d => Engine.evaluate check fen d e
  | EnterEvalAsync resolve fresh fen d => Engine.evalAsync resolve fresh fen d e
  | EnterStop => Engine.stop e
  | EnterSetOption n v => Engine.setOption n v e
  | EnterMessage data => Engine.onMessage matchInfo data e
  | EnterError => Engine.onError e
  | EnterTimeout cb => Engine.onTimeout cb e
  | EnterInterval check fresh cb => Engine.onInterval check fresh cb e
  end.

(** an effect that sends the worker a [go] command *)
Definition startsSearch (x : Engine.effect) : bool :=
  match x with
  | Engine.Post msg => Js.startsWith msg "go"
  | _ => false
  end.

(** the move a [bestmove] line installs: its second token unless that is
    missing, empty or [(none)] *)
Definition moveOfLine (line : string) (e : Engine.t) : option string :=
  if Js.truthy (Js.secondToken line)
     && negb (bool_decide (Js.secondToken line = Some "(none)"))
  then Js.secondToken line
  else Engine._currentBestMove e.

(** ** Book-keeping of the safety timer *)

(** what one effect adds to the page's log *)
Definition entryOf (why : Session.cause) (x : Engine.effect)
    : option Session.entry :=
  match x with
  | Engine.Throw => Some Session.Thrown
  | Engine.Resolve p r => Some (Session.Resolved p r why)
  | Engine.OnUpdate u => Some (Session.Updated u)
  | Engine.ConsoleLog t => Some (Session.Console false t)
  | Engine.ConsoleError t => Some (Session.Console true t)
  | _ => None
  end.

(** an effect that sets no timer numbered [n] or above *)
Definition timerBelow (n : nat) (x : Engine.effect) : Prop :=
  match x with
  | Engine.SetTimeout id _ _ => (id < n)%nat
  | _ => True
  end.

(** an effect that neither sets nor clears a timer or a poll *)
Definition scheduleFree (x : Engine.effect) : Prop :=
  match x with
  | Engine.SetTimeout _ _ _ | Engine.ClearTimeout _
  | Engine.SetInterval _ _ _ | Engine.ClearInterval _ => False
  | _ => True
  end.

(** an effect that neither sets nor clears a timer *)
Definition timerFree (x : Engine.effect) : Prop :=
  match x with
  | Engine.SetTimeout _ _ _ | Engine.ClearTimeout _ => False
  | _ => True
  end.

(** an effect that parks no awaited evaluation in a readiness poll *)
Definition noAsyncPoll (x : Engine.effect) : Prop :=
  match x with
  | Engine.SetInterval _ (Engine.CbPollAsync _ _ _) _ => False
  | _ => True
  end.

(** an event that does not start another awaited evaluation *)
Definition noNewAwait (ev : Session.event) : Prop :=
  match ev with
  | Session.CallEvalAsync _ _ => False
  | _ => True
  end.

(** promise [p] is installed in a ready engine, its safety timer [S p] is
    armed, and no readiness poll holds another awaited evaluation *)
Definition awaited (p : nat) (s : Session.sys) : Prop :=
  Engine._resolveEval (Session.eng s) = Some p
  /\ Engine.worker (Session.eng s) = true
  /\ Engine.ready (Session.eng s) = true
  /\ (exists o, Session.find_id (S p) (Session.timeouts s)
                = Some (Engine.CbEvalTimeout, o))
  /\ Forall (fun x => pollPromise x = None) (Session.intervals s).

(** every armed timer has a number the runtime has already handed out *)
Definition timersIssued (s : Session.sys) : Prop :=
  Forall (fun x => (fst x < Session.next_id s)%nat) (Session.timeouts s).

(** ** The bot's strength ([eloToSkill], [eloToDepth] of the play screen) *)

Definition eloToSkill (elo : Z) : Z :=
  if (elo <=? 400)%Z then 0
  else if (elo <=? 800)%Z then 3
  else if (elo <=? 1200)%Z then 6
  else if (elo <=? 1600)%Z then 10
  else if (elo <=? 2000)%Z then 14
  else if (elo <=? 2500)%Z then 18
  else 20.

Definition eloToDepth (elo : Z) : Z :=
  if (elo <=? 400)%Z then 1
  else if (elo <=? 800)%Z then 2
  else if (elo <=? 1200)%Z then 4
  else if (elo <=? 1600)%Z then 6
  else if (elo <=? 2000)%Z then 10
  else if (elo <=? 2500)%Z then 14
  else 20.

(** ** Board coordinates of the overlay *)

(** [parseInt(c)] of a single character: its digit value, [None] for NaN *)
Definition parseDigit (c : ascii) : option Z :=
  if (48 <=? nat_of_ascii c)%nat && (nat_of_ascii c <=? 57)%nat
  then Some (Z.of_nat (nat_of_ascii c) - 48)%Z
  else None.

(** [squareToCoords(sq)] under the page's [isFlipped]; a coordinate is
    [None] where the script computes NaN (a missing character, or a second
    character that is no digit) *)
Definition squareToCoords (isFlipped : bool) (sq : string)
    : option Z * option Z :=
  let file :=
    option_map (fun c => Z.of_nat (nat_of_ascii c) - 97)%Z (String.get 0 sq) in
  let rank :=
    option_map (fun r => r - 1)%Z
               (match String.get 1 sq with
                | Some c => parseDigit c
                | None => None
                end) in
  if isFlipped then
    (option_map (fun f => (7 - f) * 100 + 50)%Z file,
     option_map (fun r => r * 100 + 50)%Z rank)
  else
    (option_map (fun f => f * 100 + 50)%Z file,
     option_map (fun r => (7 - r) * 100 + 50)%Z rank).

(** [/^[a-h][1-8]$/.test(sq)], the guard of the best-move arrow *)
Definition isSquare (sq : string) : bool :=
  match sq with
  | String f (String r EmptyString) =>
      (97 <=? nat_of_ascii f)%nat && (nat_of_ascii f <=? 104)%nat
      && (49 <=? nat_of_ascii r)%nat && (nat_of_ascii r <=? 56)%nat
  | _ => false
  end.

(** ** The game summary ([renderSummary]) *)

(** [cats], the rows of the summary *)
Definition cats : list string :=
  ["brilliant"; "great"; "best"; "inaccuracy"; "mistake"; "blunder"].

(** a per-side counter object, its keys in the order of [cats] *)
Definition bucket : Type := list (string * nat).

(** [cats.forEach(c => { white[c] = 0; black[c] = 0; })] *)
Definition emptyBucket : bucket := map (fun c => (c, 0%nat)) cats.

(** [bucket[key]], [None] for [undefined] *)
Fixpoint bucketGet (k : string) (b : bucket) : option nat :=
  match b with
  | [] => None
  | (c, n) :: rest => if String.eqb c k then Some n else bucketGet k rest
  end.

(** [if (bucket[key] !== undefined) bucket[key]++] *)
Fixpoint bucketBump (k : string) (b : bucket) : bucket :=
  match b with
  | [] => []
  | (c, n) :: rest =>
      if String.eqb c k then (c, S n) :: rest else (c, n) :: bucketBump k rest
  end.

(** the counters of [renderSummary]; [wLoss] and [bLoss] count, despite
    their names, the engine-aligned moves *)
Record summary := {
  white : bucket;
  black : bucket;
  wLoss : nat;
  bLoss : nat;
  wCount : nat;
  bCount : nat
}.

(** the row a classification key is counted in *)
Definition summaryKey (k : string) : string :=
  if String.eqb k "good" then "best"
  else if String.eqb k "book" then "best"
  else k.

(** [['brilliant', 'great', 'best', 'good', 'book'].includes(cls.key)] *)
Definition alignedKey (k : string) : bool :=
  bool_decide (k ∈ ["brilliant"; "great"; "best"; "good"; "book"]).

(** the body of [logic.classifications.forEach((cls, i) => ...)] *)
Definition summaryStep (st : summary) (i : nat) (c : classification) : summary :=
  let k := summaryKey (key (cls c)) in
  let aligned := alignedKey (key (cls c)) in
  if (i mod 2 =? 0)%nat then
    {| white := bucketBump k (white st); black := black st;
       wLoss := if aligned then S (wLoss st) else wLoss st; bLoss := bLoss st;
       wCount := S (wCount st); bCount := bCount st |}
  else
    {| white := white st; black := bucketBump k (black st);
       wLoss := wLoss st; bLoss := if aligned then S (bLoss st) else bLoss st;
       wCount := wCount st; bCount := S (bCount st) |}.

Fixpoint summaryLoop (i : nat) (cs : list classification) (st : summary)
    : summary :=
  match cs with
  | [] => st
  | c :: rest => summaryLoop (S i) rest (summaryStep st i c)
  end.

(** the counting pass of [renderSummary] over [logic.classifications]
    (which the function only reaches when the list is not empty) *)
Definition summarize (cs : list classification) : summary :=
  summaryLoop 0 cs
    {| white := emptyBucket; black := emptyBucket;
       wLoss := 0; bLoss := 0; wCount := 0; bCount := 0 |}.

(** the number [renderSummary] shows as a side's accuracy, before it is
    cut to one decimal by [toFixed(1)]; [None] is the dash *)
Definition accuracyOf (aligned count : nat) : option Q :=
  if (0 <? count)%nat
  then Some (inject_Z (Z.of_nat aligned) / inject_Z (Z.of_nat count) * 100)%Q
  else None.

(** the sum of a counter object's entries *)
Definition bucketTotal (b : bucket) : nat := list_sum (map snd b).

(** a row's count, 0 for a key the object lacks *)
Definition rowCount (k : string) (b : bucket) : nat := default 0%nat (bucketGet k b).

(** a counter object with the six rows and the given counts *)
Definition bucketOf (a1 a2 a3 a4 a5 a6 : nat) : bucket :=
  [("brilliant", a1); ("great", a2); ("best", a3);
   ("inaccuracy", a4); ("mistake", a5); ("blunder", a6)].

(** the counters agree with the rows: each side's aligned moves are its
    first three rows, its moves are all six *)
Definition tallied (st : summary) : Prop :=
  exists a1 a2 a3 a4 a5 a6 b1 b2 b3 b4 b5 b6,
    white st = bucketOf a1 a2 a3 a4 a5 a6
    /\ black st = bucketOf b1 b2 b3 b4 b5 b6
    /\ wLoss st = (a1 + a2 + a3)%nat
    /\ bLoss st = (b1 + b2 + b3)%nat
    /\ wCount st = (a1 + a2 + a3 + a4 + a5 + a6)%nat
    /\ bCount st = (b1 + b2 + b3 + b4 + b5 + b6)%nat.

(** ** The move list ([renderMoves]) *)

(** what [appendMoveCell] puts into a cell: the SAN shown, the move's
    classification if there is one, the position its click handler goes
    to, and whether it is marked active *)
Record moveCell := {
  c_san : string;
  c_cls : option classification;
  c_target : nat;
  c_active : bool
}.

Record moveRow := {
  r_number : nat;
  r_white : moveCell;
  r_black : option moveCell
}.

Definition appendMoveCell {G} (l : Logic.t G) (san : string)
    (moveIdx fenIdx : nat) : moveCell :=
  {| c_san := san;
     c_cls := getMoveClassification (Z.of_nat moveIdx) l;
     c_target := fenIdx;
     c_active := (Logic.idx l =? Z.of_nat fenIdx)%Z |}.

(** the loop [for (let i = 0; i < moves.length; i += 2)], on the moves
    from index [i] on *)
Fixpoint moveRows {G} (l : Logic.t G) (i : nat) (rest : list string)
    : list moveRow :=
  match rest with
  | [] => []
  | [w] =>
      [{| r_number := i / 2 + 1;
          r_white := appendMoveCell l w i (i + 1);
          r_black := None |}]
  | w :: b :: rest' =>
      {| r_number := i / 2 + 1;
         r_white := appendMoveCell l w i (i + 1);
         r_black := Some (appendMoveCell l b (i + 1) (i + 2)) |}
      :: moveRows l (i + 2) rest'
  end.

Definition renderMoves {G} (l : Logic.t G) : list moveRow :=
  moveRows l 0 (moves l).

(** the move cells of the table in document order *)
Definition cellsOf (rows : list moveRow) : list moveCell :=
  flat_map (fun r => r_white r :: option_list (r_black r)) rows.

(** the cell [appendMoveCell] builds for each move from index [i] on *)
Fixpoint cellsFrom {G} (l : Logic.t G) (i : nat) (rest : list string)
    : list moveCell :=
  match rest with
  | [] => []
  | san :: rest' => appendMoveCell l san i (i + 1) :: cellsFrom l (S i) rest'
  end.

(** what the timeline does on [goToIndex(i)], the click handler of a move
    cell (the page then redraws) *)
Definition goToIndex {G} (i : nat) (l : Logic.t G) : Logic.t G :=
  Logic.goTo (Z.of_nat i) l.

(** ** The analysis cache key of [runFullAnalysis] *)

(** whether the character occurs in the string *)
Fixpoint hasChar (c : ascii) (s : string) : bool :=
  match s with
  | EmptyString => false
  | String a rest => Ascii.eqb a c || hasChar c rest
  end.

(** [`chess_analysis_v1_${targetDepth}_${movesStr}`] with
    [movesStr = logic.sans.join('|')], for a depth that parsed to an
    integer *)
Definition cacheKey (targetDepth : Z) (sans : list string) : string :=
  "chess_analysis_v1_" +:+ pretty targetDepth +:+ "_" +:+ Js.join "|" sans.

(** what the key relies on in a SAN: it is not empty and has no bar *)
Definition sanLike (s : string) : Prop :=
  s <> "" /\ hasChar "|" s = false.

(** ** A stored analysis for the timeline examples *)

(** a Book classification of the move [mv] between two positions *)
Definition bookClassification (mv : square_move) (fenBefore fenAfter : string)
    : classification :=
  {| cls := BOOK; cpLoss := 0; evalBefore := 3 # 10; evalAfter := 3 # 10;
     engineBest := Some (from mv +:+ to mv); engineBestSan := None;
     enginePv := Some ""; cls_from := from mv; cls_to := to mv;
     cls_piece := piece_of mv; tags := []; cls_phase := opening;
     matBefore := getMaterialBalance fenBefore;
     matAfter := getMaterialBalance fenAfter;
     opening_info := None; hungPiece := None |}.

(** an analysis of 1. e4 e5 as the page stores it *)
Definition storedAnalysis : list classification :=
  [bookClassification e4Move startFen afterE4Fen;
   bookClassification (mkMove "e7" "e5" Black Pawn) afterE4Fen afterE4E5Fen].

(** * Properties *)

(** ** Rational comparisons *)

Lemma Qltb_lt (x y : Q) : Qltb x y = true <-> (x < y)%Q.
Proof.
  unfold Qltb. rewrite negb_true_iff, <- not_true_iff_false, Qle_bool_iff.
  split; [apply Qnot_le_lt | apply Qlt_not_le].
Qed.

Lemma Qltb_ge (x y : Q) : Qltb x y = false <-> (y <= x)%Q.
Proof.
  unfold Qltb. rewrite negb_false_iff. apply Qle_bool_iff.
Qed.

Lemma Qle_bool_gt (x y : Q) : Qle_bool x y = false <-> (y < x)%Q.
Proof.
  rewrite <- not_true_iff_false, Qle_bool_iff.
  split; [apply Qnot_le_lt | apply Qlt_not_le].
Qed.

(** turn every boolean comparison of the goal into an order fact *)
Ltac qcases :=
  repeat match goal with
  | |- context [Qle_bool ?a ?b] =>
      let E := fresh "E" in
      destruct (Qle_bool a b) eqn:E;
      [apply Qle_bool_iff in E | apply Qle_bool_gt in E]
  | |- context [Qltb ?a ?b] =>
      let E := fresh "E" in
      destruct (Qltb a b) eqn:E;
      [apply Qltb_lt in E | apply Qltb_ge in E]
  end.

Lemma Qabs_lt_half (x : Q) : (Qabs x < 5 # 10)%Q <-> (-(5 # 10) < x /\ x < 5 # 10)%Q.
Proof.
  split.
  - intros Hx. destruct (Qlt_le_dec x 0) as [Hn | Hp].
    + rewrite Qabs_neg in Hx by lra. lra.
    + rewrite Qabs_pos in Hx by lra. lra.
  - intros [Hl Hr]. destruct (Qlt_le_dec x 0) as [Hn | Hp].
    + rewrite Qabs_neg by lra. lra.
    + rewrite Qabs_pos by lra. lra.
Qed.

(** ** The embedding at work *)

Example material_at_start : getMaterialBalance startFen = 0%Z.
Proof. reflexivity. Qed.

Example material_queen_for_bishop : getMaterialBalance tradeFenBefore = (-6)%Z.
Proof. reflexivity. Qed.

Example phase_at_start : getGamePhase startFen 0 = opening.
Proof. reflexivity. Qed.

Example phase_few_pieces : getGamePhase tradeFenBefore 78 = endgame.
Proof. reflexivity. Qed.

(** the longest prefix wins over "e4 c5" *)
Example opening_najdorf :
  option_map name
    (getOpening ["e4"; "c5"; "Nf3"; "d6"; "d4"; "cxd4"; "Nxd4"; "Nf6"; "Nc3"; "a6"])
  = Some "the Sicilian Najdorf".
Proof. reflexivity. Qed.

(** half-move 5 can be Book, half-move 6 cannot *)
Example book_boundary :
  tierOf 5 e4Move None (4 # 10) = BOOK /\ tierOf 6 e4Move None (4 # 10) = BEST.
Proof. split; reflexivity. Qed.

(** the ladder at its thresholds *)
Example ladder_thresholds :
  map (tierOf 30 e4Move None) [-2; -1; 4 # 10; 12 # 10; 25 # 10; 5; 51 # 10]%Q
  = [BRILLIANT; GREAT; BEST; GOOD; INACCURACY; MISTAKE; BLUNDER].
Proof. reflexivity. Qed.

(** [bestmove] lines and their move token *)
Example bestmove_token :
  Js.secondToken "bestmove e2e4 ponder e7e5" = Some "e2e4"
  /\ Js.secondToken "bestmove" = None.
Proof. split; reflexivity. Qed.

(** the fool's mate through both loops, with the sample oracle *)
Example fools_mate_analysis :
  option_map (map cls)
    (@analyzeFullGame sampleRules nat sampleOracle 12 foolsMateFens
       foolsMateSans foolsMateSquares 0%nat)
  = Some [GOOD; BEST; GOOD; BRILLIANT]
  /\ progress nat (@evaluateGame sampleRules nat sampleOracle 12 foolsMateFens 0%nat)
     = [(0, 5); (1, 5); (2, 5); (3, 5); (4, 5)]%nat.
Proof. split; reflexivity. Qed.

(** ** The centipawn loss (C4) *)

Section ClassifierFacts.
Context `{Rules}.

Lemma mateCollapsed_mate (e : eval) :
  isMate e = true -> mateCollapsed e = 100%Q \/ mateCollapsed e = (-100)%Q.
Proof.
  intros Hm. unfold mateCollapsed. rewrite Hm.
  destruct (Qltb 0 (score e)); [left | right]; reflexivity.
Qed.

Lemma mateCollapsed_plain (e : eval) :
  isMate e = false -> mateCollapsed e = score e.
Proof. intros Hm. unfold mateCollapsed. now rewrite Hm. Qed.

Lemma classifyMove_cpLoss m fb fa san before after best mv sans squares :
  cpLoss (classifyMove m fb fa san before after best mv sans squares)
  = cpLossOf (isWhite mv) (mateCollapsed before) (mateCollapsed after).
Proof. reflexivity. Qed.

Lemma classifyMove_cls m fb fa san before after best mv sans squares :
  cls (classifyMove m fb fa san before after best mv sans squares)
  = tierOf m mv best
      (cpLoss (classifyMove m fb fa san before after best mv sans squares)).
Proof. reflexivity. Qed.


(** ** The tier cascade (C1, C5) *)

Lemma matchesEngineBest_true (mv : square_move) :
  from mv +:+ to mv <> "" ->
  matchesEngineBest mv (Some (from mv +:+ to mv)) = true.
Proof.
  intros Hne. unfold matchesEngineBest, Js.truthy.
  rewrite String.eqb_refl, andb_true_r.
  apply negb_true_iff, String.eqb_neq, Hne.
Qed.

Lemma tierOf_engine_best (m : nat) (mv : square_move) (best : option string) (loss : Q) :
  matchesEngineBest mv best = true ->
  (bookRule m loss /\ tierOf m mv best loss = BOOK)
  \/ (~ bookRule m loss
      /\ ((loss <= -2 /\ tierOf m mv best loss = BRILLIANT)
          \/ (-2 < loss /\ loss <= -1 /\ tierOf m mv best loss = GREAT)
          \/ (-1 < loss /\ tierOf m mv best loss = BEST)))%Q.
Proof.
  intros Hm. unfold tierOf, bookRule. rewrite Hm.
  destruct (m <? BOOK_MOVES)%nat eqn:Em.
  - apply Nat.ltb_lt in Em. cbn [andb].
    destruct (Qltb (Qabs loss) (5 # 10)) eqn:Ea.
    + apply Qltb_lt in Ea. left. auto.
    + apply Qltb_ge in Ea. right. split; [intros [_ Hlt]; lra |].
      qcases; [left | right; left | right; right]; repeat split; trivial; lra.
  - apply Nat.ltb_ge in Em. cbn [andb]. right. split; [intros [Hlt _]; lia |].
    qcases; [left | right; left | right; right]; repeat split; trivial; lra.
Qed.

(** C1, as the code has it. For every half-move whose played move's
    from+to text equals the engine-best move recorded for the pre-move
    position: when the Book rule applies (index below 6 and |cpLoss| < 0.5)
    the tier is Book; otherwise it is Brilliant if cpLoss <= -2, Great if
    -2 < cpLoss <= -1 and Best if -1 < cpLoss. In every case the tier is
    none of Good, Inaccuracy, Mistake, Blunder. *)
Theorem engine_best_never_blamed
    m fb fa san before after (best : option string) mv sans squares :
  let c := classifyMove m fb fa san before after best mv sans squares in
  from mv +:+ to mv <> "" ->
  best = Some (from mv +:+ to mv) ->
  ((bookRule m (cpLoss c) /\ cls c = BOOK)
   \/ (~ bookRule m (cpLoss c)
       /\ ((cpLoss c <= -2 /\ cls c = BRILLIANT)
           \/ (-2 < cpLoss c /\ cpLoss c <= -1 /\ cls c = GREAT)
           \/ (-1 < cpLoss c /\ cls c = BEST))))%Q
  /\ cls c ∉ [GOOD; INACCURACY; MISTAKE; BLUNDER].
Proof.
  intros c Hne ->. subst c. rewrite classifyMove_cls.
  set (loss := cpLoss _).
  pose proof (tierOf_engine_best m mv _ loss (matchesEngineBest_true mv Hne)) as Ht.
  split; [exact Ht |].
  rewrite !elem_of_cons, elem_of_nil.
  destruct Ht as [[_ ->] | [_ [[_ ->] | [(_ & _ & ->) | [_ ->]]]]];
    intuition discriminate.
Qed.

Lemma tierOf_monotone_no_book (m : nat) (mv : square_move) (best : option string)
    (x y : Q) :
  (x < y)%Q -> ~ bookRule m x ->
  (desirability (tierOf m mv best y) <= desirability (tierOf m mv best x))%nat.
Proof.
  intros Hxy Hnb. unfold tierOf.
  assert (Hx : ((m <? BOOK_MOVES)%nat && Qltb (Qabs x) (5 # 10)) = false).
  { apply not_true_iff_false. rewrite andb_true_iff, Nat.ltb_lt, Qltb_lt.
    exact Hnb. }
  rewrite Hx.
  destruct ((m <? BOOK_MOVES)%nat && Qltb (Qabs y) (5 # 10)) eqn:Hy.
  - apply andb_true_iff in Hy. destruct Hy as [Hm Hy].
    rewrite Hm in Hx. cbn [andb] in Hx.
    apply Qltb_lt, Qabs_lt_half in Hy. apply Qltb_ge in Hx.
    assert (Hxl : (x <= -(5 # 10))%Q).
    { destruct (Qlt_le_dec x 0) as [Hn | Hp].
      - rewrite Qabs_neg in Hx by lra. lra.
      - rewrite Qabs_pos in Hx by lra. lra. }
    destruct (matchesEngineBest mv best); qcases; cbn; try lia; lra.
  - destruct (matchesEngineBest mv best); qcases; cbn; try lia; lra.
Qed.

(** C5, as the code has it. For fixed half-move index, move record and
    engine-best move, and any two evaluation pairs whose cpLoss values are
    x < y: provided the Book rule does not apply at x (index >= 6 or
    |x| >= 0.5), the tier assigned at x is never worse than the tier
    assigned at y in the order Brilliant > Great > Best > Good > Book >
    Inaccuracy > Mistake > Blunder. *)
Theorem tier_monotone_outside_book
    m fb fa san best mv sans squares
    (before1 after1 before2 after2 : eval) :
  let c1 := classifyMove m fb fa san before1 after1 best mv sans squares in
  let c2 := classifyMove m fb fa san before2 after2 best mv sans squares in
  (cpLoss c1 < cpLoss c2)%Q ->
  ~ bookRule m (cpLoss c1) ->
  (desirability (cls c2) <= desirability (cls c1))%nat.
Proof.
  intros c1 c2 Hlt Hnb. subst c1 c2. rewrite !classifyMove_cls.
  apply tierOf_monotone_no_book; assumption.
Qed.

End ClassifierFacts.

(** *** Worked examples for the cascade *)


(** C1 fails as stated: 1. e4 is the engine's own choice, the evaluation
    does not move, and the move is tiered Book. *)
Lemma engine_best_counterexample :
  from e4Move +:+ to e4Move = "e2e4"
  /\ engineBest (@classifyMove sampleRules 0 startFen afterE4Fen "e4"
                   (plainEval (2 # 10)) (plainEval (2 # 10)) (Some "e2e4")
                   e4Move ["e4"] [e4Move]) = Some "e2e4"
  /\ cls (@classifyMove sampleRules 0 startFen afterE4Fen "e4"
            (plainEval (2 # 10)) (plainEval (2 # 10)) (Some "e2e4")
            e4Move ["e4"] [e4Move]) = BOOK
  /\ BOOK ∉ [BEST; GREAT; BRILLIANT].
Proof.
  repeat split; try reflexivity.
  rewrite !elem_of_cons, elem_of_nil. intuition discriminate.
Qed.

(** the engine's choice Nf3 at half-move 10 drops the evaluation by 3 and
    is still tiered Best *)
Lemma engine_best_never_blamed_witness :
  from nf3Move +:+ to nf3Move <> ""
  /\ cls (@classifyMove sampleRules 10 middleFen middleFenBlack "Nf3"
            (plainEval 3) (plainEval 0) (Some "g1f3") nf3Move [] []) = BEST
  /\ cls (@classifyMove sampleRules 10 middleFen middleFenBlack "Nf3"
            (plainEval 3) (plainEval 0) (Some "g1f3") nf3Move [] [])
     ∉ [GOOD; INACCURACY; MISTAKE; BLUNDER].
Proof.
  assert (Hne : from nf3Move +:+ to nf3Move <> "") by discriminate.
  split; [exact Hne |].
  split; [reflexivity |].
  exact (proj2 (@engine_best_never_blamed sampleRules 10 middleFen middleFenBlack
                  "Nf3" (plainEval 3) (plainEval 0) (Some "g1f3") nf3Move [] []
                  Hne eq_refl)).
Defined.

(** C5 fails as stated: at half-move 0 a loss of 0 is tiered Book and the
    larger loss 0.6 is tiered Good, which the order ranks above Book. *)
Lemma tier_monotone_counterexample :
  (cpLoss (@classifyMove sampleRules 0 startFen afterE4Fen "e4"
             (plainEval (2 # 10)) (plainEval (2 # 10)) None e4Move ["e4"] [e4Move])
   < cpLoss (@classifyMove sampleRules 0 startFen afterE4Fen "e4"
               (plainEval (2 # 10)) (plainEval (-(4 # 10))) None e4Move ["e4"] [e4Move]))%Q
  /\ cls (@classifyMove sampleRules 0 startFen afterE4Fen "e4"
            (plainEval (2 # 10)) (plainEval (2 # 10)) None e4Move ["e4"] [e4Move]) = BOOK
  /\ cls (@classifyMove sampleRules 0 startFen afterE4Fen "e4"
            (plainEval (2 # 10)) (plainEval (-(4 # 10))) None e4Move ["e4"] [e4Move]) = GOOD
  /\ (desirability BOOK < desirability GOOD)%nat.
Proof.
  repeat split; try reflexivity. cbn. lia.
Qed.

(** at half-move 10 the losses 0.3 and 1.5 are tiered Best and Inaccuracy *)
Lemma tier_monotone_outside_book_witness :
  (cpLoss (@classifyMove sampleRules 10 middleFen middleFenBlack "Nf3"
             (plainEval (5 # 10)) (plainEval (2 # 10)) None nf3Move [] [])
   < cpLoss (@classifyMove sampleRules 10 middleFen middleFenBlack "Nf3"
               (plainEval (5 # 10)) (plainEval (-1)) None nf3Move [] []))%Q
  /\ ~ bookRule 10 (cpLoss (@classifyMove sampleRules 10 middleFen middleFenBlack "Nf3"
             (plainEval (5 # 10)) (plainEval (2 # 10)) None nf3Move [] []))
  /\ (desirability
        (cls (@classifyMove sampleRules 10 middleFen middleFenBlack "Nf3"
                (plainEval (5 # 10)) (plainEval (-1)) None nf3Move [] []))
      <= desirability
           (cls (@classifyMove sampleRules 10 middleFen middleFenBlack "Nf3"
                   (plainEval (5 # 10)) (plainEval (2 # 10)) None nf3Move [] [])))%nat.
Proof.
  assert (Hlt : (cpLoss (@classifyMove sampleRules 10 middleFen middleFenBlack "Nf3"
             (plainEval (5 # 10)) (plainEval (2 # 10)) None nf3Move [] [])
   < cpLoss (@classifyMove sampleRules 10 middleFen middleFenBlack "Nf3"
               (plainEval (5 # 10)) (plainEval (-1)) None nf3Move [] []))%Q)
    by reflexivity.
  assert (Hnb : ~ bookRule 10 (cpLoss (@classifyMove sampleRules 10 middleFen
             middleFenBlack "Nf3" (plainEval (5 # 10)) (plainEval (2 # 10)) None
             nf3Move [] [])))
    by (intros [Hm _]; unfold BOOK_MOVES in Hm; lia).
  split; [exact Hlt |]. split; [exact Hnb |].
  exact (@tier_monotone_outside_book sampleRules 10 middleFen middleFenBlack "Nf3"
           None nf3Move [] [] (plainEval (5 # 10)) (plainEval (2 # 10))
           (plainEval (5 # 10)) (plainEval (-1)) Hlt Hnb).
Defined.

(** ** Material balance and the tags that read it (C10, C6) *)

Lemma balanceLoop_shift (pieces : string) (bal : Z) :
  balanceLoop pieces bal = (bal + balanceLoop pieces 0)%Z.
Proof.
  revert bal. induction pieces as [| c rest IH]; intros bal; cbn [balanceLoop].
  - lia.
  - rewrite IH. rewrite (IH (match vals c with Some v => 0 + v | None => 0 end)%Z).
    destruct (vals c); lia.
Qed.

Lemma balanceLoop_app (s1 s2 : string) (bal : Z) :
  balanceLoop (s1 +:+ s2) bal = balanceLoop s2 (balanceLoop s1 bal).
Proof.
  revert bal. induction s1 as [| c rest IH]; intros bal; cbn; [reflexivity |].
  apply IH.
Qed.

(** one character adds its table value, which is the weighted difference
    of the ten indicator terms *)
Lemma vals_indicator (c : ascii) :
  match vals c with Some v => v | None => 0%Z end
  = materialSum (String c EmptyString).
Proof.
  destruct c as [[] [] [] [] [] [] [] []]; reflexivity.
Qed.

Lemma occurrences_cons (c a : ascii) (rest : string) :
  occurrences c (String a rest)
  = (occurrences c (String a EmptyString) + occurrences c rest)%Z.
Proof. cbn. lia. Qed.

Lemma materialSum_cons (a : ascii) (rest : string) :
  materialSum (String a rest)
  = (materialSum (String a EmptyString) + materialSum rest)%Z.
Proof.
  unfold materialSum.
  rewrite !(occurrences_cons _ a rest). lia.
Qed.

Lemma balanceLoop_materialSum (pieces : string) :
  balanceLoop pieces 0 = materialSum pieces.
Proof.
  induction pieces as [| c rest IH]; [reflexivity |].
  cbn [balanceLoop]. rewrite balanceLoop_shift, IH, materialSum_cons.
  rewrite <- vals_indicator. destruct (vals c); lia.
Qed.

Lemma elem_of_when (x t : tag) (b : bool) : x ∈ when b t <-> b = true /\ x = t.
Proof.
  unfold when. destruct b.
  - rewrite list_elem_of_singleton. intuition.
  - rewrite elem_of_nil. intuition discriminate.
Qed.

Lemma not_elem_of_when (x t : tag) (b : bool) : x <> t -> x ∈ when b t <-> False.
Proof. rewrite elem_of_when. tauto. Qed.

Lemma materialTags_spec (d : Z) (x : tag) :
  x ∈ materialTags d
  <-> (x = hanging_piece /\ (d <= -3)%Z) \/ (x = lost_material /\ (-3 < d < 0)%Z).
Proof.
  unfold materialTags.
  destruct (d <=? -3)%Z eqn:E3; [apply Z.leb_le in E3 | apply Z.leb_gt in E3].
  - rewrite list_elem_of_singleton. intuition lia.
  - destruct (d <? 0)%Z eqn:E0; [apply Z.ltb_lt in E0 | apply Z.ltb_ge in E0].
    + rewrite list_elem_of_singleton. intuition lia.
    + rewrite elem_of_nil. intuition lia.
Qed.

Lemma redundantTags_only m ph mv squares (x : tag) :
  x <> redundant_move -> x ∈ redundantTags m ph mv squares <-> False.
Proof.
  intros Hx. unfold redundantTags.
  destruct ((2 <=? m)%nat && bool_decide (ph = opening)); [| apply elem_of_nil].
  destruct (squares !! (m - 2)%nat); [| apply elem_of_nil].
  now apply not_elem_of_when.
Qed.

Lemma tradeTags_spec (w : bool) (san : string) (sb : Q) (d : Z) (x : tag) :
  x ∈ tradeTags w san sb d
  <-> d = 0%Z /\ Js.includes san "x" = true
      /\ x = (if (w && Qltb sb (-300)) || (negb w && Qltb 300 sb)
              then bad_trade else allowed_trade).
Proof.
  unfold tradeTags.
  destruct (Z.abs d =? 0)%Z eqn:Ed; [apply Z.eqb_eq in Ed | apply Z.eqb_neq in Ed];
    cbn [andb].
  - destruct (Js.includes san "x").
    + destruct ((w && Qltb sb (-300)) || (negb w && Qltb 300 sb));
        rewrite list_elem_of_singleton; intuition lia.
    + rewrite elem_of_nil. intuition discriminate.
  - rewrite elem_of_nil. intuition lia.
Qed.

Section TagFacts.
Context `{Rules}.

Lemma kickTags_only (fa : string) (after : eval) (mv : square_move) (x : tag) :
  x <> kicks_piece -> x ∈ kickTags fa after mv <-> False.
Proof.
  intros Hx. unfold kickTags.
  destruct (nextBestOf after); [| apply elem_of_nil].
  destruct (get fa _); [| apply elem_of_nil].
  now apply not_elem_of_when.
Qed.

(** the tags of a move that only the material delta or the trade test can
    push: where they come from *)
Lemma tags_material_or_trade m fb fa san before after best mv sans squares (x : tag) :
  x ∈ [hanging_piece; lost_material; bad_trade; allowed_trade] ->
  let c := classifyMove m fb fa san before after best mv sans squares in
  let d := matDiffOf (isWhite mv) (matBefore c) (matAfter c) in
  x ∈ tags c
  <-> (12 # 10 < cpLoss c)%Q
      /\ (x ∈ materialTags d \/ x ∈ tradeTags (isWhite mv) san (evalBefore c) d).
Proof.
  intros Hx c d. subst c d.
  cbn [tags cpLoss evalBefore matBefore matAfter classifyMove].
  set (loss := cpLossOf _ _ _).
  assert (Hne : x <> is_check /\ x <> is_capture /\ x <> is_castling
                /\ x <> missed_mate /\ x <> missed_tactic /\ x <> weakened_king
                /\ x <> ignored_threat /\ x <> missed_fork /\ x <> missed_castling
                /\ x <> early_queen /\ x <> knight_on_rim /\ x <> edge_pawn_push
                /\ x <> redundant_move /\ x <> kicks_piece).
  { rewrite !elem_of_cons, elem_of_nil in Hx.
    destruct Hx as [-> | [-> | [-> | [-> | []]]]]; repeat split; discriminate. }
  destruct Hne as (? & ? & ? & ? & ? & ? & ? & ? & ? & ? & ? & ? & ? & ?).
  rewrite !elem_of_app.
  rewrite !not_elem_of_when by assumption.
  destruct (Qltb (12 # 10) loss) eqn:El;
    [apply Qltb_lt in El | apply Qltb_ge in El].
  - unfold blameTags. rewrite !elem_of_app.
    rewrite !not_elem_of_when by assumption.
    rewrite redundantTags_only by assumption.
    tauto.
  - destruct (bool_decide (piece_of mv = Pawn)).
    + rewrite kickTags_only by assumption.
      split; [tauto | intros [Hl _]; lra].
    + rewrite elem_of_nil. split; [tauto | intros [Hl _]; lra].
Qed.

End TagFacts.

Section MaterialFacts.
Context `{Rules}.

Lemma getMaterialBalance_materialSum (fen : string) :
  getMaterialBalance fen = materialSum (Js.firstToken fen).
Proof. apply balanceLoop_materialSum. Qed.

Lemma matDiffOf_moverDelta (mv : square_move) (fb fa : string) :
  matDiffOf (isWhite mv) (getMaterialBalance fb) (getMaterialBalance fa)
  = moverDelta (color_of mv) fb fa.
Proof.
  unfold matDiffOf, moverDelta, isWhite.
  rewrite !getMaterialBalance_materialSum.
  destruct (color_of mv); reflexivity.
Qed.


(** what the trade test of the code decides: with cpLoss > 1.2, an
    unchanged balance and a capture, bad_trade is pushed exactly when the
    score before the move is beyond 300 against the mover, and
    allowed_trade otherwise *)
Lemma trade_tag_threshold_in_code m fb fa san before after best mv sans squares :
  let c := classifyMove m fb fa san before after best mv sans squares in
  (12 # 10 < cpLoss c)%Q ->
  moverDelta (color_of mv) fb fa = 0%Z ->
  Js.includes san "x" = true ->
  (bad_trade ∈ tags c
   <-> match color_of mv with
       | White => (evalBefore c < -300)%Q
       | Black => (300 < evalBefore c)%Q
       end)
  /\ (allowed_trade ∈ tags c <-> bad_trade ∉ tags c).
Proof.
  intros c Hl Hd Hx. subst c.
  rewrite !tags_material_or_trade by (rewrite !elem_of_cons; tauto).
  cbn [matBefore matAfter evalBefore cpLoss classifyMove] in *.
  rewrite (matDiffOf_moverDelta mv fb fa), Hd.
  rewrite !materialTags_spec, !tradeTags_spec.
  unfold isWhite in *. destruct (color_of mv);
    [change (bool_decide (White = White)) with true in *
    | change (bool_decide (Black = White)) with false in *];
    cbn [andb orb negb]; rewrite ?orb_false_r.
  - destruct (Qltb (mateCollapsed before) (-300)) eqn:E;
      [apply Qltb_lt in E | apply Qltb_ge in E];
      split; split; intros; intuition (try discriminate; try lia; try lra).
  - destruct (Qltb 300 (mateCollapsed before)) eqn:E;
      [apply Qltb_lt in E | apply Qltb_ge in E];
      split; split; intros; intuition (try discriminate; try lia; try lra).
Qed.

End MaterialFacts.


(** ** The timeline (C9, C7) *)

Section TimelineFacts.
Context {G : Type} `{Logic.ChessGame G}.

Lemma reset_fens (l : Logic.t G) :
  Logic.fens (Logic.reset l) = [Logic.g_fen (Logic.g_reset (Logic.game l))]
  /\ Logic.sans (Logic.reset l) = []
  /\ Logic.squares (Logic.reset l) = []
  /\ Logic.classifications (Logic.reset l) = []
  /\ Logic.idx (Logic.reset l) = 0%Z.
Proof. repeat split. Qed.

Lemma replay_length (moves : list Logic.vmove) (l : Logic.t G) :
  length (Logic.fens (fold_left Logic.replay moves l))
  = (length (Logic.fens l) + length moves)%nat
  /\ length (Logic.sans (fold_left Logic.replay moves l))
     = (length (Logic.sans l) + length moves)%nat
  /\ length (Logic.squares (fold_left Logic.replay moves l))
     = (length (Logic.squares l) + length moves)%nat.
Proof.
  revert l. induction moves as [| mv rest IH]; intros l; cbn [fold_left].
  - cbn. lia.
  - destruct (IH (Logic.replay l mv)) as (Hf & Hs & Hq).
    rewrite Hf, Hs, Hq. cbn. rewrite !length_app. cbn. lia.
Qed.

Lemma cursor_ok_create : cursor_ok Logic.create.
Proof. split; cbn; [discriminate | lia]. Qed.

Lemma cursor_ok_reset (l : Logic.t G) : cursor_ok (Logic.reset l).
Proof. split; cbn; [discriminate | lia]. Qed.

Lemma cursor_ok_loadPGN (pgn : string) (l : Logic.t G) :
  cursor_ok (snd (Logic.loadPGN pgn l)).
Proof.
  unfold Logic.loadPGN.
  destruct (Logic.g_load_pgn pgn (Logic.game (Logic.reset l))) as [ok g].
  destruct ok; cbn [negb snd].
  - set (l2 := Logic.reset _).
    destruct (replay_length (Logic.g_history g) l2) as (Hf & _).
    split; cbn [Logic.fens Logic.idx].
    + intros E. rewrite E in Hf. cbn in Hf. lia.
    + rewrite Hf. cbn. lia.
  - split; cbn; [discriminate | lia].
Qed.

Lemma cursor_ok_apply (l : Logic.t G) (o : Logic.op) :
  cursor_ok l -> cursor_ok (Logic.apply l o).
Proof.
  intros [Hne Hidx]. destruct o; cbn [Logic.apply].
  - apply cursor_ok_reset.
  - apply cursor_ok_loadPGN.
  - split; cbn; [exact Hne | lia].
  - split; cbn; [exact Hne |].
    destruct (Logic.fens l); [contradiction | cbn; lia].
  - unfold Logic.goNext.
    destruct (Logic.idx l <? Z.of_nat (length (Logic.fens l)) - 1)%Z eqn:E.
    + apply Z.ltb_lt in E. split; cbn; [exact Hne | lia].
    + split; assumption.
  - unfold Logic.goPrev. destruct (0 <? Logic.idx l)%Z eqn:E.
    + apply Z.ltb_lt in E. split; cbn; [exact Hne | lia].
    + split; assumption.
  - unfold Logic.goTo.
    destruct ((0 <=? i)%Z && (i <? Z.of_nat (length (Logic.fens l)))%Z) eqn:E.
    + apply andb_true_iff in E. destruct E as [E1 E2].
      apply Z.leb_le in E1. apply Z.ltb_lt in E2.
      split; cbn; [exact Hne | lia].
    + split; assumption.
Qed.

Lemma cursor_ok_run (ops : list Logic.op) (l : Logic.t G) :
  cursor_ok l -> cursor_ok (Logic.run ops l).
Proof.
  revert l. induction ops as [| o rest IH]; intros l Hl; cbn; [exact Hl |].
  apply IH, cursor_ok_apply, Hl.
Qed.

(** C9. After any sequence of the public operations reset, loadPGN,
    goStart, goEnd, goNext, goPrev and goTo (with any integer) on a freshly
    constructed ChessLogic, the position list is non-empty and the cursor
    lies in [0, len(positions) - 1]. *)
Theorem cursor_stays_in_range (ops : list Logic.op) :
  Logic.fens (Logic.run ops Logic.create) <> []
  /\ (0 <= Logic.idx (Logic.run ops Logic.create)
      <= Z.of_nat (length (Logic.fens (Logic.run ops Logic.create))) - 1)%Z.
Proof. apply cursor_ok_run, cursor_ok_create. Qed.

(** C7, as the code has it. If the transcript does not parse, loadPGN
    answers false and leaves the timeline reset: the position list holds
    only the start position of the reset game, the move-record lists and
    the classification list are empty, and the cursor is 0. *)
Theorem loadPGN_failure_resets (pgn : string) (l : Logic.t G) :
  fst (Logic.g_load_pgn pgn (Logic.g_reset (Logic.game l))) = false ->
  fst (Logic.loadPGN pgn l) = false
  /\ Logic.fens (snd (Logic.loadPGN pgn l))
     = [Logic.g_fen (Logic.g_reset (Logic.game l))]
  /\ Logic.sans (snd (Logic.loadPGN pgn l)) = []
  /\ Logic.squares (snd (Logic.loadPGN pgn l)) = []
  /\ Logic.classifications (snd (Logic.loadPGN pgn l)) = []
  /\ Logic.idx (snd (Logic.loadPGN pgn l)) = 0%Z.
Proof.
  intros Hfail. unfold Logic.loadPGN.
  change (Logic.game (Logic.reset l)) with (Logic.g_reset (Logic.game l)).
  destruct (Logic.g_load_pgn pgn (Logic.g_reset (Logic.game l))) as [ok g].
  cbn in Hfail. subst ok. cbn. repeat split.
Qed.

End TimelineFacts.

(** C7 fails as stated: with 1. e4 e5 loaded (three positions, cursor 2),
    loading a transcript that breaks off at an impossible move answers
    false and leaves one position, no moves and cursor 0. *)
Lemma loadPGN_failure_counterexample :
  Logic.fens loadedTimeline = [startFen; afterE4Fen; afterE4E5Fen]
  /\ Logic.sans loadedTimeline = ["e4"; "e5"]
  /\ Logic.idx loadedTimeline = 2%Z
  /\ fst (Logic.loadPGN "1. e4 Qh9" loadedTimeline) = false
  /\ Logic.fens (snd (Logic.loadPGN "1. e4 Qh9" loadedTimeline)) = [startFen]
  /\ Logic.sans (snd (Logic.loadPGN "1. e4 Qh9" loadedTimeline)) = []
  /\ Logic.idx (snd (Logic.loadPGN "1. e4 Qh9" loadedTimeline)) = 0%Z
  /\ Logic.fens (snd (Logic.loadPGN "1. e4 Qh9" loadedTimeline))
     <> Logic.fens loadedTimeline.
Proof.
  repeat split; try reflexivity. discriminate.
Qed.

Lemma loadPGN_failure_resets_witness :
  fst (Logic.g_load_pgn "1. e4 Qh9" (Logic.g_reset (Logic.game loadedTimeline))) = false
  /\ fst (Logic.loadPGN "1. e4 Qh9" loadedTimeline) = false
  /\ Logic.fens (snd (Logic.loadPGN "1. e4 Qh9" loadedTimeline)) = [startFen].
Proof.
  pose proof (loadPGN_failure_resets "1. e4 Qh9" loadedTimeline eq_refl) as W.
  split; [reflexivity |]. split; [apply W | apply W].
Defined.

(** ** The evaluation loop (C3) *)

Section AnalyzerFacts.
Context `{Rules}.
Variable Oracle : Type.
Variable evalAsync : string -> Z -> Oracle -> Engine.result * Oracle.

#[local] Abbreviation iteration := (evaluateAt Oracle evalAsync).
#[local] Abbreviation loop := (evaluateLoop Oracle evalAsync).
#[local] Abbreviation firstHalf := (evaluateGame Oracle evalAsync).

(** one iteration appends one evaluation and one best move *)
Lemma evaluateAt_appends d total a i fen :
  exists (e : eval) (b : option string),
    evals Oracle (iteration d total a i fen) = evals Oracle a ++ [e]
    /\ bestMoves Oracle (iteration d total a i fen) = bestMoves Oracle a ++ [b]
    /\ (game_over fen = true ->
        e = terminalEval fen /\ b = None
        /\ asked Oracle (iteration d total a i fen) = asked Oracle a)
    /\ (game_over fen = false ->
        asked Oracle (iteration d total a i fen) = asked Oracle a ++ [i]).
Proof.
  unfold evaluateAt. destruct (game_over fen) eqn:Eg.
  - eexists _, _. cbn. repeat split; discriminate.
  - destruct (evalAsync fen d (session Oracle a)) as [result o].
    eexists _, _. cbn. repeat split; discriminate.
Qed.

(** later iterations leave the entries already pushed in place *)
Lemma evaluateLoop_keeps d total rest :
  forall i a k,
    (k < length (evals Oracle a))%nat ->
    (k < length (bestMoves Oracle a))%nat ->
    evals Oracle (loop d total i rest a) !! k = evals Oracle a !! k
    /\ bestMoves Oracle (loop d total i rest a) !! k
       = bestMoves Oracle a !! k.
Proof.
  induction rest as [| fen rest IH]; intros i a k He Hb; cbn; [auto |].
  destruct (evaluateAt_appends d total a i fen) as (e & b & Ee & Eb & _).
  destruct (IH (S i) (iteration d total a i fen) k) as [IHe IHb].
  - rewrite Ee, length_app. lia.
  - rewrite Eb, length_app. lia.
  - rewrite IHe, IHb, Ee, Eb.
    rewrite !lookup_app_l by assumption. auto.
Qed.

(** a terminal position gets its synthesized entry at its own index *)
Lemma evaluateLoop_terminal d total rest :
  forall i a j fen,
    length (evals Oracle a) = i ->
    length (bestMoves Oracle a) = i ->
    rest !! j = Some fen ->
    game_over fen = true ->
    evals Oracle (loop d total i rest a) !! (i + j)%nat
    = Some (terminalEval fen)
    /\ bestMoves Oracle (loop d total i rest a) !! (i + j)%nat
       = Some None.
Proof.
  induction rest as [| f rest IH]; intros i a j fen He Hb Hj Hg;
    [discriminate |].
  cbn [evaluateLoop].
  destruct (evaluateAt_appends d total a i f) as (e & b & Ee & Eb & Ht & _).
  destruct j as [| j]; cbn in Hj.
  - injection Hj as ->. destruct (Ht Hg) as (-> & -> & _).
    rewrite Nat.add_0_r.
    destruct (evaluateLoop_keeps d total rest (S i) (iteration d total a i fen) i)
      as [Ke Kb].
    + rewrite Ee, length_app. cbn. lia.
    + rewrite Eb, length_app. cbn. lia.
    + rewrite Ke, Kb, Ee, Eb.
      rewrite !lookup_app_r by lia.
      rewrite He, Hb, Nat.sub_diag. auto.
  - replace (i + S j)%nat with (S i + j)%nat by lia.
    apply IH; trivial.
    + rewrite Ee, length_app. cbn. lia.
    + rewrite Eb, length_app. cbn. lia.
Qed.

(** the oracle is asked only for positions that are not terminal *)
Lemma evaluateLoop_asked d total rest :
  forall i a k,
    k ∈ asked Oracle (loop d total i rest a) ->
    k ∈ asked Oracle a
    \/ exists j fen, k = (i + j)%nat /\ rest !! j = Some fen
                     /\ game_over fen = false.
Proof.
  induction rest as [| f rest IH]; intros i a k Hk; cbn in Hk; [auto |].
  destruct (evaluateAt_appends d total a i f) as (e & b & _ & _ & Ht & Hn).
  destruct (IH _ _ _ Hk) as [Hin | (j & fen & -> & Hj & Hg)].
  - destruct (game_over f) eqn:Eg.
    + destruct (Ht eq_refl) as (_ & _ & Ea). rewrite Ea in Hin. auto.
    + rewrite (Hn eq_refl), elem_of_app, list_elem_of_singleton in Hin.
      destruct Hin as [Hin | ->]; [auto |].
      right. exists 0%nat, f. rewrite Nat.add_0_r. auto.
  - right. exists (S j), fen. repeat split; trivial. lia.
Qed.

(** C3. For every position of the timeline that the rules collaborator
    reports as terminal, the analyzer pushes a synthesized evaluation and
    does not ask the oracle: for a checkmated side to move isMate is true
    and the White-perspective score is -100 when White is to move (is
    mated) and +100 otherwise; for any other terminal position the score
    is 0 and isMate is false; in both cases the recorded best move is
    null. (Checkmate is a terminal status of the collaborator.) *)
Theorem terminal_positions_synthesized d (fens : list string) (o : Oracle)
    (i : nat) (fen : string) :
  (forall f, in_checkmate f = true -> game_over f = true) ->
  fens !! i = Some fen ->
  in_checkmate fen = true \/ game_over fen = true ->
  evals Oracle (firstHalf d fens o) !! i
  = Some {| score := if in_checkmate fen
                     then (match turn fen with White => -100 | Black => 100 end)
                     else 0;
            isMate := in_checkmate fen;
            raw := 0;
            pv := None |}
  /\ bestMoves Oracle (firstHalf d fens o) !! i = Some None
  /\ i ∉ asked Oracle (firstHalf d fens o).
Proof.
  intros Hcontract Hi Hterm.
  assert (Hg : game_over fen = true) by (destruct Hterm; auto).
  unfold evaluateGame.
  destruct (evaluateLoop_terminal d (length fens) fens 0
              {| evals := []; bestMoves := []; session := o;
                 asked := []; progress := [] |} i fen eq_refl eq_refl Hi Hg)
    as [He Hb].
  cbn [Nat.add] in He, Hb. rewrite He, Hb.
  repeat split.
  - f_equal. unfold terminalEval.
    destruct (in_checkmate fen); [| reflexivity].
    destruct (turn fen); reflexivity.
  - intros Hin. apply evaluateLoop_asked in Hin.
    destruct Hin as [Hin | (j & f & -> & Hj & Hf)].
    + cbn in Hin. now apply elem_of_nil in Hin.
    + cbn [Nat.add] in Hi. rewrite Hi in Hj. injection Hj as <-.
      rewrite Hg in Hf. discriminate.
Qed.

End AnalyzerFacts.

(** the fool's mate: the final position, White mated, is evaluated as
    -100 with the mate flag, and the oracle served the four others *)
Lemma terminal_positions_synthesized_witness :
  (forall f, @in_checkmate sampleRules f = true -> @game_over sampleRules f = true)
  /\ foolsMateFens !! 4%nat = Some foolsMateFen
  /\ evals nat (@evaluateGame sampleRules nat sampleOracle 12 foolsMateFens 0%nat) !! 4%nat
     = Some {| score := -100; isMate := true; raw := 0; pv := None |}
  /\ asked nat (@evaluateGame sampleRules nat sampleOracle 12 foolsMateFens 0%nat)
     = [0; 1; 2; 3]%nat.
Proof.
  assert (Hc : forall f, @in_checkmate sampleRules f = true
                         -> @game_over sampleRules f = true).
  { intros f Hf. cbn in *. rewrite Hf. reflexivity. }
  split; [exact Hc |]. split; [reflexivity |].
  split; [| reflexivity].
  exact (proj1 (@terminal_positions_synthesized sampleRules nat sampleOracle 12
                  foolsMateFens 0%nat 4%nat foolsMateFen Hc eq_refl
                  (or_introl eq_refl))).
Defined.

(** ** The engine session (C2, C8) *)

Section SessionFacts.
Variable matchInfo : string -> Engine.info_match.

#[local] Abbreviation step := (Session.step matchInfo).
#[local] Abbreviation run := (Session.run matchInfo).

Lemma find_id_Forall {A} (P : A -> Prop) (id : nat) (l : list (nat * A)) (a : A) :
  Forall (fun x => P (snd x)) l -> Session.find_id id l = Some a -> P a.
Proof.
  intros Hall. unfold Session.find_id.
  destruct (filter _ l) as [| x rest] eqn:E; [discriminate |].
  intros [= <-].
  assert (Hx : x ∈ filter (fun x : nat * A => (x.1 =? id)%nat) l)
    by (rewrite E; left).
  apply list_elem_of_filter in Hx. destruct Hx as [_ Hx].
  rewrite Forall_forall in Hall. exact (Hall x Hx).
Qed.

Lemma Forall_filter_keep {A} (P : A -> Prop) (Q : A -> Prop)
    `{forall x, Decision (Q x)} (l : list A) :
  Forall P l -> Forall P (filter Q l).
Proof.
  rewrite !Forall_forall. intros Hall x Hx.
  apply list_elem_of_filter in Hx. apply Hall, Hx.
Qed.

Lemma silent_boot (hasOnUpdate started loads : bool) :
  started && loads = false -> silent (Session.boot hasOnUpdate started loads).
Proof.
  intros Hs. destruct started, loads; try discriminate; cbn;
    repeat split; repeat constructor; eexists; reflexivity.
Qed.

Lemma silent_step (s : Session.sys) (ev : Session.event) :
  silent s -> silent (step s ev).
Proof.
  destruct s as [e n ts ivs w ch lg].
  destruct e as [u rdy wkr bm pv sc dp im rs td ias et].
  intros (Hr & Hrs & Hw & Hch & Hts & Hlg). cbn in *. subst rdy rs ch.
  destruct ev; cbn.
  - (* evaluate *)
    destruct wkr; cbn; repeat split; trivial.
  - (* evalAsync *)
    cbn. repeat split; trivial.
  - (* stop *)
    destruct wkr; cbn; [| repeat split; trivial].
    destruct w as [w |]; cbn; [| repeat split; trivial].
    unfold Session.deliver_post, Session.react; cbn. rewrite Hw. cbn.
    repeat split; trivial.
  - (* setOption *)
    destruct wkr; cbn; [| repeat split; trivial].
    destruct w as [w |]; cbn; [| repeat split; trivial].
    unfold Session.deliver_post, Session.react; cbn. rewrite Hw. cbn.
    repeat split; trivial.
  - (* a delivery: nothing is queued *)
    repeat split; trivial.
  - (* a timer *)
    destruct (Session.find_id id ts) as [[cb o] |] eqn:F;
      [| repeat split; trivial].
    assert (Hcb : cb = Engine.CbUci).
    { exact (find_id_Forall (fun a => fst a = Engine.CbUci) id ts (cb, o) Hts F). }
    subst cb. cbn.
    destruct wkr; cbn.
    + destruct w as [w |]; cbn.
      * unfold Session.deliver_post, Session.react; cbn. rewrite Hw. cbn.
        repeat split; trivial. now apply Forall_filter_keep.
      * unfold Session.deliver_post; cbn.
        repeat split; trivial. now apply Forall_filter_keep.
    + repeat split; trivial. now apply Forall_filter_keep.
  - (* a poll tick *)
    destruct (Session.find_id id ivs) as [cb |]; cbn; repeat split; trivial.
  - (* worker progress *)
    destruct w as [w |]; [| repeat split; trivial].
    rewrite Hw. repeat split; trivial.
  - (* worker done *)
    destruct w as [w |]; [| repeat split; trivial].
    rewrite Hw. repeat split; trivial.
  - (* worker error event *)
    repeat split; trivial.
    apply Forall_app. split; [exact Hlg |].
    repeat constructor. eexists. reflexivity.
Qed.

Lemma silent_run (evs : list Session.event) (s : Session.sys) :
  silent s -> silent (run evs s).
Proof.
  revert s. induction evs as [| ev rest IH]; intros s Hs; cbn; [exact Hs |].
  apply IH, silent_step, Hs.
Qed.

Lemma resolved_only_console (l : list Session.entry) :
  Forall onlyConsoleError l -> Session.resolved l = [].
Proof.
  induction 1 as [| x l [t ->] _ IH]; [reflexivity |]. exact IH.
Qed.

(** C8, as the code has it. If the oracle fails to start (the worker
    constructor throws, or the worker never comes to life), then after any
    sequence of calls, timer and poll ticks and worker errors: the session
    is not ready, everything the page has observed is a console error (no
    exception, no live update), and no promise of evalAsync has been
    resolved. *)
Theorem failed_start_only_logged (hasOnUpdate started loads : bool)
    (evs : list Session.event) :
  started && loads = false ->
  Engine.ready (Session.eng (run evs (Session.boot hasOnUpdate started loads))) = false
  /\ Forall onlyConsoleError
       (Session.log (run evs (Session.boot hasOnUpdate started loads)))
  /\ Session.resolved
       (Session.log (run evs (Session.boot hasOnUpdate started loads))) = [].
Proof.
  intros Hs.
  destruct (silent_run evs _ (silent_boot hasOnUpdate started loads Hs))
    as (Hr & _ & _ & _ & _ & Hlg).
  repeat split; trivial. now apply resolved_only_console.
Qed.

(** C2, the code at a failing input. A live evaluation (request 1) is
    searching when evalAsync is called (request 2, promise 2). Its [stop]
    makes the worker end search 1 with [bestmove e2e4]; [_onMessage]
    resolves promise 2 with that line, while the search of request 2
    itself is still running. *)
Theorem stale_bestmove_resolves_newer_request :
  Session.log (run supersededSearch (Session.boot true true true))
  = [Session.Console false "Stockfish engine ready.";
     Session.Resolved 2
       {| Engine.depth := 0; Engine.score := Some 0%Q; Engine.isMate := false;
          Engine.bestMove := Some "e2e4"; Engine.pv := None |}
       (Session.Signal (Session.Request 1))]
  /\ Session.wk (run supersededSearch (Session.boot true true true))
     = Some {| Session.alive := true;
               Session.searching := Some (Session.Request 2);
               Session.wbest := "(none)" |}
  /\ Session.Request 1 <> Session.Request 2.
Proof.
  repeat split; try reflexivity. discriminate.
Qed.

(** the same without any live evaluation: request 1 is resolved by its
    safety timeout, whose [stop] makes the worker end search 1; the caller
    awaits the next position (promise 3), which the late [bestmove] of
    search 1 resolves *)
Lemma stale_bestmove_after_timeout :
  Session.log (run timedOutSearch (Session.boot true true true))
  = [Session.Console false "Stockfish engine ready.";
     Session.Resolved 1
       {| Engine.depth := 0; Engine.score := Some 0%Q; Engine.isMate := false;
          Engine.bestMove := None; Engine.pv := None |}
       (Session.Timer (Session.Request 1));
     Session.Resolved 3
       {| Engine.depth := 0; Engine.score := Some 0%Q; Engine.isMate := false;
          Engine.bestMove := Some "e2e4"; Engine.pv := None |}
       (Session.Signal (Session.Request 1))].
Proof. reflexivity. Qed.

End SessionFacts.

(** C8 fails as stated: the worker constructor threw, the page asks for a
    live and an awaited evaluation and lets the poll tick three times; all
    it can observe is the console error of the constructor, the live
    request left no trace, and the promise is still polling. *)
Lemma failed_start_counterexample :
  Session.log (Session.run noMatch askAfterFailedStart (Session.boot true false false))
  = [Session.Console true "Could not create Stockfish worker:"]
  /\ Session.resolved
       (Session.log (Session.run noMatch askAfterFailedStart (Session.boot true false false))) = []
  /\ Session.intervals (Session.run noMatch askAfterFailedStart (Session.boot true false false))
     = [(3%nat, Engine.CbPollAsync 2 startFen 12)]
  /\ Session.log (Session.step noMatch (Session.boot true false false)
                    (Session.CallEvaluate startFen 14))
     = Session.log (Session.boot true false false)
  /\ Session.intervals (Session.step noMatch (Session.boot true false false)
                          (Session.CallEvaluate startFen 14)) = []
  /\ Session.timeouts (Session.step noMatch (Session.boot true false false)
                         (Session.CallEvaluate startFen 14)) = [].
Proof.
  repeat split; reflexivity.
Qed.


(** the worker constructor threw: whatever the page then does, it sees
    console errors only and the promise of evalAsync stays unresolved *)
Lemma failed_start_only_logged_witness :
  false && false = false
  /\ Forall onlyConsoleError
       (Session.log (Session.run noMatch askAfterFailedStart (Session.boot true false false)))
  /\ Session.resolved
       (Session.log (Session.run noMatch askAfterFailedStart (Session.boot true false false))) = [].
Proof.
  split; [reflexivity |].
  exact (proj2 (failed_start_only_logged noMatch true false false askAfterFailedStart
                  eq_refl)).
Defined.

(** ** Every promise is resolved at most once

    The half of C2 that the code keeps: whatever the page, the timers and
    the worker do, no promise of [evalAsync] is resolved twice. *)

Section AtMostOnce.
Variable matchInfo : string -> Engine.info_match.

Lemma resolved_app (l k : list Session.entry) :
  Session.resolved (l ++ k) = Session.resolved l ++ Session.resolved k.
Proof. apply omap_app. Qed.

Lemma facet_absorb_quiet who why (s : Session.sys) (x : Engine.effect) :
  quiet x -> facet (Session.absorb who why s x) = facet s.
Proof.
  destruct x; cbn; try contradiction; intros _; unfold facet; cbn;
    rewrite ?resolved_app, ?app_nil_r; try reflexivity.
  unfold Session.deliver_post. destruct (Session.wk s) as [w |]; [| reflexivity].
  destruct (Session.react who msg w). reflexivity.
Qed.

Lemma facet_fold_quiet who why (effs : list Engine.effect) (s : Session.sys) :
  Forall quiet effs ->
  facet (fold_left (Session.absorb who why) effs s) = facet s.
Proof.
  revert s. induction effs as [| x rest IH]; intros s Hq; [reflexivity |].
  inversion Hq as [| ? ? Hx Hrest]; subst. cbn [fold_left].
  rewrite IH by assumption. now apply facet_absorb_quiet.
Qed.

Lemma quiet_post (e : Engine.t) (msgs : list string) :
  Forall quiet (Engine.post e msgs).
Proof.
  unfold Engine.post. destruct (Engine.worker e).
  - induction msgs; cbn; constructor; cbn; auto.
  - repeat constructor.
Qed.

Lemma NoDup_shrink {A} (l k : list A) : l ⊆+ k -> NoDup k -> NoDup l.
Proof.
  intros Hsub Hk. apply submseteq_sublist_l in Hsub.
  destruct Hsub as (m & Hlm & Hmk).
  apply (sublist_NoDup _ m); [| exact Hlm]. now rewrite Hmk.
Qed.

(** weakening and shrinking the book *)
Lemma accountedFor_sub rs ivs done n rs' ivs' n' :
  accountedFor (rs, ivs, done, n) ->
  pending rs' ivs' ⊆+ pending rs ivs ->
  (n <= n')%nat ->
  accountedFor (rs', ivs', done, n').
Proof.
  intros [Hnd Hlt] Hsub Hn. cbn.
  assert (Hs : done ++ pending rs' ivs' ⊆+ done ++ pending rs ivs)
    by (apply submseteq_app; [reflexivity | exact Hsub]).
  split.
  - eapply NoDup_shrink; eassumption.
  - rewrite Forall_forall in *. intros p Hp.
    specialize (Hlt p (elem_of_submseteq _ _ _ Hp Hs)). lia.
Qed.

Lemma omap_filter_sublist {A B} (f : A -> option B) (P : A -> Prop)
    `{forall x, Decision (P x)} (l : list A) :
  omap f (filter P l) `sublist_of` omap f l.
Proof.
  induction l as [| a l IH]; [constructor |].
  rewrite filter_cons. destruct (decide (P a)); cbn [omap list_omap].
  - destruct (f a); [now constructor | exact IH].
  - destruct (f a); [now constructor | exact IH].
Qed.

Lemma pending_drop rs ivs : pending None ivs ⊆+ pending rs ivs.
Proof.
  unfold pending. destruct rs; cbn; [now apply submseteq_cons | reflexivity].
Qed.

(** a fresh promise enters the book, in [_resolveEval] or in a poll *)
Lemma accountedFor_fresh_resolve rs ivs done n :
  accountedFor (rs, ivs, done, n) ->
  accountedFor (Some n, ivs, done, S (S n)).
Proof.
  intros Hacc.
  assert (Hn : accountedFor (None, ivs, done, n))
    by (eapply accountedFor_sub; [exact Hacc | apply pending_drop | lia]).
  destruct Hn as [Hnd Hlt]. unfold pending in *. cbn in *.
  split.
  - apply NoDup_app in Hnd. destruct Hnd as (Hd & Hdisj & Hp).
    apply NoDup_app. split; [exact Hd |]. split.
    + intros x Hx Hin. apply elem_of_cons in Hin. destruct Hin as [-> | Hin].
      * rewrite Forall_forall in Hlt.
        specialize (Hlt n). rewrite elem_of_app in Hlt.
        specialize (Hlt (or_introl Hx)). lia.
      * exact (Hdisj x Hx Hin).
    + constructor; [| exact Hp].
      intros Hin. rewrite Forall_forall in Hlt.
      specialize (Hlt n). rewrite elem_of_app in Hlt.
      specialize (Hlt (or_intror Hin)). lia.
  - rewrite Forall_app in *. destruct Hlt as [Hl1 Hl2]. split.
    + eapply Forall_impl; [exact Hl1 | cbn; intros; lia].
    + constructor; [lia |]. eapply Forall_impl; [exact Hl2 | cbn; intros; lia].
Qed.

Lemma accountedFor_fresh_poll rs ivs done n fen d :
  accountedFor (rs, ivs, done, n) ->
  accountedFor (rs, ivs ++ [(S n, Engine.CbPollAsync n fen d)], done, S (S n)).
Proof.
  intros [Hnd Hlt]. unfold accountedFor, pending in *.
  rewrite omap_app. cbn. rewrite !app_assoc.
  rewrite !app_assoc in Hnd, Hlt.
  split.
  - apply NoDup_app. split; [exact Hnd |]. split.
    + intros x Hx Hin. apply list_elem_of_singleton in Hin. subst x.
      rewrite Forall_forall in Hlt. specialize (Hlt n Hx). lia.
    + apply NoDup_singleton.
  - apply Forall_app. split.
    + eapply Forall_impl; [exact Hlt | cbn; intros; lia].
    + repeat constructor.
Qed.

(** the promise in [_resolveEval] is resolved and leaves it *)
Lemma accountedFor_settle p ivs done n :
  accountedFor (Some p, ivs, done, n) ->
  accountedFor (None, ivs, done ++ [p], n).
Proof.
  unfold accountedFor, pending. cbn. rewrite <- !app_assoc. cbn. auto.
Qed.

Lemma settles_perform who why (e' : Engine.t) (effs : list Engine.effect)
    (s : Session.sys) :
  accountedFor (facet s) ->
  settles (Engine._resolveEval (Session.eng s)) (Engine._resolveEval e') effs ->
  accountedFor (facet (Session.perform who why (e', effs) s)).
Proof.
  intros Hacc Hset. unfold Session.perform. cbn [fst snd].
  inversion Hset as [rs' effs' Hq Hrs | p r q Hrs Hq Hnone]; subst.
  - rewrite facet_fold_quiet by assumption. unfold facet in *. cbn.
    eapply accountedFor_sub; [exact Hacc | | lia].
    destruct Hrs as [-> | ->]; [reflexivity | apply pending_drop].
  - rewrite fold_left_app. cbn [fold_left Session.absorb].
    set (s1 := fold_left _ q _).
    assert (H1 : facet s1 = facet (Session.with_eng e' s))
      by (apply facet_fold_quiet; assumption).
    unfold facet in *. cbn in *. rewrite resolved_app. cbn.
    injection H1 as -> -> -> ->. rewrite <- Hnone.
    apply accountedFor_settle. rewrite <- Hrs. exact Hacc.
Qed.

Lemma settles_onBestmove (line : string) (e : Engine.t) :
  settles (Engine._resolveEval e)
    (Engine._resolveEval (fst (Engine.onBestmove line e)))
    (snd (Engine.onBestmove line e)).
Proof.
  unfold Engine.onBestmove.
  set (e1 := if _ && _ then _ else e).
  assert (He1 : Engine._resolveEval e1 = Engine._resolveEval e)
    by (subst e1; destruct (_ && _); reflexivity).
  rewrite <- He1.
  destruct (Engine._isAsyncSearch e1).
  - destruct (Engine._resolveEval e1) as [p |] eqn:Ers; cbn.
    + apply (settles_resolve _ p); [reflexivity |].
      destruct (Engine._evalTimeout e1); repeat constructor.
    + rewrite Ers. apply settles_quiet; [constructor | auto].
  - cbn. apply settles_quiet; [constructor | auto].
Qed.

Lemma quiet_onInfo (line : string) (e : Engine.t) :
  Engine._resolveEval (snd (fst (Engine.onInfo matchInfo line e)))
  = Engine._resolveEval e
  /\ Forall quiet (snd (Engine.onInfo matchInfo line e)).
Proof.
  unfold Engine.onInfo.
  destruct (Engine.depthMatch _); [| cbn; auto].
  destruct (Engine.cpMatch _); cbn.
  - split; [reflexivity |]. destruct (Engine.onUpdate e); repeat constructor.
  - destruct (Engine.mateMatch _); cbn; [| auto].
    split; [reflexivity |]. destruct (Engine.onUpdate e); repeat constructor.
Qed.

Lemma settles_onMessage (data : option string) (e : Engine.t) :
  settles (Engine._resolveEval e)
    (Engine._resolveEval (fst (Engine.onMessage matchInfo data e)))
    (snd (Engine.onMessage matchInfo data e)).
Proof.
  unfold Engine.onMessage. destruct data as [line |];
    [| apply settles_quiet; [constructor | auto]].
  destruct (String.eqb line "uciok" && negb (Engine.worker e));
    [apply settles_quiet; [repeat constructor | auto] |].
  set (o1 := if String.eqb line "uciok" then _ else _).
  set (o2 := if String.eqb line "readyok" then [_] else _).
  set (e2 := if String.eqb line "readyok" then _ else e).
  assert (Ho1 : Forall quiet o1)
    by (subst o1; destruct (String.eqb line "uciok"); repeat constructor).
  assert (Ho2 : Forall quiet o2)
    by (subst o2; destruct (String.eqb line "readyok"); repeat constructor).
  assert (He2 : Engine._resolveEval e2 = Engine._resolveEval e)
    by (subst e2; destruct (String.eqb line "readyok"); reflexivity).
  destruct (Js.startsWith line "info" && Js.includes line " score ").
  - destruct (quiet_onInfo line e2) as [Hrs Hq].
    destruct (Engine.onInfo matchInfo line e2) as [[returned e3] o3].
    cbn [fst snd] in Hrs, Hq.
    destruct returned.
    + cbn. apply settles_quiet; [| left; congruence].
      rewrite !Forall_app. auto.
    + destruct (Js.startsWith line "bestmove").
      * pose proof (settles_onBestmove line e3) as Hb.
        destruct (Engine.onBestmove line e3) as [e4 o4]. cbn [fst snd] in *.
        rewrite Hrs, He2 in Hb.
        inversion Hb as [rs' effs' Hq4 Hrs4 | p r q Hp Hq4 Hnone]; subst.
        -- apply settles_quiet; [rewrite !Forall_app; auto | exact Hrs4].
        -- rewrite !app_assoc.
           apply (settles_resolve _ p); [exact Hp |].
           rewrite !Forall_app. auto.
      * cbn. apply settles_quiet; [| left; congruence].
        rewrite !Forall_app. auto.
  - destruct (Js.startsWith line "bestmove").
    + pose proof (settles_onBestmove line e2) as Hb.
      destruct (Engine.onBestmove line e2) as [e4 o4]. cbn [fst snd] in *.
      rewrite He2 in Hb.
      inversion Hb as [rs' effs' Hq4 Hrs4 | p r q Hp Hq4 Hnone]; subst.
      * apply settles_quiet; [rewrite !Forall_app; repeat split; auto | exact Hrs4].
      * rewrite !app_assoc.
        apply (settles_resolve _ p); [exact Hp |].
        rewrite !Forall_app. repeat split; auto.
    + cbn. apply settles_quiet; [| left; congruence].
      rewrite !Forall_app. repeat split; auto.
Qed.

Lemma settles_onTimeout (cb : Engine.timeout_cb) (e : Engine.t) :
  settles (Engine._resolveEval e)
    (Engine._resolveEval (fst (Engine.onTimeout cb e)))
    (snd (Engine.onTimeout cb e)).
Proof.
  destruct cb; cbn.
  - apply settles_quiet; [destruct (Engine.worker e); repeat constructor | auto].
  - unfold Engine.onEvalTimeout.
    destruct (Engine._resolveEval e) as [p |] eqn:Ers; cbn.
    + destruct (Engine.worker e).
      * apply (settles_resolve _ p _ [Engine.Post "stop"]);
          [reflexivity | repeat constructor].
      * apply settles_quiet; [repeat constructor | auto].
    + rewrite ?Ers. apply settles_quiet; [constructor | auto].
Qed.

(** a readiness poll of [evalAsync] fires: its promise moves from the
    poll's closure into [_resolveEval], and the poll is cleared *)
Lemma accountedFor_poll_fires rs ivs done n id p fen d :
  accountedFor (rs, ivs, done, n) ->
  Session.find_id id ivs = Some (Engine.CbPollAsync p fen d) ->
  accountedFor
    (Some p, filter (fun x : nat * Engine.interval_cb => negb (fst x =? id)%nat) ivs,
     done, S n).
Proof.
  intros Hacc Hfind. unfold Session.find_id in Hfind.
  destruct (filter _ ivs) as [| x rest] eqn:E; [discriminate |].
  injection Hfind as Hx.
  assert (Hin : x ∈ filter (fun x : nat * Engine.interval_cb => (x.1 =? id)%nat) ivs)
    by (rewrite E; left).
  apply list_elem_of_filter in Hin. destruct Hin as [Hid Hin].
  apply list_elem_of_split in Hin. destruct Hin as (l1 & l2 & ->).
  eapply accountedFor_sub; [exact Hacc | | lia].
  unfold pending. rewrite filter_app, filter_cons_False, !omap_app
    by (destruct (x.1 =? id)%nat; [intros [] | destruct Hid]).
  assert (Hp : pollPromise x = Some p) by (unfold pollPromise; now rewrite Hx).
  cbn [omap list_omap option_list app]. rewrite Hp.
  apply submseteq_inserts_l.
  rewrite <- Permutation_middle. apply submseteq_skip.
  apply submseteq_app; apply sublist_submseteq, omap_filter_sublist.
Qed.

Lemma accountedFor_boot (hasOnUpdate started loads : bool) :
  accountedFor (facet (Session.boot hasOnUpdate started loads)).
Proof.
  destruct started; cbn; split; constructor.
Qed.

Lemma accountedFor_later rs ivs done n :
  accountedFor (rs, ivs, done, n) -> accountedFor (rs, ivs, done, S n).
Proof. intros Hacc. eapply accountedFor_sub; [exact Hacc | reflexivity | lia]. Qed.

Lemma accountedFor_step (s : Session.sys) (ev : Session.event) :
  accountedFor (facet s) -> accountedFor (facet (Session.step matchInfo s ev)).
Proof.
  intros Hacc. destruct ev; cbn [Session.step].
  - (* evaluate *)
    unfold Engine.evaluate.
    destruct (Engine.worker (Session.eng s)); cbn [negb].
    + destruct (Engine.ready (Session.eng s)); cbn [negb].
      * apply settles_perform; [now apply accountedFor_later |].
        apply settles_quiet; [apply quiet_post | auto].
      * unfold facet in *. cbn. unfold pending. rewrite omap_app. cbn.
        rewrite app_nil_r. now apply accountedFor_later.
    + apply settles_perform; [now apply accountedFor_later |].
      apply settles_quiet; [constructor | auto].
  - (* evalAsync *)
    unfold Engine.evalAsync.
    destruct (Engine.ready (Session.eng s)); cbn [negb].
    + unfold Engine.waitReady, Session.perform. cbn [fst snd fold_left].
      rewrite facet_fold_quiet by apply quiet_post.
      unfold facet in *. cbn. eapply accountedFor_fresh_resolve. exact Hacc.
    + unfold facet in *. cbn. now apply accountedFor_fresh_poll.
  - (* stop *)
    apply settles_perform; [exact Hacc |].
    apply settles_quiet; [| auto].
    destruct (Engine.worker (Session.eng s)); repeat constructor.
  - (* setOption *)
    apply settles_perform; [exact Hacc |].
    apply settles_quiet; [| auto].
    destruct (Engine.worker (Session.eng s)); repeat constructor.
  - (* a delivery *)
    destruct (Session.channel s) as [| [o line] rest]; [exact Hacc |].
    pose proof (settles_onMessage (Some line) (Session.eng s)) as Hset.
    destruct (Engine.onMessage matchInfo (Some line) (Session.eng s)) as [e' effs].
    apply settles_perform; [exact Hacc | exact Hset].
  - (* a timer *)
    destruct (Session.find_id id (Session.timeouts s)) as [[cb o] |];
      [| exact Hacc].
    pose proof (settles_onTimeout cb (Session.eng s)) as Hset.
    destruct (Engine.onTimeout cb (Session.eng s)) as [e' effs].
    apply settles_perform; [exact Hacc | exact Hset].
  - (* a poll tick *)
    destruct (Session.find_id id (Session.intervals s)) as [cb |] eqn:F;
      [| exact Hacc].
    unfold Engine.onInterval.
    destruct (Engine.ready (Session.eng s)).
    + destruct cb as [fen d | p fen d].
      * unfold Engine._doEval, Session.perform. cbn [fst snd fold_left].
        rewrite facet_fold_quiet by apply quiet_post.
        unfold facet in *. cbn.
        eapply accountedFor_sub; [exact Hacc | | lia].
        unfold pending. apply submseteq_app; [reflexivity |].
        apply sublist_submseteq, omap_filter_sublist.
      * unfold Engine.waitReady, Session.perform. cbn [fst snd fold_left].
        rewrite facet_fold_quiet by apply quiet_post.
        unfold facet in *. cbn.
        eapply accountedFor_poll_fires; eassumption.
    + apply settles_perform; [now apply accountedFor_later |].
      apply settles_quiet; [constructor | auto].
  - (* worker progress *)
    destruct (Session.wk s) as [w |]; [| exact Hacc].
    destruct (Session.alive w), (Session.searching w); exact Hacc.
  - (* worker done *)
    destruct (Session.wk s) as [w |]; [| exact Hacc].
    destruct (Session.alive w), (Session.searching w); exact Hacc.
  - (* worker error *)
    apply settles_perform; [exact Hacc |].
    apply settles_quiet; [repeat constructor | auto].
Qed.

Lemma accountedFor_run (evs : list Session.event) (s : Session.sys) :
  accountedFor (facet s) -> accountedFor (facet (Session.run matchInfo evs s)).
Proof.
  revert s. induction evs as [| ev rest IH]; intros s Hs; cbn; [exact Hs |].
  apply IH, accountedFor_step, Hs.
Qed.

(** X1: whatever happens to a session after the page created it, the
    promises it has resolved are pairwise distinct, and none of them is
    still installed in [_resolveEval] or waiting in a readiness poll *)
Theorem promise_resolved_at_most_once (hasOnUpdate started loads : bool)
    (evs : list Session.event) :
  NoDup (Session.resolved
           (Session.log (Session.run matchInfo evs
                           (Session.boot hasOnUpdate started loads))))
  /\ (forall p,
        p ∈ Session.resolved
              (Session.log (Session.run matchInfo evs
                              (Session.boot hasOnUpdate started loads))) ->
        Engine._resolveEval
          (Session.eng (Session.run matchInfo evs
                          (Session.boot hasOnUpdate started loads))) <> Some p).
Proof.
  pose proof (accountedFor_run evs _ (accountedFor_boot hasOnUpdate started loads))
    as [Hnd _].
  unfold facet in Hnd. apply NoDup_app in Hnd. destruct Hnd as (Hd & Hdisj & _).
  split; [exact Hd |].
  intros p Hp Hrs. apply (Hdisj p Hp).
  unfold pending. rewrite Hrs. cbn. left.
Qed.

End AtMostOnce.

(** * Properties beyond the claims *)

(** ** The evaluation loop as a whole *)

Section AnalyzerShape.
Context `{Rules}.
Variable Oracle : Type.
Variable evalAsync : string -> Z -> Oracle -> Engine.result * Oracle.

#[local] Abbreviation pass := (evaluateLoop Oracle evalAsync).
#[local] Abbreviation firstLoop := (evaluateGame Oracle evalAsync).

Lemma evaluateLoop_shape d total rest :
  forall i a,
    length (evals Oracle (pass d total i rest a))
    = (length (evals Oracle a) + length rest)%nat
    /\ length (bestMoves Oracle (pass d total i rest a))
       = (length (bestMoves Oracle a) + length rest)%nat
    /\ progress Oracle (pass d total i rest a)
       = progress Oracle a ++ map (fun k => (k, total)) (seq i (length rest))
    /\ asked Oracle (pass d total i rest a)
       = asked Oracle a ++ openIndices i rest.
Proof.
  induction rest as [| fen rest IH]; intros i a; cbn [evaluateLoop].
  - cbn. rewrite !app_nil_r. repeat split; lia.
  - destruct (IH (S i) (evaluateAt Oracle evalAsync d total a i fen))
      as (He & Hb & Hp & Ha).
    rewrite He, Hb, Hp, Ha. clear IH He Hb Hp Ha.
    unfold evaluateAt. cbn [openIndices length seq map].
    destruct (game_over fen).
    + cbn. rewrite !length_app, <- !app_assoc. cbn. repeat split; lia.
    + destruct (evalAsync fen d (session Oracle a)) as [result o].
      cbn. rewrite !length_app, <- !app_assoc. cbn. repeat split; lia.
Qed.

Lemma elem_of_openIndices (k i : nat) (rest : list string) :
  k ∈ openIndices i rest
  <-> exists j fen, k = (i + j)%nat /\ rest !! j = Some fen
                    /\ game_over fen = false.
Proof.
  revert i. induction rest as [| f rest IH]; intros i; cbn [openIndices].
  - rewrite elem_of_nil. split; [tauto |]. now intros (j & fen & _ & ? & _).
  - rewrite elem_of_app, IH. split.
    + intros [Hk | (j & fen & -> & Hj & Hg)].
      * destruct (game_over f) eqn:Eg; [now apply elem_of_nil in Hk |].
        apply list_elem_of_singleton in Hk. subst k.
        exists 0%nat, f. rewrite Nat.add_0_r. auto.
      * exists (S j), fen. repeat split; trivial. lia.
    + intros (j & fen & -> & Hj & Hg). destruct j as [| j]; cbn in Hj.
      * injection Hj as ->. rewrite Hg. left.
        rewrite Nat.add_0_r. apply list_elem_of_singleton. reflexivity.
      * right. exists j, fen. repeat split; trivial. lia.
Qed.

Lemma firstLoop_shape d (fens : list string) (o : Oracle) :
  length (evals Oracle (firstLoop d fens o)) = length fens
  /\ length (bestMoves Oracle (firstLoop d fens o)) = length fens
  /\ progress Oracle (firstLoop d fens o)
     = map (fun k => (k, length fens)) (seq 0 (length fens))
  /\ asked Oracle (firstLoop d fens o) = openIndices 0 fens.
Proof.
  unfold evaluateGame.
  destruct (evaluateLoop_shape d (length fens) fens 0
              {| evals := []; bestMoves := []; session := o;
                 asked := []; progress := [] |}) as (He & Hb & Hp & Ha).
  rewrite He, Hb, Hp, Ha. cbn. auto.
Qed.

(** X2: one evaluation and one best move per position, one progress call
    per position in index order with the position count as total, and the
    oracle asked exactly for the positions that are not terminal, in index
    order. *)
Theorem evaluateGame_shape d (fens : list string) (o : Oracle) :
  length (evals Oracle (firstLoop d fens o)) = length fens
  /\ length (bestMoves Oracle (firstLoop d fens o)) = length fens
  /\ progress Oracle (firstLoop d fens o)
     = map (fun k => (k, length fens)) (seq 0 (length fens))
  /\ asked Oracle (firstLoop d fens o) = openIndices 0 fens.
Proof.
  unfold evaluateGame.
  destruct (evaluateLoop_shape d (length fens) fens 0
              {| evals := []; bestMoves := []; session := o;
                 asked := []; progress := [] |}) as (He & Hb & Hp & Ha).
  rewrite He, Hb, Hp, Ha. cbn. auto.
Qed.

(** a position that is not terminal gets the normalized answer of the
    oracle, asked with that position and the target depth *)
Lemma evaluateLoop_open d total rest :
  forall i a j fen,
    length (evals Oracle a) = i ->
    length (bestMoves Oracle a) = i ->
    rest !! j = Some fen ->
    game_over fen = false ->
    exists o,
      evals Oracle (pass d total i rest a) !! (i + j)%nat
      = Some (normalizedEval fen (fst (evalAsync fen d o)))
      /\ bestMoves Oracle (pass d total i rest a) !! (i + j)%nat
         = Some (Engine.bestMove (fst (evalAsync fen d o))).
Proof.
  induction rest as [| f rest IH]; intros i a j fen He Hb Hj Hg;
    [discriminate |].
  cbn [evaluateLoop].
  destruct j as [| j]; cbn in Hj.
  - injection Hj as ->. exists (session Oracle a).
    rewrite Nat.add_0_r.
    destruct (evaluateLoop_keeps Oracle evalAsync d total rest (S i)
                (evaluateAt Oracle evalAsync d total a i fen) i) as [Ke Kb].
    + unfold evaluateAt. rewrite Hg.
      destruct (evalAsync fen d (session Oracle a)). cbn.
      rewrite length_app. cbn. lia.
    + unfold evaluateAt. rewrite Hg.
      destruct (evalAsync fen d (session Oracle a)). cbn.
      rewrite length_app. cbn. lia.
    + rewrite Ke, Kb. unfold evaluateAt. rewrite Hg.
      destruct (evalAsync fen d (session Oracle a)) as [result o']. cbn.
      rewrite !lookup_app_r by lia.
      rewrite He, Hb, Nat.sub_diag. auto.
  - replace (i + S j)%nat with (S i + j)%nat by lia.
    destruct (evaluateAt_appends Oracle evalAsync d total a i f)
      as (e & b & Ee & Eb & _).
    apply IH; trivial.
    + rewrite Ee, length_app. cbn. lia.
    + rewrite Eb, length_app. cbn. lia.
Qed.

(** X3: for a position that is not terminal, the entry of [evals] is the
    oracle's answer for that very position at the target depth, with the
    mate flag passed through, the score kept for White to move and negated
    for Black to move, and a line that is always a string; the best move
    recorded is the oracle's. *)
Theorem open_positions_normalized d (fens : list string) (o : Oracle)
    (i : nat) (fen : string) :
  fens !! i = Some fen ->
  game_over fen = false ->
  exists session e,
    let answer := fst (evalAsync fen d session) in
    evals Oracle (firstLoop d fens o) !! i = Some e
    /\ isMate e = Engine.isMate answer
    /\ raw e = number (Engine.score answer)
    /\ score e = match turn fen with White => raw e | Black => (- raw e)%Q end
    /\ is_Some (pv e)
    /\ bestMoves Oracle (firstLoop d fens o) !! i = Some (Engine.bestMove answer)
    /\ i ∈ asked Oracle (firstLoop d fens o).
Proof.
  intros Hi Hg.
  destruct (evaluateLoop_open d (length fens) fens 0
              {| evals := []; bestMoves := []; session := o;
                 asked := []; progress := [] |} i fen eq_refl eq_refl Hi Hg)
    as (s & He & Hb).
  exists s, (normalizedEval fen (fst (evalAsync fen d s))).
  cbn [Nat.add] in He, Hb. cbn zeta.
  split; [exact He |]. split; [reflexivity |]. split; [reflexivity |].
  split.
  { unfold normalizedEval. cbn [score raw].
    destruct (turn fen); reflexivity. }
  split.
  { unfold normalizedEval. cbn [pv].
    destruct (Engine.pv _) as [t |]; cbn [Js.truthy];
      [destruct (negb _) |]; eexists; reflexivity. }
  split; [exact Hb |].
  destruct (firstLoop_shape d fens o) as (_ & _ & _ & ->).
  apply elem_of_openIndices. exists i, fen. auto.
Qed.

End AnalyzerShape.

(** after 1. f3 it is Black to move: the sample oracle's +0.3 is recorded
    as -0.3 *)
Lemma open_positions_normalized_witness :
  foolsMateFens !! 1%nat
  = Some "rnbqkbnr/pppppppp/8/8/8/5P2/PPPPP1PP/RNBQKBNR b KQkq - 0 1"
  /\ @game_over sampleRules
       "rnbqkbnr/pppppppp/8/8/8/5P2/PPPPP1PP/RNBQKBNR b KQkq - 0 1" = false
  /\ exists session e,
       evals nat (@evaluateGame sampleRules nat sampleOracle 12 foolsMateFens 0%nat)
         !! 1%nat = Some e
       /\ isMate e = Engine.isMate
            (fst (sampleOracle
                    "rnbqkbnr/pppppppp/8/8/8/5P2/PPPPP1PP/RNBQKBNR b KQkq - 0 1"
                    12 session))
       /\ raw e = (3 # 10)%Q
       /\ score e = (- raw e)%Q.
Proof.
  split; [reflexivity |]. split; [reflexivity |].
  destruct (@open_positions_normalized sampleRules nat sampleOracle 12
              foolsMateFens 0%nat 1%nat
              "rnbqkbnr/pppppppp/8/8/8/5P2/PPPPP1PP/RNBQKBNR b KQkq - 0 1"
              eq_refl eq_refl) as (session & e & He & Hm & Hr & Hs & _).
  exists session, e. repeat split; assumption.
Defined.

(** ** The classification loop as a whole *)

Section ClassifierShape.
Context `{Rules}.

Lemma classifyAt_is_Some fens sans squares evals bestMoves (m : nat) :
  is_Some (classifyAt fens sans squares evals bestMoves m)
  <-> (S m < length evals /\ m < length squares
       /\ S m < length fens /\ m < length sans)%nat.
Proof.
  unfold classifyAt. split.
  - intros [c Hc].
    destruct (evals !! m) eqn:E1; [| discriminate]. cbn in Hc.
    destruct (evals !! S m) eqn:E2; [| discriminate]. cbn in Hc.
    destruct (squares !! m) eqn:E3; [| discriminate]. cbn in Hc.
    destruct (fens !! m) eqn:E4; [| discriminate]. cbn in Hc.
    destruct (fens !! S m) eqn:E5; [| discriminate]. cbn in Hc.
    destruct (sans !! m) eqn:E6; [| discriminate].
    apply lookup_lt_Some in E2, E3, E5, E6. auto.
  - intros (H1 & H2 & H3 & H4).
    destruct (lookup_lt_is_Some_2 evals m ltac:(lia)) as [? ->].
    destruct (lookup_lt_is_Some_2 evals (S m) H1) as [? ->].
    destruct (lookup_lt_is_Some_2 squares m H2) as [? ->].
    destruct (lookup_lt_is_Some_2 fens m ltac:(lia)) as [? ->].
    destruct (lookup_lt_is_Some_2 fens (S m) H3) as [? ->].
    destruct (lookup_lt_is_Some_2 sans m H4) as [? ->].
    cbn. eexists. reflexivity.
Qed.

Lemma classifyLoop_is_Some fens sans squares evals bestMoves :
  length evals = length fens ->
  is_Some (classifyLoop fens sans squares evals bestMoves)
  <-> sans = []
      \/ (length sans < length fens /\ length sans <= length squares)%nat.
Proof.
  intros Hlen. unfold classifyLoop.
  rewrite mapM_is_Some, Forall_forall.
  split.
  - intros Hall. destruct sans as [| s rest] eqn:Es; [auto | right].
    rewrite <- Es in *.
    assert (Hn : (length sans - 1)%nat ∈ seq 0 (length sans)).
    { apply elem_of_seq. rewrite Es. cbn. lia. }
    apply Hall in Hn. cbn in Hn. apply classifyAt_is_Some in Hn.
    rewrite Es in *. cbn in *. lia.
  - intros Hshape m Hm. apply elem_of_seq in Hm. cbn.
    apply classifyAt_is_Some.
    destruct Hshape as [-> | [Hf Hq]]; [cbn in Hm; lia | lia].
Qed.

End ClassifierShape.

Section AnalysisWhole.
Context `{Rules}.
Variable Oracle : Type.
Variable evalAsync : string -> Z -> Oracle -> Engine.result * Oracle.

#[local] Abbreviation analysis := (analyzeFullGame Oracle evalAsync).

(** X4: the analysis returns a classification list (rather than throwing
    in the second loop) exactly when there is no move at all, or there are
    more positions than moves and at least as many move records as moves. *)
Theorem analysis_defined_iff d (fens sans : list string)
    (squares : list square_move) (o : Oracle) :
  is_Some (analysis d fens sans squares o)
  <-> sans = []
      \/ (length sans < length fens /\ length sans <= length squares)%nat.
Proof.
  unfold analyzeFullGame. apply classifyLoop_is_Some.
  apply (firstLoop_shape Oracle evalAsync d fens o).
Qed.

(** X5: the classification list is index-aligned with the move list: it has
    one entry per SAN, and entry [m] carries the squares and piece of move
    record [m], the material balances of positions [m] and [m+1], and the
    phase of position [m] at index [m]. *)
Theorem analysis_aligned d (fens sans : list string)
    (squares : list square_move) (o : Oracle) (cs : list classification) :
  analysis d fens sans squares o = Some cs ->
  length cs = length sans
  /\ forall m c,
       cs !! m = Some c ->
       exists mv fenBefore fenAfter,
         squares !! m = Some mv
         /\ fens !! m = Some fenBefore
         /\ fens !! S m = Some fenAfter
         /\ cls_from c = from mv /\ cls_to c = to mv
         /\ cls_piece c = piece_of mv
         /\ matBefore c = getMaterialBalance fenBefore
         /\ matAfter c = getMaterialBalance fenAfter
         /\ cls_phase c = getGamePhase fenBefore m.
Proof.
  unfold analyzeFullGame, classifyLoop. intros Hcs.
  split.
  - apply length_mapM in Hcs. rewrite length_seq in Hcs. auto.
  - intros m c Hc. apply mapM_Some_1 in Hcs.
    destruct (Forall2_lookup_r _ _ _ _ _ Hcs Hc) as (x & Hx & Hat).
    apply lookup_seq in Hx. destruct Hx as [Hx _]. cbn in Hx. subst x.
    unfold classifyAt in Hat.
    destruct (evals Oracle _ !! m) as [before |]; [| discriminate]. cbn in Hat.
    destruct (evals Oracle _ !! S m) as [after |]; [| discriminate]. cbn in Hat.
    destruct (squares !! m) as [mv |]; [| discriminate]. cbn in Hat.
    destruct (fens !! m) as [fb |]; [| discriminate]. cbn in Hat.
    destruct (fens !! S m) as [fa |]; [| discriminate]. cbn in Hat.
    destruct (sans !! m) as [san |]; [| discriminate]. cbn in Hat.
    injection Hat as <-. exists mv, fb, fa. repeat split.
Qed.

End AnalysisWhole.

(** the fool's mate: four moves, four classifications, the last of them
    the queen's move d8-h4 *)
Lemma analysis_aligned_witness :
  exists cs,
    @analyzeFullGame sampleRules nat sampleOracle 12 foolsMateFens
      foolsMateSans foolsMateSquares 0%nat = Some cs
    /\ length cs = 4%nat
    /\ forall m c,
         cs !! m = Some c ->
         exists mv fenBefore fenAfter,
           foolsMateSquares !! m = Some mv
           /\ foolsMateFens !! m = Some fenBefore
           /\ foolsMateFens !! S m = Some fenAfter
           /\ cls_from c = from mv /\ cls_to c = to mv
           /\ cls_piece c = piece_of mv
           /\ matBefore c = getMaterialBalance fenBefore
           /\ matAfter c = getMaterialBalance fenAfter
           /\ cls_phase c = getGamePhase fenBefore m.
Proof.
  destruct (@analyzeFullGame sampleRules nat sampleOracle 12 foolsMateFens
              foolsMateSans foolsMateSquares 0%nat) as [cs |] eqn:E;
    [| vm_compute in E; discriminate].
  exists cs. split; [reflexivity |].
  exact (@analysis_aligned sampleRules nat sampleOracle 12 foolsMateFens
           foolsMateSans foolsMateSquares 0%nat cs E).
Defined.

(** ** Tiers and tags of one move *)

Lemma tierOf_book_iff (m : nat) (mv : square_move) (best : option string) (loss : Q) :
  tierOf m mv best loss = BOOK <-> bookRule m loss.
Proof.
  unfold tierOf, bookRule.
  destruct (m <? BOOK_MOVES)%nat eqn:Em;
    [apply Nat.ltb_lt in Em | apply Nat.ltb_ge in Em]; cbn [andb].
  - destruct (Qltb (Qabs loss) (5 # 10)) eqn:Ea;
      [apply Qltb_lt in Ea | apply Qltb_ge in Ea].
    + tauto.
    + split; [| intros [_ Hlt]; lra].
      destruct (matchesEngineBest mv best); qcases; discriminate.
  - split; [| intros [Hlt _]; lia].
    destruct (matchesEngineBest mv best); qcases; discriminate.
Qed.

Lemma tierOf_blamed (m : nat) (mv : square_move) (best : option string) (loss : Q) :
  tierOf m mv best loss ∈ [INACCURACY; MISTAKE; BLUNDER] ->
  (12 # 10 < loss)%Q /\ matchesEngineBest mv best = false.
Proof.
  rewrite !elem_of_cons, elem_of_nil. unfold tierOf.
  destruct ((m <? BOOK_MOVES)%nat && Qltb (Qabs loss) (5 # 10));
    [intuition discriminate |].
  destruct (matchesEngineBest mv best);
    qcases; intros Ht; try (intuition discriminate); split; trivial; lra.
Qed.

Lemma when_sublist (b : bool) (t : tag) : when b t `sublist_of` [t].
Proof. destruct b; cbn; [reflexivity | apply sublist_nil_l]. Qed.

Lemma materialTags_sublist (d : Z) :
  materialTags d `sublist_of` [hanging_piece; lost_material].
Proof.
  unfold materialTags. destruct (d <=? -3)%Z.
  - apply sublist_skip, sublist_nil_l.
  - destruct (d <? 0)%Z; [apply sublist_cons; reflexivity | apply sublist_nil_l].
Qed.

Lemma redundantTags_sublist m ph mv squares :
  redundantTags m ph mv squares `sublist_of` [redundant_move].
Proof.
  unfold redundantTags.
  destruct (_ && _); [| apply sublist_nil_l].
  destruct (squares !! _); [apply when_sublist | apply sublist_nil_l].
Qed.

Lemma tradeTags_sublist w san sb d :
  tradeTags w san sb d `sublist_of` [bad_trade; allowed_trade].
Proof.
  unfold tradeTags. destruct (_ && _); [| apply sublist_nil_l].
  destruct (_ || _); [apply sublist_skip, sublist_nil_l
                     | apply sublist_cons; reflexivity].
Qed.

(** decide a membership between closed terms *)
Ltac absurd_elem Hin :=
  solve [apply (bool_decide_pack _) in Hin; vm_compute in Hin; destruct Hin].

Lemma context_not_blame (t : tag) : t ∈ contextOrder -> t ∈ blameOrder -> False.
Proof.
  intros H1 H2. destruct t; first [absurd_elem H1 | absurd_elem H2].
Qed.

Lemma kicks_not_context : kicks_piece ∈ contextOrder -> False.
Proof. intros Hin. absurd_elem Hin. Qed.

Lemma kicks_not_blame : kicks_piece ∈ blameOrder -> False.
Proof. intros Hin. absurd_elem Hin. Qed.

Section TagOrder.
Context `{Rules}.

Lemma blameTags_sublist m fa san before after bestSan mv squares ph sb sa d :
  blameTags m fa san before after bestSan mv squares ph sb sa d
    `sublist_of` blameOrder.
Proof.
  unfold blameTags, blameOrder.
  change [hanging_piece; lost_material; missed_tactic; weakened_king;
          ignored_threat; missed_fork; missed_castling; early_queen;
          knight_on_rim; edge_pawn_push; redundant_move; bad_trade;
          allowed_trade]
    with ([hanging_piece; lost_material] ++ [missed_tactic] ++ [weakened_king]
          ++ [ignored_threat] ++ [missed_fork] ++ [missed_castling]
          ++ [early_queen] ++ [knight_on_rim] ++ [edge_pawn_push]
          ++ [redundant_move] ++ [bad_trade; allowed_trade]).
  repeat first
    [ apply tradeTags_sublist
    | apply sublist_app;
      [first [apply materialTags_sublist | apply when_sublist
             | apply redundantTags_sublist] |] ].
Qed.

Lemma kickTags_sublist fa after mv :
  kickTags fa after mv `sublist_of` [kicks_piece].
Proof.
  unfold kickTags. destruct (nextBestOf after); [| apply sublist_nil_l].
  destruct (get fa _); [apply when_sublist | apply sublist_nil_l].
Qed.

(** the shape of the tag list: the contextual tags, then the tags of
    exactly one of the two branches *)
Lemma tags_shape m fb fa san before after best mv sans squares :
  let c := classifyMove m fb fa san before after best mv sans squares in
  exists ctx rest,
    tags c = ctx ++ rest
    /\ ctx `sublist_of` contextOrder
    /\ ((12 # 10 < cpLoss c)%Q /\ rest `sublist_of` blameOrder
        /\ (forall t, t ∈ rest ->
              t ∈ materialTags (matDiffOf (isWhite mv) (matBefore c) (matAfter c))
              \/ t ∈ tradeTags (isWhite mv) san (evalBefore c)
                     (matDiffOf (isWhite mv) (matBefore c) (matAfter c))
              \/ t ∉ [hanging_piece; lost_material; bad_trade; allowed_trade])
        \/ (cpLoss c <= 12 # 10)%Q /\ rest `sublist_of` [kicks_piece]
           /\ (rest <> [] -> piece_of mv = Pawn)).
Proof.
  intros c. subst c.
  cbn [tags cpLoss evalBefore matBefore matAfter classifyMove].
  set (loss := cpLossOf _ _ _).
  eexists (when _ is_check ++ when _ is_capture ++ when _ is_castling
           ++ when _ missed_mate), _.
  split; [rewrite <- !app_assoc; reflexivity |].
  split.
  { unfold contextOrder.
    change [is_check; is_capture; is_castling; missed_mate]
      with ([is_check] ++ [is_capture] ++ [is_castling] ++ [missed_mate]).
    repeat apply sublist_app; apply when_sublist. }
  destruct (Qltb (12 # 10) loss) eqn:El;
    [apply Qltb_lt in El; left | apply Qltb_ge in El; right].
  - split; [exact El |]. split; [apply blameTags_sublist |].
    intros t Ht. unfold blameTags in Ht.
    destruct (decide (t ∈ [hanging_piece; lost_material; bad_trade; allowed_trade]))
      as [Hin | Hout]; [| auto].
    assert (Hne : t <> missed_tactic /\ t <> weakened_king
                  /\ t <> ignored_threat /\ t <> missed_fork
                  /\ t <> missed_castling /\ t <> early_queen
                  /\ t <> knight_on_rim /\ t <> edge_pawn_push
                  /\ t <> redundant_move).
    { rewrite !elem_of_cons, elem_of_nil in Hin.
      destruct Hin as [-> | [-> | [-> | [-> | []]]]]; repeat split; discriminate. }
    destruct Hne as (? & ? & ? & ? & ? & ? & ? & ? & ?).
    rewrite !elem_of_app in Ht.
    rewrite !not_elem_of_when in Ht by assumption.
    rewrite redundantTags_only in Ht by assumption. tauto.
  - split; [exact El |].
    destruct (bool_decide (piece_of mv = Pawn)) eqn:Ep.
    + apply bool_decide_eq_true in Ep.
      split; [apply kickTags_sublist | auto].
    + split; [apply sublist_nil_l | congruence].
Qed.

(** X6: the Book tier is assigned exactly when the Book rule applies (index
    below 6 and |cpLoss| < 0.5), and an opening reference is attached
    exactly to Book moves: it is the lookup of the first [m+1] SANs. *)
Theorem book_tier_and_opening m fb fa san before after best mv sans squares :
  let c := classifyMove m fb fa san before after best mv sans squares in
  (cls c = BOOK <-> bookRule m (cpLoss c))
  /\ opening_info c
     = (if decide (cls c = BOOK) then getOpening (take (S m) sans) else None).
Proof.
  intros c. subst c. split.
  - rewrite classifyMove_cls. apply tierOf_book_iff.
  - cbn [opening_info cls classifyMove].
    generalize (getOpening (take (S m) sans)).
    generalize (tierOf m mv best
                  (cpLossOf (isWhite mv) (mateCollapsed before) (mateCollapsed after))).
    intros t found. destruct t; reflexivity.
Qed.

(** X7: the tags of a move appear in one fixed order without repetition,
    hanging_piece and lost_material exclude each other, bad_trade and
    allowed_trade exclude each other, and a material tag excludes a trade
    tag. *)
Theorem tags_ordered_and_exclusive m fb fa san before after best mv sans squares :
  let c := classifyMove m fb fa san before after best mv sans squares in
  tags c `sublist_of` tagOrder
  /\ NoDup (tags c)
  /\ ~ (hanging_piece ∈ tags c /\ lost_material ∈ tags c)
  /\ ~ (bad_trade ∈ tags c /\ allowed_trade ∈ tags c)
  /\ (forall t u,
        t ∈ [hanging_piece; lost_material] -> u ∈ [bad_trade; allowed_trade] ->
        ~ (t ∈ tags c /\ u ∈ tags c)).
Proof.
  intros c.
  assert (Hsub : tags c `sublist_of` tagOrder).
  { destruct (tags_shape m fb fa san before after best mv sans squares)
      as (ctx & rest & Ht & Hctx & Hrest).
    fold c in Ht. rewrite Ht. unfold tagOrder.
    apply sublist_app; [exact Hctx |].
    destruct Hrest as [(_ & Hr & _) | (_ & Hr & _)].
    - now apply sublist_inserts_r.
    - now apply sublist_inserts_l. }
  split; [exact Hsub |].
  split.
  { eapply sublist_NoDup; [| exact Hsub].
    unfold tagOrder, contextOrder, blameOrder. cbn.
    repeat (constructor; [rewrite ?elem_of_cons, elem_of_nil; intuition discriminate |]).
    constructor. }
  pose proof (tags_material_or_trade m fb fa san before after best mv sans squares)
    as Hmt. cbn zeta in Hmt. fold c in Hmt.
  set (d := matDiffOf (isWhite mv) (matBefore c) (matAfter c)) in *.
  assert (Hh : hanging_piece ∈ tags c -> (d <= -3)%Z).
  { rewrite Hmt by (rewrite !elem_of_cons; tauto).
    rewrite materialTags_spec, tradeTags_spec.
    destruct (_ || _); intuition (try discriminate). }
  assert (Hl : lost_material ∈ tags c -> (-3 < d < 0)%Z).
  { rewrite Hmt by (rewrite !elem_of_cons; tauto).
    rewrite materialTags_spec, tradeTags_spec.
    destruct (_ || _); intuition (try discriminate). }
  assert (Hb : forall u, u ∈ [bad_trade; allowed_trade] -> u ∈ tags c ->
               d = 0%Z
               /\ u = (if (isWhite mv && Qltb (evalBefore c) (-300))
                          || (negb (isWhite mv) && Qltb 300 (evalBefore c))
                       then bad_trade else allowed_trade)).
  { intros u Hu. rewrite Hmt by (rewrite !elem_of_cons in *; tauto).
    rewrite materialTags_spec, tradeTags_spec.
    rewrite !elem_of_cons, elem_of_nil in Hu.
    destruct Hu as [-> | [-> | []]]; intuition (try discriminate). }
  split; [intros [H1 H2]; apply Hh in H1; apply Hl in H2; lia |].
  split.
  { intros [H1 H2].
    apply Hb in H1; [| rewrite !elem_of_cons; tauto].
    apply Hb in H2; [| rewrite !elem_of_cons; tauto].
    destruct H1 as [_ H1], H2 as [_ H2]. rewrite <- H2 in H1. discriminate. }
  intros t u Ht Hu [H1 H2]. apply Hb in H2; [| exact Hu].
  rewrite !elem_of_cons, elem_of_nil in Ht.
  destruct Ht as [-> | [-> | []]]; [apply Hh in H1 | apply Hl in H1]; lia.
Qed.


End TagOrder.

(** ** The engine's recommendation in SAN *)

Lemma substring_whole (s : string) : String.substring 0 (String.length s) s = s.
Proof. induction s as [| a s IH]; cbn; [reflexivity | now rewrite IH]. Qed.

Lemma length_two (s : string) :
  String.length s = 2%nat -> exists a b, s = String a (String b EmptyString).
Proof.
  destruct s as [| a [| b [| c s]]]; cbn; try discriminate.
  intros _. eauto.
Qed.

Section EngineBestSan.
Context `{Rules}.

(** X9: the SAN of the engine's recommendation is present exactly when a
    recommendation is; for a coordinate move made of two squares and an
    optional promotion letter the rules collaborator is asked with exactly
    these parts, and the coordinate text is kept when it has no answer. *)
Theorem engineBestSan_of_coordinates
    m fb fa san before after (best : option string) mv sans squares :
  let c := classifyMove m fb fa san before after best mv sans squares in
  Js.truthy (engineBestSan c) = Js.truthy (engineBest c)
  /\ forall f t p : string,
       String.length f = 2%nat -> String.length t = 2%nat ->
       best = Some (f +:+ t +:+ p) ->
       engineBestSan c
       = Some match move_san fb f t (if String.eqb p "" then None else Some p) with
              | Some s => if String.eqb s "" then f +:+ t +:+ p else s
              | None => f +:+ t +:+ p
              end.
Proof.
  intros c. subst c. cbn [engineBestSan engineBest classifyMove].
  unfold engineBestSanOf. split.
  - destruct best as [b |]; [| reflexivity]. cbn [Js.truthy].
    destruct (negb (String.eqb b "")) eqn:Eb; [| cbn; now rewrite Eb].
    destruct (move_san _ _ _ _) as [s |]; [| cbn; now rewrite Eb].
    destruct (negb (String.eqb s "")) eqn:Es; cbn; [now rewrite Es | now rewrite Eb].
  - intros f t p Hf Ht ->.
    destruct (length_two f Hf) as (a & b & ->).
    destruct (length_two t Ht) as (a' & b' & ->).
    assert (Hlan : String a (String b "") +:+ String a' (String b' "") +:+ p
                   = String a (String b (String a' (String b' p))))
      by reflexivity.
    rewrite !Hlan.
    cbn [Js.truthy String.eqb negb String.length Nat.ltb Nat.leb Nat.sub
         Js.substring String.substring].
    destruct p as [| x p]; cbn [String.length Nat.leb String.eqb Nat.sub].
    + destruct (move_san _ _ _ None) as [s |]; [| reflexivity].
      destruct (String.eqb s ""); reflexivity.
    + change (String.substring 0 0 (String x p)) with EmptyString.
      change (String.substring 0 (S (String.length p)) (String x p))
        with (String x (String.substring 0 (String.length p) p)).
      rewrite substring_whole.
      destruct (move_san _ _ _ _) as [s |]; [| reflexivity].
      destruct (String.eqb s ""); reflexivity.
Qed.

End EngineBestSan.

(** e7e5 after 1. f3 becomes e5 *)
Lemma engineBestSan_of_coordinates_witness :
  String.length "e7" = 2%nat /\ String.length "e5" = 2%nat
  /\ engineBestSan
       (@classifyMove sampleRulesSan 1
          "rnbqkbnr/pppppppp/8/8/8/5P2/PPPPP1PP/RNBQKBNR b KQkq - 0 1"
          "rnbqkbnr/pppp1ppp/8/4p3/8/5P2/PPPPP1PP/RNBQKBNR w KQkq e6 0 2"
          "e5" (plainEval (-(3 # 10))) (plainEval (3 # 10)) (Some "e7e5")
          (mkMove "e7" "e5" Black Pawn) foolsMateSans foolsMateSquares)
     = Some "e5".
Proof.
  split; [reflexivity |]. split; [reflexivity |].
  exact (proj2 (@engineBestSan_of_coordinates sampleRulesSan 1
                  "rnbqkbnr/pppppppp/8/8/8/5P2/PPPPP1PP/RNBQKBNR b KQkq - 0 1"
                  "rnbqkbnr/pppp1ppp/8/4p3/8/5P2/PPPPP1PP/RNBQKBNR w KQkq e6 0 2"
                  "e5" (plainEval (-(3 # 10))) (plainEval (3 # 10)) (Some "e7e5")
                  (mkMove "e7" "e5" Black Pawn) foolsMateSans foolsMateSquares)
           "e7" "e5" "" eq_refl eq_refl eq_refl).
Defined.

(** ** [getOpening] and [getGamePhase] *)

Lemma prefix_same_length (p q s : string) :
  String.prefix p s = true -> String.prefix q s = true ->
  String.length p = String.length q -> p = q.
Proof.
  revert p q. induction s as [| c s IH]; intros p q Hp Hq Hlen.
  - destruct p, q; cbn in *; try discriminate. reflexivity.
  - destruct p as [| a p], q as [| b q]; cbn in *; try discriminate;
      [reflexivity |].
    destruct (Ascii.ascii_dec a c) as [-> | ?]; [| discriminate].
    destruct (Ascii.ascii_dec b c) as [-> | ?]; [| discriminate].
    f_equal. apply IH; auto.
Qed.

(** the scan of [getOpening] over any table: what the pair of [bestMatch]
    and [longest] holds after the rows [seen] *)
Lemma opening_scan (moveStr : string) (table : list opening_entry) :
  forall (seen : list opening_entry) (acc : option opening_entry * nat),
    (match fst acc with
     | Some b => b ∈ seen /\ Js.startsWith moveStr (prefix b) = true
                 /\ snd acc = String.length (prefix b)
     | None => snd acc = 0%nat
     end
     /\ forall op, op ∈ seen -> Js.startsWith moveStr (prefix op) = true ->
                   (String.length (prefix op) <= snd acc)%nat) ->
    let out :=
      fold_left
        (fun (acc : option opening_entry * nat) (op : opening_entry) =>
           if Js.startsWith moveStr (prefix op)
              && (snd acc <? String.length (prefix op))%nat
           then (Some op, String.length (prefix op))
           else acc) table acc in
    match fst out with
    | Some b => b ∈ seen ++ table /\ Js.startsWith moveStr (prefix b) = true
                /\ snd out = String.length (prefix b)
    | None => snd out = 0%nat
    end
    /\ forall op, op ∈ seen ++ table -> Js.startsWith moveStr (prefix op) = true ->
                  (String.length (prefix op) <= snd out)%nat.
Proof.
  induction table as [| op table IH]; intros seen acc [Hbest Hall]; cbn [fold_left].
  - rewrite app_nil_r. auto.
  - replace (seen ++ op :: table) with ((seen ++ [op]) ++ table)
      by (rewrite <- app_assoc; reflexivity).
    apply IH.
    destruct (Js.startsWith moveStr (prefix op)) eqn:Em; cbn [andb].
    + destruct (snd acc <? String.length (prefix op))%nat eqn:El;
        [apply Nat.ltb_lt in El | apply Nat.ltb_ge in El]; cbn [fst snd].
      * split; [rewrite elem_of_app, list_elem_of_singleton; auto |].
        intros op' Hin Hm'. rewrite elem_of_app, list_elem_of_singleton in Hin.
        destruct Hin as [Hin | ->]; [| lia].
        specialize (Hall op' Hin Hm'). lia.
      * split.
        -- destruct (fst acc); [| exact Hbest].
           destruct Hbest as (? & ? & ?). rewrite elem_of_app. auto.
        -- intros op' Hin Hm'. rewrite elem_of_app, list_elem_of_singleton in Hin.
           destruct Hin as [Hin | ->]; [auto | lia].
    + split.
      * destruct (fst acc); [| exact Hbest].
        destruct Hbest as (? & ? & ?). rewrite elem_of_app. auto.
      * intros op' Hin Hm'. rewrite elem_of_app, list_elem_of_singleton in Hin.
        destruct Hin as [Hin | ->]; [auto | congruence].
Qed.

(** X10: [getOpening] answers with the one row of the table whose prefix the
    joined moves start with and which is longer than every other such row;
    it answers null exactly when no row matches. *)
Theorem getOpening_longest_match (sans : list string) :
  match getOpening sans with
  | Some op =>
      openingMatches sans op
      /\ forall op', openingMatches sans op' -> op' <> op ->
                     (String.length (prefix op') < String.length (prefix op))%nat
  | None => forall op, ~ openingMatches sans op
  end.
Proof.
  unfold getOpening, openingMatches.
  pose proof (opening_scan (Js.join " " sans) COMMON_OPENINGS [] (None, 0%nat)) as Hscan.
  cbn zeta in Hscan. rewrite app_nil_l in Hscan.
  destruct Hscan as [Hbest Hall].
  { cbn. split; [reflexivity |]. intros op Hin. now apply elem_of_nil in Hin. }
  set (out := fold_left _ COMMON_OPENINGS _) in *.
  destruct (fst out) as [b |].
  - destruct Hbest as (Hin & Hm & Hlen). split; [auto |].
    intros op' [Hin' Hm'] Hne.
    pose proof (Hall op' Hin' Hm') as Hle. rewrite Hlen in Hle.
    destruct (decide (String.length (prefix op') = String.length (prefix b)))
      as [Heq | ?]; [| lia].
    exfalso. apply Hne.
    pose proof (prefix_same_length _ _ _ Hm' Hm Heq) as Hp.
    assert (Hinj : Forall (fun x => Forall (fun y => prefix x = prefix y -> x = y)
                                      COMMON_OPENINGS) COMMON_OPENINGS).
    { apply (bool_decide_unpack _). vm_compute. exact I. }
    rewrite Forall_forall in Hinj. specialize (Hinj op' Hin').
    rewrite Forall_forall in Hinj. exact (Hinj b Hin Hp).
  - intros op [Hin Hm]. specialize (Hall op Hin Hm). rewrite Hbest in Hall.
    assert (Hpos : Forall (fun x => (0 < String.length (prefix x))%nat) COMMON_OPENINGS).
    { apply (bool_decide_unpack _). vm_compute. exact I. }
    rewrite Forall_forall in Hpos. specialize (Hpos op Hin). lia.
Qed.

Lemma majorMinorLoop_shift (pieces : string) (n : nat) :
  majorMinorLoop pieces n = (n + majorMinorLoop pieces 0)%nat.
Proof.
  revert n. induction pieces as [| c rest IH]; intros n; cbn [majorMinorLoop].
  - lia.
  - rewrite IH.
    rewrite (IH (if Js.includes "NBRQnbrq" (String c EmptyString) then 1 else 0)%nat).
    destruct (Js.includes _ _); lia.
Qed.

Lemma majorMinorPieces_cons (a : ascii) (rest : string) :
  majorMinorPieces (String a rest)
  = (majorMinorPieces (String a EmptyString) + majorMinorPieces rest)%Z.
Proof.
  unfold majorMinorPieces. rewrite !(occurrences_cons _ a rest). lia.
Qed.

Lemma majorMinorLoop_count (pieces : string) :
  Z.of_nat (majorMinorLoop pieces 0) = majorMinorPieces pieces.
Proof.
  induction pieces as [| c rest IH]; [reflexivity |].
  cbn [majorMinorLoop]. rewrite majorMinorLoop_shift, majorMinorPieces_cons.
  rewrite Nat2Z.inj_add, IH. f_equal.
  destruct c as [[] [] [] [] [] [] [] []]; reflexivity.
Qed.

(** X11: the phase is decided by the number [n] of knights, bishops, rooks
    and queens in the piece-placement field and by the half-move index:
    opening exactly when the index is below 24 and n >= 10, endgame exactly
    when n <= 6, middlegame in every other case. *)
Theorem game_phase_by_count (fen : string) (moveIndex : nat) :
  let n := majorMinorPieces (Js.firstToken fen) in
  (getGamePhase fen moveIndex = opening <-> (moveIndex < 24)%nat /\ (10 <= n)%Z)
  /\ (getGamePhase fen moveIndex = endgame <-> (n <= 6)%Z)
  /\ (getGamePhase fen moveIndex = middlegame
      <-> (7 <= n)%Z /\ ((24 <= moveIndex)%nat \/ (n <= 9)%Z)).
Proof.
  intros n. subst n. rewrite <- majorMinorLoop_count. unfold getGamePhase.
  set (k := majorMinorLoop _ 0).
  destruct (moveIndex <? 24)%nat eqn:Em;
    [apply Nat.ltb_lt in Em | apply Nat.ltb_ge in Em];
  destruct (10 <=? k)%nat eqn:E10;
    [apply Nat.leb_le in E10 | apply Nat.leb_gt in E10
    | apply Nat.leb_le in E10 | apply Nat.leb_gt in E10];
  cbn [andb];
  try (destruct (k <=? 6)%nat eqn:E6;
       [apply Nat.leb_le in E6 | apply Nat.leb_gt in E6]);
  repeat split; intros; try discriminate; try lia; try reflexivity;
  try (exfalso; lia).
Qed.

(** ** The timeline beyond its cursor *)

Section TimelineMore.
Context {G : Type} `{Logic.ChessGame G}.

Lemma replay_all (ms : list Logic.vmove) (l : Logic.t G) :
  Logic.fens (fold_left Logic.replay ms l)
  = Logic.fens l ++ map Logic.g_fen (gamesAfter (Logic.game l) ms)
  /\ Logic.sans (fold_left Logic.replay ms l)
     = Logic.sans l ++ map Logic.v_san ms
  /\ Logic.squares (fold_left Logic.replay ms l)
     = Logic.squares l ++ map recordOf ms
  /\ Logic.idx (fold_left Logic.replay ms l) = Logic.idx l
  /\ Logic.classifications (fold_left Logic.replay ms l)
     = Logic.classifications l.
Proof.
  revert l. induction ms as [| m rest IH]; intros l; cbn [fold_left].
  - cbn. rewrite !app_nil_r. auto.
  - destruct (IH (Logic.replay l m)) as (Hf & Hs & Hq & Hi & Hc).
    rewrite Hf, Hs, Hq, Hi, Hc. cbn. rewrite <- !app_assoc. auto.
Qed.

Lemma length_gamesAfter (g : G) (ms : list Logic.vmove) :
  length (gamesAfter g ms) = length ms.
Proof.
  revert g. induction ms as [| m rest IH]; intros g; cbn; [reflexivity |].
  now rewrite IH.
Qed.

(** X12: a successful load rebuilds the timeline from the parsed history:
    the SANs and move records are those of the history in order, the
    positions are the start position of the reset game followed by the FEN
    after each replayed move, the classifications are emptied, and the
    cursor stands on the last position, which [fen()] then returns. *)
Theorem loadPGN_success (pgn : string) (l : Logic.t G) :
  fst (Logic.g_load_pgn pgn (Logic.g_reset (Logic.game l))) = true ->
  let g := snd (Logic.g_load_pgn pgn (Logic.g_reset (Logic.game l))) in
  let l' := snd (Logic.loadPGN pgn l) in
  fst (Logic.loadPGN pgn l) = true
  /\ Logic.sans l' = map Logic.v_san (Logic.g_history g)
  /\ Logic.squares l' = map recordOf (Logic.g_history g)
  /\ Logic.fens l'
     = Logic.g_fen (Logic.g_reset g)
       :: map Logic.g_fen (gamesAfter (Logic.g_reset g) (Logic.g_history g))
  /\ Logic.classifications l' = []
  /\ Logic.idx l' = Z.of_nat (length (Logic.g_history g))
  /\ Logic.fen l' = last (Logic.fens l').
Proof.
  intros Hok g l'. subst g l'. unfold Logic.loadPGN.
  change (Logic.game (Logic.reset l)) with (Logic.g_reset (Logic.game l)).
  destruct (Logic.g_load_pgn pgn (Logic.g_reset (Logic.game l))) as [ok g].
  cbn [fst snd] in *. subst ok. cbn [negb fst snd].
  set (l2 := Logic.reset _).
  destruct (replay_all (Logic.g_history g) l2) as (Hf & Hs & Hq & _ & Hc).
  cbn [Logic.fens Logic.sans Logic.squares Logic.idx Logic.classifications].
  rewrite Hf, Hs, Hq, Hc. subst l2. cbn [Logic.reset Logic._snapshot
    Logic.fens Logic.sans Logic.squares Logic.classifications Logic.game app].
  repeat split.
  - cbn [length]. rewrite length_map, length_gamesAfter. lia.
  - unfold Logic.fen.
    cbn [Logic.idx Logic.fens length]. rewrite length_map, length_gamesAfter.
    set (n := length (Logic.g_history g)).
    replace (Z.of_nat (S n) - 1)%Z with (Z.of_nat n) by lia.
    destruct (Z.ltb_spec (Z.of_nat n) 0); [lia |].
    rewrite Nat2Z.id, last_lookup. cbn [length].
    rewrite length_map, length_gamesAfter. reflexivity.
Qed.

Lemma shape_ok_create : shape_ok (G := G) Logic.create.
Proof. split; reflexivity. Qed.

Lemma shape_ok_apply (l : Logic.t G) (o : Logic.op) :
  shape_ok l -> shape_ok (Logic.apply l o).
Proof.
  intros [Hf Hq]. destruct o; cbn [Logic.apply]; try (split; assumption).
  - split; reflexivity.
  - unfold Logic.loadPGN.
    destruct (Logic.g_load_pgn pgn (Logic.game (Logic.reset l))) as [ok g].
    destruct ok; cbn [negb snd]; [| split; reflexivity].
    set (l2 := Logic.reset _).
    destruct (replay_length (Logic.g_history g) l2) as (Ef & Es & Eq).
    split; cbn [Logic.fens Logic.sans Logic.squares].
    + rewrite Ef, Es. reflexivity.
    + rewrite Eq, Es. reflexivity.
  - unfold Logic.goNext. destruct (_ <? _)%Z; split; assumption.
  - unfold Logic.goPrev. destruct (_ <? _)%Z; split; assumption.
  - unfold Logic.goTo. destruct (_ && _); split; assumption.
Qed.

Lemma shape_ok_run (ops : list Logic.op) (l : Logic.t G) :
  shape_ok l -> shape_ok (Logic.run ops l).
Proof.
  revert l. induction ops as [| o rest IH]; intros l Hl; cbn; [exact Hl |].
  apply IH, shape_ok_apply, Hl.
Qed.

(** X13: after any sequence of public operations on a fresh timeline there
    is one position more than there are SANs and one move record per SAN,
    [fen()] returns a position of the list (never undefined), and
    [currentMoveSquares()] is null exactly at the start position and
    otherwise the record of the move before the cursor. *)
Theorem timeline_accessors_defined (ops : list Logic.op) :
  let l := Logic.run ops (Logic.create (G := G)) in
  length (Logic.fens l) = S (length (Logic.sans l))
  /\ length (Logic.squares l) = length (Logic.sans l)
  /\ (exists f, Logic.fen l = Some f /\ f ∈ Logic.fens l)
  /\ (currentMoveSquares l = None <-> Logic.idx l = 0%Z)
  /\ (Logic.idx l <> 0%Z ->
      exists mv san,
        currentMoveSquares l = Some mv
        /\ Logic.squares l !! Z.to_nat (Logic.idx l - 1) = Some mv
        /\ Logic.sans l !! Z.to_nat (Logic.idx l - 1) = Some san).
Proof.
  intros l.
  destruct (shape_ok_run ops _ shape_ok_create) as [Hf Hq].
  destruct (cursor_ok_run ops _ cursor_ok_create) as [Hne Hidx].
  fold l in Hf, Hq, Hne, Hidx.
  split; [exact Hf |]. split; [exact Hq |].
  split.
  { unfold Logic.fen. destruct (Z.ltb_spec (Logic.idx l) 0); [lia |].
    destruct (lookup_lt_is_Some_2 (Logic.fens l) (Z.to_nat (Logic.idx l)))
      as [f Hf']; [lia |].
    exists f. split; [exact Hf' |]. eapply list_elem_of_lookup_2; eassumption. }
  assert (Hcur : Logic.idx l <> 0%Z ->
                 exists mv san,
                   currentMoveSquares l = Some mv
                   /\ Logic.squares l !! Z.to_nat (Logic.idx l - 1) = Some mv
                   /\ Logic.sans l !! Z.to_nat (Logic.idx l - 1) = Some san).
  { intros Hnz. unfold currentMoveSquares, at_index.
    destruct (Z.eqb_spec (Logic.idx l) 0); [contradiction |].
    destruct (Z.ltb_spec (Logic.idx l - 1) 0); [lia |].
    destruct (lookup_lt_is_Some_2 (Logic.squares l) (Z.to_nat (Logic.idx l - 1)))
      as [mv Hmv]; [lia |].
    destruct (lookup_lt_is_Some_2 (Logic.sans l) (Z.to_nat (Logic.idx l - 1)))
      as [san Hsan]; [lia |].
    exists mv, san. auto. }
  split; [| exact Hcur].
  split.
  - intros Hnone. destruct (Z.eq_dec (Logic.idx l) 0%Z) as [? | Hnz]; [assumption |].
    destruct (Hcur Hnz) as (mv & san & Hsome & _). congruence.
  - intros Hz. unfold currentMoveSquares. now rewrite Hz.
Qed.

(** X14: navigation composes as a user expects on a timeline whose cursor is
    in range: a step forward then back (or back then forward) returns to
    the same state unless the first step was blocked at an end; stepping
    past either end does nothing; [goTo] with an index out of range does
    nothing and with an index in range puts the cursor exactly there; and
    no navigation ever changes the lists. *)
Theorem navigation_laws (l : Logic.t G) :
  cursor_ok l ->
  ((Logic.idx l < Z.of_nat (length (Logic.fens l)) - 1)%Z ->
   Logic.goPrev (Logic.goNext l) = l)
  /\ ((0 < Logic.idx l)%Z -> Logic.goNext (Logic.goPrev l) = l)
  /\ Logic.goNext (Logic.goEnd l) = Logic.goEnd l
  /\ Logic.goPrev (Logic.goStart l) = Logic.goStart l
  /\ (forall i, (i < 0 \/ Z.of_nat (length (Logic.fens l)) <= i)%Z ->
                Logic.goTo i l = l)
  /\ (forall i, (0 <= i < Z.of_nat (length (Logic.fens l)))%Z ->
                Logic.idx (Logic.goTo i l) = i
                /\ Logic.fen (Logic.goTo i l) = Logic.fens l !! Z.to_nat i)
  /\ (forall o, match o with
                | Logic.DoReset | Logic.DoLoadPGN _ => True
                | _ => Logic.fens (Logic.apply l o) = Logic.fens l
                       /\ Logic.sans (Logic.apply l o) = Logic.sans l
                       /\ Logic.squares (Logic.apply l o) = Logic.squares l
                       /\ Logic.classifications (Logic.apply l o)
                          = Logic.classifications l
                end).
Proof.
  intros [Hne Hidx]. destruct l as [g fs ss qs i cs]. cbn in *.
  split_and!.
  - intros Hlt. unfold Logic.goNext, Logic.goPrev. cbn.
    destruct (Z.ltb_spec i (Z.of_nat (length fs) - 1)); [| lia]. cbn.
    destruct (Z.ltb_spec 0 (i + 1)); [| lia].
    unfold Logic.with_idx. cbn. f_equal. lia.
  - intros Hlt. unfold Logic.goNext, Logic.goPrev. cbn.
    destruct (Z.ltb_spec 0 i); [| lia]. cbn.
    destruct (Z.ltb_spec (i - 1) (Z.of_nat (length fs) - 1)); [| lia].
    unfold Logic.with_idx. cbn. f_equal. lia.
  - unfold Logic.goNext, Logic.goEnd. cbn.
    destruct (Z.ltb_spec (Z.of_nat (length fs) - 1) (Z.of_nat (length fs) - 1));
      [lia | reflexivity].
  - unfold Logic.goPrev, Logic.goStart. cbn. reflexivity.
  - intros j Hj. unfold Logic.goTo. cbn.
    destruct (Z.leb_spec 0 j); cbn; [| reflexivity].
    destruct (Z.ltb_spec j (Z.of_nat (length fs))); [lia | reflexivity].
  - intros j Hj. unfold Logic.goTo, Logic.fen. cbn.
    destruct (Z.leb_spec 0 j); [| lia].
    destruct (Z.ltb_spec j (Z.of_nat (length fs))); [| lia]. cbn.
    destruct (Z.ltb_spec j 0); [lia |]. split; reflexivity.
  - intros o.
    destruct o; cbn [Logic.apply]; trivial;
      unfold Logic.goStart, Logic.goEnd, Logic.goNext, Logic.goPrev, Logic.goTo;
      cbn [Logic.idx Logic.fens];
      try match goal with |- context [if ?c then _ else _] => destruct c end;
      cbn; auto.
Qed.

End TimelineMore.

Lemma loadPGN_success_witness :
  fst (Logic.g_load_pgn "1. e4 e5" (Logic.g_reset (Logic.game (Logic.create (G := list string)))))
  = true
  /\ Logic.sans loadedTimeline = ["e4"; "e5"]
  /\ Logic.fens loadedTimeline = [startFen; afterE4Fen; afterE4E5Fen]
  /\ Logic.idx loadedTimeline = 2%Z
  /\ Logic.fen loadedTimeline = Some afterE4E5Fen.
Proof.
  pose proof (loadPGN_success "1. e4 e5" (Logic.create (G := list string)) eq_refl)
    as (_ & Hs & _ & Hf & _ & Hi & Hfen).
  split; [reflexivity |]. split; [exact Hs |]. split; [exact Hf |].
  split; [exact Hi | exact Hfen].
Defined.

Lemma navigation_laws_witness :
  cursor_ok loadedTimeline
  /\ Logic.goNext (Logic.goPrev loadedTimeline) = loadedTimeline
  /\ Logic.goTo 7 loadedTimeline = loadedTimeline
  /\ Logic.idx (Logic.goTo 1 loadedTimeline) = 1%Z.
Proof.
  assert (Hok : cursor_ok loadedTimeline).
  { split; [discriminate |]. vm_compute. split; discriminate. }
  pose proof (navigation_laws loadedTimeline Hok)
    as (_ & Hback & _ & _ & Hout & Hin & _).
  split; [exact Hok |].
  split; [apply Hback; reflexivity |].
  split; [apply Hout; right; vm_compute; discriminate |].
  apply (Hin 1%Z). vm_compute. split; [discriminate | reflexivity].
Defined.

(** ** The engine object, entry point by entry point *)

Section EngineFacts.
Variable matchInfo : string -> Engine.info_match.

Lemma startsWith_bestmove (line : string) :
  Js.startsWith line "bestmove" = true -> exists rest, line = String "b" rest.
Proof.
  unfold Js.startsWith.
  destruct line as [| c rest]; cbn [String.prefix]; [discriminate |].
  destruct (ascii_dec "b" c) as [<- | ?]; [| discriminate].
  intros _. now exists rest.
Qed.

Lemma onMessage_bestmove (line : string) (e : Engine.t) :
  Js.startsWith line "bestmove" = true ->
  Engine.onMessage matchInfo (Some line) e = Engine.onBestmove line e.
Proof.
  intros Hb. destruct (startsWith_bestmove line Hb) as [rest ->].
  unfold Engine.onMessage. rewrite Hb.
  change (String.eqb (String "b" rest) "uciok") with false.
  change (String.eqb (String "b" rest) "readyok") with false.
  change (Js.startsWith (String "b" rest) "info") with false.
  cbn [andb]. destruct (Engine.onBestmove _ e) as [e4 o4]. reflexivity.
Qed.

Lemma onMessage_other (line : string) (e : Engine.t) :
  Js.startsWith line "bestmove" = false ->
  Forall quiet (snd (Engine.onMessage matchInfo (Some line) e)).
Proof.
  intros Hb. unfold Engine.onMessage. rewrite Hb.
  destruct (String.eqb line "uciok" && negb (Engine.worker e));
    [repeat constructor |].
  set (e2 := if String.eqb line "readyok" then _ else e).
  destruct (quiet_onInfo matchInfo line e2) as [_ Hq].
  destruct (Js.startsWith line "info" && Js.includes line " score ").
  - destruct (Engine.onInfo matchInfo line e2) as [[returned e3] o3].
    cbn [fst snd] in Hq.
    assert (Hall : Forall quiet
              ((if String.eqb line "uciok" then [Engine.Post "isready"] else [])
               ++ (if String.eqb line "readyok"
                   then [Engine.ConsoleLog "Stockfish engine ready."] else [])
               ++ o3)).
    { rewrite !Forall_app. repeat split; [| | exact Hq].
      - destruct (String.eqb line "uciok"); repeat constructor.
      - destruct (String.eqb line "readyok"); repeat constructor. }
    destruct returned; exact Hall.
  - cbn [snd]. rewrite !Forall_app. repeat split; [| | constructor].
    + destruct (String.eqb line "uciok"); repeat constructor.
    + destruct (String.eqb line "readyok"); repeat constructor.
Qed.

(** X15: [_onMessage] resolves a promise exactly when the line starts with
    [bestmove] while an awaited search is marked and a resolver is
    installed; it then resolves that promise, once, with the depth, score,
    mate flag and line of the engine's current fields and the move of the
    [bestmove] line (the earlier move if the line names none), uninstalls
    the resolver, and clears the safety timer.  No other line, and no
    message that is not a string, resolves anything. *)
Theorem resolves_exactly_on_bestmove (data : option string) (e : Engine.t)
    (p : nat) (r : Engine.result) :
  (Engine.Resolve p r ∈ snd (Engine.onMessage matchInfo data e)
   <-> exists line,
         data = Some line
         /\ Js.startsWith line "bestmove" = true
         /\ Engine._isAsyncSearch e = true
         /\ Engine._resolveEval e = Some p
         /\ r = {| Engine.depth := Engine._currentDepth e;
                   Engine.score := Engine._currentScore e;
                   Engine.isMate := Engine._currentIsMate e;
                   Engine.bestMove := moveOfLine line e;
                   Engine.pv := Engine._currentPv e |})
  /\ (Engine.Resolve p r ∈ snd (Engine.onMessage matchInfo data e) ->
      Engine._resolveEval (fst (Engine.onMessage matchInfo data e)) = None
      /\ Engine._isAsyncSearch (fst (Engine.onMessage matchInfo data e)) = false
      /\ Engine._evalTimeout (fst (Engine.onMessage matchInfo data e)) = None
      /\ snd (Engine.onMessage matchInfo data e)
         = match Engine._evalTimeout e with
           | Some tm => [Engine.ClearTimeout tm]
           | None => []
           end ++ [Engine.Resolve p r]).
Proof.
  destruct data as [line |]; cycle 1.
  { cbn. split; [split |].
    - intros Hin. inversion Hin.
    - intros (line & Hd & _). discriminate.
    - intros Hin. inversion Hin. }
  destruct (Js.startsWith line "bestmove") eqn:Hb; cycle 1.
  { pose proof (onMessage_other line e Hb) as Hq.
    assert (Hno : ~ Engine.Resolve p r ∈ snd (Engine.onMessage matchInfo (Some line) e)).
    { intros Hin. rewrite Forall_forall in Hq. exact (Hq _ Hin). }
    split; [split |].
    - intros Hin. contradiction.
    - intros (line' & Hd & Hb' & _). injection Hd as <-. congruence.
    - intros Hin. contradiction. }
  rewrite (onMessage_bestmove line e Hb).
  unfold Engine.onBestmove.
  set (e1 := if _ && _ then Engine.with_best _ e else e).
  assert (He1 : Engine._isAsyncSearch e1 = Engine._isAsyncSearch e
                /\ Engine._resolveEval e1 = Engine._resolveEval e
                /\ Engine._evalTimeout e1 = Engine._evalTimeout e
                /\ Engine._currentDepth e1 = Engine._currentDepth e
                /\ Engine._currentScore e1 = Engine._currentScore e
                /\ Engine._currentIsMate e1 = Engine._currentIsMate e
                /\ Engine._currentPv e1 = Engine._currentPv e
                /\ Engine._currentBestMove e1 = moveOfLine line e).
  { subst e1. unfold moveOfLine. destruct (_ && _); cbn; repeat split; reflexivity. }
  destruct He1 as (Ha & Hr & Ht & Hd & Hs & Hm & Hpv & Hbm).
  rewrite <- Ha, <- Hr, <- Ht, <- Hd, <- Hs, <- Hm, <- Hpv.
  destruct (Engine._isAsyncSearch e1); cycle 1.
  { cbn. split; [split |].
    - intros Hin. inversion Hin.
    - intros (line' & _ & _ & Hf & _). discriminate.
    - intros Hin. inversion Hin. }
  destruct (Engine._resolveEval e1) as [q |]; cycle 1.
  { cbn. split; [split |].
    - intros Hin. inversion Hin.
    - intros (line' & _ & _ & _ & Hf & _). discriminate.
    - intros Hin. inversion Hin. }
  cbn [fst snd Engine._resolveEval Engine._isAsyncSearch Engine._evalTimeout].
  unfold Engine.snapshot. cbn [Engine._currentDepth Engine._currentScore
    Engine._currentIsMate Engine._currentBestMove Engine._currentPv].
  split; [split |].
  - intros Hin. exists line. rewrite elem_of_app, list_elem_of_singleton in Hin.
    destruct Hin as [Hin | Hin].
    + destruct (Engine._evalTimeout e1); [| inversion Hin].
      apply list_elem_of_singleton in Hin. discriminate.
    + injection Hin as -> ->. rewrite Hbm. repeat split; auto.
  - intros (line' & Hl & _ & _ & Hq & ->). injection Hl as <-. injection Hq as <-.
    rewrite <- Hbm.
    rewrite elem_of_app, list_elem_of_singleton. right. reflexivity.
  - intros Hin. repeat split.
    rewrite elem_of_app, list_elem_of_singleton in Hin.
    destruct Hin as [Hin | Hin].
    + destruct (Engine._evalTimeout e1); [| inversion Hin].
      apply list_elem_of_singleton in Hin. discriminate.
    + injection Hin as -> ->. reflexivity.
Qed.

End EngineFacts.

Section EngineEntry.
Variable matchInfo : string -> Engine.info_match.

Lemma calm_post (e : Engine.t) (msgs : list string) :
  Forall (fun m => Js.startsWith m "go" = false) msgs ->
  Forall (fun x => startsSearch x = false) (Engine.post e msgs).
Proof.
  intros Hm. unfold Engine.post. destruct (Engine.worker e).
  - induction Hm; cbn; constructor; auto.
  - repeat constructor.
Qed.

Lemma calm_onInfo (line : string) (e : Engine.t) :
  Forall (fun x => startsSearch x = false)
         (snd (Engine.onInfo matchInfo line e))
  /\ Engine.ready (snd (fst (Engine.onInfo matchInfo line e))) = Engine.ready e
  /\ Engine.worker (snd (fst (Engine.onInfo matchInfo line e))) = Engine.worker e.
Proof.
  unfold Engine.onInfo.
  destruct (Engine.depthMatch _); [| cbn; auto].
  destruct (Engine.cpMatch _); cbn.
  - repeat split. destruct (Engine.onUpdate e); repeat constructor.
  - destruct (Engine.mateMatch _); cbn; [| auto].
    repeat split. destruct (Engine.onUpdate e); repeat constructor.
Qed.

Lemma calm_onBestmove (line : string) (e : Engine.t) :
  Forall (fun x => startsSearch x = false) (snd (Engine.onBestmove line e))
  /\ Engine.ready (fst (Engine.onBestmove line e)) = Engine.ready e
  /\ Engine.worker (fst (Engine.onBestmove line e)) = Engine.worker e.
Proof.
  unfold Engine.onBestmove.
  set (e1 := if _ && _ then Engine.with_best _ e else e).
  assert (He1 : Engine.ready e1 = Engine.ready e
                /\ Engine.worker e1 = Engine.worker e)
    by (subst e1; destruct (_ && _); split; reflexivity).
  destruct He1 as [<- <-].
  destruct (Engine._isAsyncSearch e1); [| cbn; auto].
  destruct (Engine._resolveEval e1); cbn; [| auto].
  repeat split. destruct (Engine._evalTimeout e1); repeat constructor.
Qed.

Lemma calm_onMessage (data : option string) (e : Engine.t) :
  Forall (fun x => startsSearch x = false)
         (snd (Engine.onMessage matchInfo data e))
  /\ Engine.worker (fst (Engine.onMessage matchInfo data e)) = Engine.worker e
  /\ Engine.ready (fst (Engine.onMessage matchInfo data e))
     = Engine.ready e || bool_decide (data = Some "readyok").
Proof.
  destruct data as [line |]; [| cbn; rewrite orb_false_r; auto].
  unfold Engine.onMessage.
  assert (Hdec : bool_decide (Some line = Some "readyok") = String.eqb line "readyok").
  { destruct (String.eqb_spec line "readyok") as [-> | Hne].
    - apply bool_decide_eq_true. reflexivity.
    - apply bool_decide_eq_false. congruence. }
  rewrite Hdec.
  destruct (String.eqb_spec line "uciok") as [-> | Hu].
  { change (String.eqb "uciok" "readyok") with false. rewrite orb_false_r.
    destruct (Engine.worker e) eqn:Hw; cbn; [| auto].
    rewrite Hw. repeat split. repeat constructor. }
  cbn [andb app].
  set (e2 := if String.eqb line "readyok" then _ else e).
  assert (He2 : Engine.ready e2 = Engine.ready e || String.eqb line "readyok"
                /\ Engine.worker e2 = Engine.worker e).
  { subst e2. destruct (String.eqb line "readyok"); cbn;
      rewrite ?orb_true_r, ?orb_false_r; auto. }
  destruct He2 as [<- <-].
  set (o2 := if String.eqb line "readyok" then _ else []).
  assert (Ho2 : Forall (fun x => startsSearch x = false) o2)
    by (subst o2; destruct (String.eqb line "readyok"); repeat constructor).
  destruct (calm_onInfo line e2) as (Hi & Hir & Hiw).
  destruct (Js.startsWith line "info" && Js.includes line " score ").
  - destruct (Engine.onInfo matchInfo line e2) as [[returned e3] o3].
    cbn [fst snd] in Hi, Hir, Hiw. rewrite <- Hir, <- Hiw.
    destruct returned; [cbn; rewrite Forall_app; auto |].
    destruct (Js.startsWith line "bestmove"); [| cbn; rewrite Forall_app; auto].
    destruct (calm_onBestmove line e3) as (Hbq & Hbr & Hbw).
    destruct (Engine.onBestmove line e3) as [e4 o4]. cbn [fst snd] in *.
    rewrite !Forall_app. auto.
  - destruct (Js.startsWith line "bestmove"); [| cbn; rewrite app_nil_r; auto].
    destruct (calm_onBestmove line e2) as (Hbq & Hbr & Hbw).
    destruct (Engine.onBestmove line e2) as [e4 o4]. cbn [fst snd app] in *.
    rewrite !Forall_app. auto.
Qed.

Lemma enter_keeps_worker (c : entryPoint) (e : Engine.t) :
  Engine.worker (fst (enter matchInfo c e)) = Engine.worker e.
Proof.
  destruct c as [check fen d | p fresh fen d | | n v | data | | cb | check fresh cb];
    cbn [enter]; try reflexivity.
  - unfold Engine.evaluate.
    destruct (Engine.worker e) eqn:Hw; cbn; [| exact Hw].
    destruct (Engine.ready e); cbn; exact Hw.
  - unfold Engine.evalAsync. destruct (Engine.ready e); reflexivity.
  - apply calm_onMessage.
  - destruct cb; cbn; [reflexivity |].
    unfold Engine.onEvalTimeout. destruct (Engine._resolveEval e); reflexivity.
  - unfold Engine.onInterval. destruct (Engine.ready e); [| reflexivity].
    destruct cb; reflexivity.
Qed.

(** X16: the object is marked ready by the line [readyok] and by nothing
    else, and once ready it stays ready: after any entry into the object
    [ready] holds exactly if it held before or the entry was the delivery
    of [readyok].  No entry changes whether the object has a worker. *)
Theorem ready_set_by_readyok (c : entryPoint) (e : Engine.t) :
  (Engine.ready (fst (enter matchInfo c e)) = true
   <-> Engine.ready e = true \/ c = EnterMessage (Some "readyok"))
  /\ Engine.worker (fst (enter matchInfo c e)) = Engine.worker e.
Proof.
  assert (Hsame : forall e' : Engine.t,
            (forall data, c <> EnterMessage data) ->
            Engine.ready e' = Engine.ready e ->
            Engine.ready e' = true
            <-> Engine.ready e = true \/ c = EnterMessage (Some "readyok")).
  { intros e' Hc ->. split; [auto |]. intros [? | Hm]; [assumption |].
    now destruct (Hc _ Hm). }
  destruct c as [check fen d | p fresh fen d | | n v | data | | cb | check fresh cb];
    cbn [enter].
  - unfold Engine.evaluate.
    destruct (Engine.worker e) eqn:Hw; cbn;
      [| split; [apply Hsame; [discriminate | reflexivity] | exact Hw]].
    destruct (Engine.ready e) eqn:Hr; cbn;
      (split; [apply Hsame; [discriminate | auto] | exact Hw]).
  - unfold Engine.evalAsync.
    destruct (Engine.ready e) eqn:Hr; cbn;
      (split; [apply Hsame; [discriminate | auto] | reflexivity]).
  - cbn. split; [apply Hsame; [discriminate | reflexivity] | reflexivity].
  - cbn. split; [apply Hsame; [discriminate | reflexivity] | reflexivity].
  - destruct (calm_onMessage data e) as (_ & Hw & Hr). split; [| exact Hw].
    rewrite Hr, orb_true_iff, bool_decide_eq_true.
    split; (intros [? | Hd]; [left; assumption | right; congruence]).
  - cbn. split; [apply Hsame; [discriminate | reflexivity] | reflexivity].
  - destruct cb; cbn;
      [split; [apply Hsame; [discriminate | reflexivity] | reflexivity] |].
    unfold Engine.onEvalTimeout. destruct (Engine._resolveEval e); cbn;
      (split; [apply Hsame; [discriminate | reflexivity] | reflexivity]).
  - unfold Engine.onInterval.
    destruct (Engine.ready e) eqn:Hr;
      [| cbn; split; [apply Hsame; [discriminate | auto] | reflexivity]].
    destruct cb; cbn;
      (split; [apply Hsame; [discriminate | auto] | reflexivity]).
Qed.

(** X17: while the object is not ready, no entry into it sends the worker a
    [go] command: a search is started only once [readyok] has arrived.
    Requests made earlier are parked in a readiness poll instead. *)
Theorem search_only_when_ready (c : entryPoint) (e : Engine.t) :
  Engine.ready e = false ->
  Forall (fun x => startsSearch x = false) (snd (enter matchInfo c e)).
Proof.
  intros Hr.
  destruct c as [check fen d | p fresh fen d | | n v | data | | cb | check fresh cb];
    cbn [enter].
  - unfold Engine.evaluate. rewrite Hr.
    destruct (Engine.worker e); cbn; repeat constructor.
  - unfold Engine.evalAsync. rewrite Hr. cbn. repeat constructor.
  - cbn. destruct (Engine.worker e); repeat constructor.
  - cbn. destruct (Engine.worker e); repeat constructor.
  - apply calm_onMessage.
  - cbn. repeat constructor.
  - destruct cb; cbn.
    + destruct (Engine.worker e); repeat constructor.
    + unfold Engine.onEvalTimeout. destruct (Engine._resolveEval e); cbn;
        [| constructor].
      destruct (Engine.worker e); repeat constructor.
  - unfold Engine.onInterval. rewrite Hr. constructor.
Qed.

End EngineEntry.

Lemma search_only_when_ready_witness :
  Engine.ready (fst (Engine.create true true 0)) = false
  /\ Forall (fun x => startsSearch x = false)
            (snd (enter noMatch (EnterEvalAsync 1 2 startFen 12)
                        (fst (Engine.create true true 0))))
  /\ Forall (fun x => startsSearch x = false)
            (snd (enter noMatch (EnterSetOption "Skill Level" "go")
                        (fst (Engine.create true true 0)))).
Proof.
  split; [reflexivity |].
  split.
  - apply (search_only_when_ready noMatch (EnterEvalAsync 1 2 startFen 12)
             (fst (Engine.create true true 0)) eq_refl).
  - apply (search_only_when_ready noMatch (EnterSetOption "Skill Level" "go")
             (fst (Engine.create true true 0)) eq_refl).
Defined.

(** ** The safety timer of an awaited evaluation *)

Section SafetyTimer.
Variable matchInfo : string -> Engine.info_match.

Lemma absorb_frame who why (effs : list Engine.effect) (s : Session.sys) :
  Session.eng (fold_left (Session.absorb who why) effs s) = Session.eng s
  /\ Session.next_id (fold_left (Session.absorb who why) effs s)
     = Session.next_id s
  /\ Session.log (fold_left (Session.absorb who why) effs s)
     = Session.log s ++ omap (entryOf why) effs.
Proof.
  revert s. induction effs as [| x rest IH]; intros s; cbn [fold_left].
  - cbn. rewrite app_nil_r. auto.
  - destruct (IH (Session.absorb who why s x)) as (He & Hn & Hl).
    rewrite He, Hn, Hl.
    destruct x; cbn; rewrite <- ?app_assoc; auto.
    unfold Session.deliver_post. destruct (Session.wk s) as [w |]; [| auto].
    destruct (Session.react who msg w). auto.
Qed.

Lemma absorb_timerFree who why (effs : list Engine.effect) (s : Session.sys) :
  Forall timerFree effs ->
  Session.timeouts (fold_left (Session.absorb who why) effs s)
  = Session.timeouts s.
Proof.
  revert s. induction effs as [| x rest IH]; intros s Hall; [auto |].
  inversion Hall as [| ? ? Hx Hrest]; subst. cbn [fold_left].
  rewrite (IH (Session.absorb who why s x) Hrest).
  destruct x; cbn in Hx |- *; try contradiction; auto.
  unfold Session.deliver_post. destruct (Session.wk s) as [w |]; [| auto].
  destruct (Session.react who msg w). auto.
Qed.

Lemma absorb_polls who why (effs : list Engine.effect) (s : Session.sys) :
  Forall noAsyncPoll effs ->
  Forall (fun x => pollPromise x = None) (Session.intervals s) ->
  Forall (fun x => pollPromise x = None)
         (Session.intervals (fold_left (Session.absorb who why) effs s)).
Proof.
  revert s. induction effs as [| x rest IH]; intros s Hall Hiv; [exact Hiv |].
  inversion Hall as [| ? ? Hx Hrest]; subst. cbn [fold_left].
  apply IH; [exact Hrest |].
  destruct x; cbn in Hx |- *; trivial.
  - unfold Session.deliver_post. destruct (Session.wk s) as [w |]; [| exact Hiv].
    destruct (Session.react who msg w). exact Hiv.
  - apply Forall_app. split; [exact Hiv |]. repeat constructor.
    destruct cb; [reflexivity | contradiction].
  - now apply Forall_filter_keep.
Qed.

Lemma scheduleFree_split (effs : list Engine.effect) :
  Forall scheduleFree effs -> Forall timerFree effs /\ Forall noAsyncPoll effs.
Proof.
  intros Hall. split; (eapply Forall_impl; [exact Hall |]);
    intros x Hx; destruct x; cbn in *; trivial; contradiction.
Qed.

Lemma absorb_timers who why (n : nat) (effs : list Engine.effect)
    (s : Session.sys) :
  Forall (timerBelow n) effs ->
  Forall (fun x => (fst x < n)%nat) (Session.timeouts s) ->
  Forall (fun x => (fst x < n)%nat)
         (Session.timeouts (fold_left (Session.absorb who why) effs s)).
Proof.
  revert s. induction effs as [| x rest IH]; intros s Hall Hts; [exact Hts |].
  inversion Hall as [| ? ? Hx Hrest]; subst. cbn [fold_left].
  apply IH; [exact Hrest |].
  destruct x; cbn in Hx |- *; trivial.
  - unfold Session.deliver_post. destruct (Session.wk s) as [w |]; [| exact Hts].
    destruct (Session.react who msg w). exact Hts.
  - apply Forall_app. split; [exact Hts |]. repeat constructor. exact Hx.
  - now apply Forall_filter_keep.
Qed.

Lemma scheduleFree_post (e : Engine.t) (msgs : list string) :
  Forall scheduleFree (Engine.post e msgs).
Proof.
  unfold Engine.post. destruct (Engine.worker e).
  - induction msgs; cbn; constructor; cbn; auto.
  - repeat constructor.
Qed.

Lemma scheduleFree_below (n : nat) (effs : list Engine.effect) :
  Forall scheduleFree effs -> Forall (timerBelow n) effs.
Proof.
  intros Hall. eapply Forall_impl; [exact Hall |].
  intros x Hx. destruct x; cbn in *; trivial; contradiction.
Qed.

Lemma resolved_log_grows who why (r : Engine.t * list Engine.effect)
    (s : Session.sys) (p : nat) :
  p ∈ Session.resolved (Session.log s) ->
  p ∈ Session.resolved (Session.log (Session.perform who why r s)).
Proof.
  intros Hp. unfold Session.perform.
  destruct (absorb_frame who why (snd r) (Session.with_eng (fst r) s))
    as (_ & _ & ->).
  unfold Session.resolved in *. rewrite omap_app, elem_of_app. left. exact Hp.
Qed.

Lemma resolved_by_effect who why (e' : Engine.t) (effs : list Engine.effect)
    (s : Session.sys) (p : nat) (r : Engine.result) :
  Engine.Resolve p r ∈ effs ->
  p ∈ Session.resolved (Session.log (Session.perform who why (e', effs) s)).
Proof.
  intros Hin. unfold Session.perform. cbn [fst snd].
  destruct (absorb_frame who why effs (Session.with_eng e' s)) as (_ & _ & ->).
  unfold Session.resolved. rewrite omap_app, elem_of_app. right.
  apply list_elem_of_omap. exists (Session.Resolved p r why). split; [| reflexivity].
  apply list_elem_of_omap. exists (Engine.Resolve p r). split; [exact Hin | reflexivity].
Qed.

Lemma scheduleFree_onInfo (line : string) (e : Engine.t) :
  Forall scheduleFree (snd (Engine.onInfo matchInfo line e)).
Proof.
  unfold Engine.onInfo.
  destruct (Engine.depthMatch _); [| constructor].
  destruct (Engine.cpMatch _); cbn.
  - destruct (Engine.onUpdate e); repeat constructor.
  - destruct (Engine.mateMatch _); cbn; [| constructor].
    destruct (Engine.onUpdate e); repeat constructor.
Qed.

Lemma onMessage_other_frame (line : string) (e : Engine.t) :
  Js.startsWith line "bestmove" = false ->
  Engine._resolveEval (fst (Engine.onMessage matchInfo (Some line) e))
  = Engine._resolveEval e
  /\ Forall scheduleFree (snd (Engine.onMessage matchInfo (Some line) e)).
Proof.
  intros Hb. unfold Engine.onMessage. rewrite Hb.
  destruct (String.eqb line "uciok" && negb (Engine.worker e));
    [split; [reflexivity | repeat constructor] |].
  set (e2 := if String.eqb line "readyok" then _ else e).
  assert (He2 : Engine._resolveEval e2 = Engine._resolveEval e)
    by (subst e2; destruct (String.eqb line "readyok"); reflexivity).
  rewrite <- He2.
  assert (Ho1 : Forall scheduleFree
            (if String.eqb line "uciok" then [Engine.Post "isready"] else []))
    by (destruct (String.eqb line "uciok"); repeat constructor).
  assert (Ho2 : Forall scheduleFree
            (if String.eqb line "readyok"
             then [Engine.ConsoleLog "Stockfish engine ready."] else []))
    by (destruct (String.eqb line "readyok"); repeat constructor).
  destruct (quiet_onInfo matchInfo line e2) as [Hrs _].
  pose proof (scheduleFree_onInfo line e2) as Hq.
  destruct (Js.startsWith line "info" && Js.includes line " score ").
  - destruct (Engine.onInfo matchInfo line e2) as [[returned e3] o3].
    cbn [fst snd] in Hq, Hrs.
    destruct returned; cbn [fst snd]; rewrite !Forall_app; auto.
  - cbn [fst snd]. rewrite !Forall_app. auto.
Qed.

Lemma onBestmove_frame (line : string) (e : Engine.t) :
  (exists p r, Engine._resolveEval e = Some p
               /\ Engine.Resolve p r ∈ snd (Engine.onBestmove line e))
  \/ (Engine._resolveEval (fst (Engine.onBestmove line e))
      = Engine._resolveEval e
      /\ snd (Engine.onBestmove line e) = []).
Proof.
  unfold Engine.onBestmove.
  set (e1 := if _ && _ then Engine.with_best _ e else e).
  assert (He1 : Engine._resolveEval e1 = Engine._resolveEval e)
    by (subst e1; destruct (_ && _); reflexivity).
  rewrite <- He1.
  destruct (Engine._isAsyncSearch e1); [| right; split; reflexivity].
  destruct (Engine._resolveEval e1) as [q |] eqn:Eq;
    [| right; split; [exact Eq | reflexivity]].
  left. exists q. eexists. split; [reflexivity |]. cbn [snd].
  apply elem_of_app. right. apply list_elem_of_singleton. reflexivity.
Qed.

Lemma timerBelow_onMessage (n : nat) (data : option string) (e : Engine.t) :
  Forall (timerBelow n) (snd (Engine.onMessage matchInfo data e)).
Proof.
  destruct data as [line |]; [| constructor].
  destruct (Js.startsWith line "bestmove") eqn:Hb.
  - rewrite (onMessage_bestmove matchInfo line e Hb).
    unfold Engine.onBestmove.
    destruct (Engine._isAsyncSearch _); [| constructor].
    destruct (Engine._resolveEval _); [| constructor]. cbn [snd].
    destruct (Engine._evalTimeout _); repeat constructor.
  - apply scheduleFree_below. now apply onMessage_other_frame.
Qed.

Lemma find_id_filter_other {A} (id k : nat) (l : list (nat * A)) :
  id <> k ->
  Session.find_id k (filter (fun x => negb (fst x =? id)%nat) l)
  = Session.find_id k l.
Proof.
  intros Hne. unfold Session.find_id.
  induction l as [| [i a] rest IH]; [reflexivity |].
  rewrite !filter_cons. cbn [fst].
  destruct (Nat.eqb_spec i id) as [-> | Hi]; cbn [negb].
  - destruct (decide (Is_true false)) as [[] | _].
    destruct (Nat.eqb_spec id k) as [? | _]; [contradiction |].
    destruct (decide (Is_true false)) as [[] | _]. exact IH.
  - destruct (decide (Is_true true)) as [_ | Hn]; [| destruct Hn; exact I].
    rewrite !filter_cons. cbn [fst].
    destruct (Nat.eqb_spec i k) as [-> | Hk].
    + destruct (decide (Is_true true)) as [_ | Hn]; [| destruct Hn; exact I].
      reflexivity.
    + destruct (decide (Is_true false)) as [[] | _]. exact IH.
Qed.

Lemma find_id_app_fresh {A} (k : nat) (l : list (nat * A)) (a : A) :
  Forall (fun x => (fst x < k)%nat) l ->
  Session.find_id k (l ++ [(k, a)]) = Some a.
Proof.
  intros Hl. unfold Session.find_id. rewrite filter_app.
  assert (E : filter (fun x : nat * A => (fst x =? k)%nat) l = []).
  { induction Hl as [| [i b] rest Hi _ IH]; [reflexivity |].
    rewrite filter_cons. cbn [fst] in *.
    destruct (Nat.eqb_spec i k) as [-> | _]; [lia |].
    destruct (decide (Is_true false)) as [[] | _]. exact IH. }
  rewrite E. cbn [app]. rewrite filter_cons. cbn [fst].
  rewrite Nat.eqb_refl.
  destruct (decide (Is_true true)) as [_ | Hn]; [| destruct Hn; exact I].
  reflexivity.
Qed.


Lemma perform_frame who why (r : Engine.t * list Engine.effect)
    (s : Session.sys) :
  Session.eng (Session.perform who why r s) = fst r
  /\ Session.next_id (Session.perform who why r s) = Session.next_id s.
Proof.
  unfold Session.perform.
  destruct (absorb_frame who why (snd r) (Session.with_eng (fst r) s))
    as (-> & -> & _).
  split; reflexivity.
Qed.

Lemma perform_timerFree who why (r : Engine.t * list Engine.effect)
    (s : Session.sys) :
  Forall timerFree (snd r) ->
  Session.timeouts (Session.perform who why r s) = Session.timeouts s.
Proof.
  intros Hall. unfold Session.perform.
  now rewrite absorb_timerFree.
Qed.

Lemma perform_polls who why (r : Engine.t * list Engine.effect)
    (s : Session.sys) :
  Forall noAsyncPoll (snd r) ->
  Forall (fun x => pollPromise x = None) (Session.intervals s) ->
  Forall (fun x => pollPromise x = None)
         (Session.intervals (Session.perform who why r s)).
Proof.
  intros Hall Hiv. unfold Session.perform. now apply absorb_polls.
Qed.

Lemma perform_issued who why (r : Engine.t * list Engine.effect)
    (s : Session.sys) :
  Forall (timerBelow (Session.next_id s)) (snd r) ->
  timersIssued s -> timersIssued (Session.perform who why r s).
Proof.
  intros Hall Hts. unfold timersIssued.
  destruct (perform_frame who why r s) as [_ ->].
  unfold Session.perform. now apply absorb_timers.
Qed.

Lemma timersIssued_later (s : Session.sys) (n : nat) :
  (Session.next_id s <= n)%nat ->
  timersIssued s -> timersIssued (Session.with_next n s).
Proof.
  intros Hn Hts. unfold timersIssued in *. cbn.
  eapply Forall_impl; [exact Hts |]. intros x Hx. cbn in Hx. lia.
Qed.

Lemma timerBelow_post (n : nat) (e : Engine.t) (msgs : list string) :
  Forall (timerBelow n) (Engine.post e msgs).
Proof. apply scheduleFree_below, scheduleFree_post. Qed.

Lemma timersIssued_step (s : Session.sys) (ev : Session.event) :
  timersIssued s -> timersIssued (Session.step matchInfo s ev).
Proof.
  intros Hts. destruct ev; cbn [Session.step].
  - apply perform_issued; [| apply timersIssued_later; [cbn; lia | exact Hts]].
    unfold Engine.evaluate. destruct (negb _); [constructor |].
    destruct (negb _); [repeat constructor |]. apply timerBelow_post.
  - apply perform_issued; [| apply timersIssued_later; [cbn; lia | exact Hts]].
    unfold Engine.evalAsync. destruct (negb _); [repeat constructor |].
    cbn [snd Engine.waitReady Session.with_next Session.next_id].
    constructor; [cbn; lia | apply timerBelow_post].
  - apply perform_issued; [| exact Hts]. cbn.
    destruct (Engine.worker _); repeat constructor.
  - apply perform_issued; [| exact Hts]. cbn.
    destruct (Engine.worker _); repeat constructor.
  - destruct (Session.channel s) as [| [o line] rest]; [exact Hts |].
    apply perform_issued; [apply timerBelow_onMessage | exact Hts].
  - destruct (Session.find_id id (Session.timeouts s)) as [[cb o] |];
      [| exact Hts].
    apply perform_issued.
    + destruct cb; cbn.
      * destruct (Engine.worker _); repeat constructor.
      * unfold Engine.onEvalTimeout. destruct (Engine._resolveEval _);
          [| constructor].
        cbn. destruct (Engine.worker _); repeat constructor.
    + unfold timersIssued. cbn. now apply Forall_filter_keep.
  - destruct (Session.find_id id (Session.intervals s)) as [cb |];
      [| exact Hts].
    apply perform_issued; [| apply timersIssued_later; [cbn; lia | exact Hts]].
    unfold Engine.onInterval. destruct (Engine.ready _); [| constructor].
    destruct cb; cbn [Engine._doEval Engine.waitReady snd Session.with_next
                       Session.next_id].
    + constructor; [exact I | apply timerBelow_post].
    + constructor; [exact I |]. constructor; [cbn; lia | apply timerBelow_post].
  - destruct (Session.wk s) as [w |]; [| exact Hts].
    destruct (Session.alive w), (Session.searching w); exact Hts.
  - destruct (Session.wk s) as [w |]; [| exact Hts].
    destruct (Session.alive w), (Session.searching w); exact Hts.
  - apply perform_issued; [| exact Hts]. repeat constructor.
Qed.

Ltac frame_eng :=
  match goal with
  | |- context [Session.perform ?who ?why ?r ?s'] =>
      destruct (perform_frame who why r s') as [-> _]
  end.

Lemma worker_step (s : Session.sys) (ev : Session.event) :
  Engine.worker (Session.eng (Session.step matchInfo s ev))
  = Engine.worker (Session.eng s).
Proof.
  destruct ev as [fen d | fen d | | n v | | id | id | line best | |];
    cbn [Session.step].
  - frame_eng. apply (enter_keeps_worker matchInfo (EnterEvaluate _ fen d)).
  - frame_eng. apply (enter_keeps_worker matchInfo (EnterEvalAsync _ _ fen d)).
  - frame_eng. reflexivity.
  - frame_eng. reflexivity.
  - destruct (Session.channel s) as [| [o line] rest]; [reflexivity |].
    frame_eng. apply (enter_keeps_worker matchInfo (EnterMessage (Some line))).
  - destruct (Session.find_id id (Session.timeouts s)) as [[cb o] |];
      [| reflexivity].
    frame_eng. apply (enter_keeps_worker matchInfo (EnterTimeout cb)).
  - destruct (Session.find_id id (Session.intervals s)) as [cb |];
      [| reflexivity].
    frame_eng. apply (enter_keeps_worker matchInfo (EnterInterval id _ cb)).
  - destruct (Session.wk s) as [w |]; [| reflexivity].
    destruct (Session.alive w), (Session.searching w); reflexivity.
  - destruct (Session.wk s) as [w |]; [| reflexivity].
    destruct (Session.alive w), (Session.searching w); reflexivity.
  - frame_eng. reflexivity.
Qed.

Lemma session_invariants (hasOnUpdate loads : bool) (evs : list Session.event) :
  Engine.worker (Session.eng (Session.run matchInfo evs
                                (Session.boot hasOnUpdate true loads))) = true
  /\ timersIssued (Session.run matchInfo evs
                     (Session.boot hasOnUpdate true loads)).
Proof.
  assert (Hgen : forall s,
            Engine.worker (Session.eng s) = true /\ timersIssued s ->
            Engine.worker (Session.eng (Session.run matchInfo evs s)) = true
            /\ timersIssued (Session.run matchInfo evs s)).
  { induction evs as [| ev rest IH]; intros s Hs; [exact Hs |].
    cbn. apply IH. destruct Hs as [Hw Hts]. split.
    - now rewrite worker_step.
    - now apply timersIssued_step. }
  apply Hgen. split; [reflexivity |].
  unfold timersIssued. cbn. repeat constructor.
Qed.

Lemma resolved_step_grows (s : Session.sys) (ev : Session.event) (p : nat) :
  p ∈ Session.resolved (Session.log s) ->
  p ∈ Session.resolved (Session.log (Session.step matchInfo s ev)).
Proof.
  intros Hp.
  destruct ev as [fen d | fen d | | n v | | id | id | line best | |];
    cbn [Session.step]; try (apply resolved_log_grows; exact Hp).
  - destruct (Session.channel s) as [| [o line] rest]; [exact Hp |].
    apply resolved_log_grows. exact Hp.
  - destruct (Session.find_id id (Session.timeouts s)) as [[cb o] |];
      [| exact Hp].
    apply resolved_log_grows. exact Hp.
  - destruct (Session.find_id id (Session.intervals s)) as [cb |];
      [| exact Hp].
    apply resolved_log_grows. exact Hp.
  - destruct (Session.wk s) as [w |]; [| exact Hp].
    destruct (Session.alive w), (Session.searching w); exact Hp.
  - destruct (Session.wk s) as [w |]; [| exact Hp].
    destruct (Session.alive w), (Session.searching w); exact Hp.
Qed.

Lemma awaited_perform who why (e' : Engine.t) (effs : list Engine.effect)
    (s : Session.sys) (p : nat) :
  Engine._resolveEval e' = Some p ->
  Engine.worker e' = true ->
  Engine.ready e' = true ->
  Forall scheduleFree effs ->
  (exists o, Session.find_id (S p) (Session.timeouts s)
             = Some (Engine.CbEvalTimeout, o)) ->
  Forall (fun x => pollPromise x = None) (Session.intervals s) ->
  awaited p (Session.perform who why (e', effs) s).
Proof.
  intros Hrs Hw Hr Hfree Htm Hiv.
  destruct (scheduleFree_split effs Hfree) as [Ht Hp].
  unfold awaited.
  destruct (perform_frame who why (e', effs) s) as [-> _].
  rewrite (perform_timerFree who why (e', effs) s Ht).
  repeat split; trivial.
  now apply perform_polls.
Qed.

Lemma onMessage_await (line : string) (e : Engine.t) :
  (exists p r, Engine._resolveEval e = Some p
               /\ Engine.Resolve p r
                  ∈ snd (Engine.onMessage matchInfo (Some line) e))
  \/ (Engine._resolveEval (fst (Engine.onMessage matchInfo (Some line) e))
      = Engine._resolveEval e
      /\ Forall scheduleFree (snd (Engine.onMessage matchInfo (Some line) e))).
Proof.
  destruct (Js.startsWith line "bestmove") eqn:Hb.
  - rewrite (onMessage_bestmove matchInfo line e Hb).
    destruct (onBestmove_frame line e) as [Hres | [Hrs Hnil]];
      [left; exact Hres | right].
    split; [exact Hrs |]. rewrite Hnil. constructor.
  - right. now apply onMessage_other_frame.
Qed.

Lemma awaited_step (s : Session.sys) (ev : Session.event) (p : nat) :
  noNewAwait ev ->
  p ∈ Session.resolved (Session.log s) \/ awaited p s ->
  p ∈ Session.resolved (Session.log (Session.step matchInfo s ev))
  \/ awaited p (Session.step matchInfo s ev).
Proof.
  intros Hev [Hp | Haw]; [left; now apply resolved_step_grows |].
  destruct Haw as (Hrs & Hw & Hr & Htm & Hiv).
  destruct ev as [fen d | fen d | | n v | | id | id | line best | |];
    cbn [Session.step].
  - (* evaluate on a ready engine *)
    right. unfold Engine.evaluate. rewrite Hw, Hr. cbn [negb Engine._doEval].
    apply awaited_perform; trivial. apply scheduleFree_post.
  - destruct Hev.
  - right. unfold Engine.stop. rewrite Hw.
    apply awaited_perform; trivial. repeat constructor.
  - right. unfold Engine.setOption. rewrite Hw.
    apply awaited_perform; trivial. repeat constructor.
  - (* a delivery *)
    destruct (Session.channel s) as [| [o line] rest];
      [right; repeat split; assumption |].
    destruct (calm_onMessage matchInfo (Some line) (Session.eng s))
      as (_ & Hw' & Hr').
    destruct (onMessage_await line (Session.eng s))
      as [(q & r & Hq & Hin) | [Hrs' Hfree]].
    + left. rewrite Hrs in Hq. injection Hq as <-.
      destruct (Engine.onMessage matchInfo (Some line) (Session.eng s))
        as [e' effs].
      eapply resolved_by_effect. exact Hin.
    + right.
      destruct (Engine.onMessage matchInfo (Some line) (Session.eng s))
        as [e' effs].
      cbn [fst snd] in *.
      apply awaited_perform; trivial; try congruence.
      rewrite Hr', Hr. reflexivity.
  - (* a timer *)
    destruct (Session.find_id id (Session.timeouts s)) as [[cb o] |] eqn:F;
      [| right; repeat split; assumption].
    destruct cb; cbn [Engine.onTimeout].
    + right. rewrite Hw.
      apply awaited_perform; trivial; [repeat constructor |].
      destruct Htm as [o' Ho']. exists o'. cbn [Session.with_timeouts Session.timeouts].
      rewrite find_id_filter_other; [exact Ho' |].
      intros ->. rewrite F in Ho'. discriminate.
    + left. unfold Engine.onEvalTimeout. rewrite Hrs, Hw.
      eapply resolved_by_effect. right. left.
  - (* a readiness poll *)
    destruct (Session.find_id id (Session.intervals s)) as [cb |] eqn:F;
      [| right; repeat split; assumption].
    assert (Hcb : pollPromise (id, cb) = None).
    { apply (find_id_Forall (fun c => pollPromise (id, c) = None) id
               (Session.intervals s) cb); [| exact F].
      eapply Forall_impl; [exact Hiv |]. intros x Hx. exact Hx. }
    destruct cb as [fen d | q fen d]; [| discriminate].
    right. unfold Engine.onInterval. rewrite Hr. cbn [Engine._doEval].
    unfold awaited.
    match goal with
    | |- context [Session.perform ?who ?why ?r ?s'] =>
        destruct (perform_frame who why r s') as [-> _];
        rewrite (perform_timerFree who why r s');
        [| constructor; [exact I |];
           apply (proj1 (scheduleFree_split _ (scheduleFree_post _ _)))]
    end.
    repeat split; trivial.
    apply perform_polls; [| exact Hiv].
    constructor; [exact I |].
    apply (proj2 (scheduleFree_split _ (scheduleFree_post _ _))).
  - (* worker progress *)
    right. destruct (Session.wk s) as [w |]; [| repeat split; assumption].
    destruct (Session.alive w), (Session.searching w); repeat split; assumption.
  - right. destruct (Session.wk s) as [w |]; [| repeat split; assumption].
    destruct (Session.alive w), (Session.searching w); repeat split; assumption.
  - right. unfold Engine.onError.
    apply awaited_perform; trivial. repeat constructor.
Qed.

Lemma awaited_run (evs : list Session.event) (s : Session.sys) (p : nat) :
  Forall noNewAwait evs ->
  p ∈ Session.resolved (Session.log s) \/ awaited p s ->
  p ∈ Session.resolved (Session.log (Session.run matchInfo evs s))
  \/ awaited p (Session.run matchInfo evs s).
Proof.
  intros Hall. revert s.
  induction Hall as [| ev rest Hev _ IH]; intros s Hs; [exact Hs |].
  cbn. apply IH, awaited_step; assumption.
Qed.

Lemma awaited_call (s : Session.sys) (fen : string) (d : Z) :
  Engine.ready (Session.eng s) = true ->
  Engine.worker (Session.eng s) = true ->
  timersIssued s ->
  Forall (fun x => pollPromise x = None) (Session.intervals s) ->
  awaited (Session.next_id s)
          (Session.step matchInfo s (Session.CallEvalAsync fen d)).
Proof.
  intros Hr Hw Hts Hiv. cbn [Session.step].
  unfold Engine.evalAsync. rewrite Hr. cbn [negb].
  unfold Session.perform, Engine.waitReady. cbn [fst snd fold_left Session.absorb].
  match goal with
  | |- awaited _ (fold_left _ (Engine.post ?e1 ?msgs) ?s1) =>
      pose proof (scheduleFree_split _ (scheduleFree_post e1 msgs)) as [Ht Hp];
      destruct (absorb_frame (Session.Request (Session.next_id s)) Session.Call
                  (Engine.post e1 msgs) s1) as (He & _ & _);
      pose proof (absorb_timerFree (Session.Request (Session.next_id s))
                    Session.Call (Engine.post e1 msgs) s1 Ht) as Htm;
      pose proof (absorb_polls (Session.Request (Session.next_id s))
                    Session.Call (Engine.post e1 msgs) s1 Hp) as Hpl
  end.
  unfold awaited. rewrite He, Htm. cbn. repeat split; trivial.
  - eexists. apply find_id_app_fresh.
    eapply Forall_impl; [exact Hts |]. intros x Hx. cbn in Hx. lia.
  - apply Hpl. exact Hiv.
Qed.

Lemma awaited_fire (s : Session.sys) (p : nat) :
  p ∈ Session.resolved (Session.log s) \/ awaited p s ->
  p ∈ Session.resolved
        (Session.log (Session.step matchInfo s (Session.TimerFires (S p)))).
Proof.
  intros [Hp | (Hrs & Hw & _ & [o Htm] & _)]; [now apply resolved_step_grows |].
  cbn [Session.step]. rewrite Htm. cbn [Engine.onTimeout].
  unfold Engine.onEvalTimeout. rewrite Hrs, Hw.
  eapply resolved_by_effect. right. left.
Qed.

(** X18: the safety timeout makes an awaited evaluation end.  In a session
    whose worker was created, if [evalAsync] is called while the engine is
    ready and no earlier awaited evaluation is still parked in a readiness
    poll, then, whatever the worker does or fails to do and whatever else
    the page calls apart from another [evalAsync], the promise is resolved
    at the latest when its ten-second timer fires. *)
Theorem safety_timeout_resolves (hasOnUpdate loads : bool)
    (pre evs : list Session.event) (fen : string) (d : Z) :
  Engine.ready (Session.eng (Session.run matchInfo pre
                               (Session.boot hasOnUpdate true loads))) = true ->
  Forall (fun x => pollPromise x = None)
         (Session.intervals (Session.run matchInfo pre
                               (Session.boot hasOnUpdate true loads))) ->
  Forall noNewAwait evs ->
  Session.next_id (Session.run matchInfo pre
                     (Session.boot hasOnUpdate true loads))
  ∈ Session.resolved
      (Session.log
         (Session.run matchInfo
            (pre ++ [Session.CallEvalAsync fen d] ++ evs
             ++ [Session.TimerFires
                   (S (Session.next_id
                         (Session.run matchInfo pre
                            (Session.boot hasOnUpdate true loads))))])
            (Session.boot hasOnUpdate true loads))).
Proof.
  intros Hr Hiv Hevs.
  destruct (session_invariants hasOnUpdate loads pre) as [Hw Hts].
  set (s := Session.run matchInfo pre (Session.boot hasOnUpdate true loads)) in *.
  unfold Session.run at 1. rewrite !fold_left_app. cbn [fold_left].
  fold (Session.run matchInfo pre (Session.boot hasOnUpdate true loads)).
  fold s.
  apply awaited_fire.
  apply (awaited_run evs); [exact Hevs |]. right.
  now apply awaited_call.
Qed.

End SafetyTimer.

Lemma safety_timeout_resolves_witness :
  Engine.ready (Session.eng (Session.run noMatch handshake
                               (Session.boot true true true))) = true
  /\ 1%nat
     ∈ Session.resolved
         (Session.log
            (Session.run noMatch
               (handshake ++ [Session.CallEvalAsync startFen 12]
                ++ [Session.WorkerInfo "info string thinking" "e2e4";
                    Session.Deliver; Session.CallEvaluate afterE4Fen 14]
                ++ [Session.TimerFires 2])
               (Session.boot true true true))).
Proof.
  split; [reflexivity |].
  apply (safety_timeout_resolves noMatch true true handshake
           [Session.WorkerInfo "info string thinking" "e2e4";
            Session.Deliver; Session.CallEvaluate afterE4Fen 14]
           startFen 12%Z).
  - reflexivity.
  - vm_compute. constructor.
  - repeat constructor.
Defined.

(** ** The play screen's strength tables and the overlay's coordinates *)

(** X19: a stronger bot is never given a lower skill level or a shallower
    search; the skill level stays within 0..20 and the depth within
    1..20, and the depth never exceeds the skill level by more than one. *)
Theorem elo_tables_monotone (elo elo' : Z) :
  (elo <= elo')%Z ->
  (eloToSkill elo <= eloToSkill elo')%Z
  /\ (eloToDepth elo <= eloToDepth elo')%Z
  /\ (0 <= eloToSkill elo <= 20)%Z
  /\ (1 <= eloToDepth elo <= 20)%Z
  /\ (eloToDepth elo <= eloToSkill elo + 1)%Z.
Proof.
  intros Hle. unfold eloToSkill, eloToDepth.
  repeat match goal with
         | |- context [(?a <=? ?b)%Z] => destruct (Z.leb_spec a b)
         end; lia.
Qed.

Lemma elo_tables_monotone_witness :
  (1200 <= 1350)%Z
  /\ (eloToSkill 1200 <= eloToSkill 1350)%Z
  /\ (eloToDepth 1200 <= eloToDepth 1350)%Z.
Proof.
  pose proof (elo_tables_monotone 1200 1350 ltac:(lia)) as (Hs & Hd & _).
  split; [lia |]. split; [exact Hs | exact Hd].
Defined.

Lemma nat_of_ascii_inj (a b : ascii) : nat_of_ascii a = nat_of_ascii b -> a = b.
Proof.
  intros Hab. rewrite <- (ascii_nat_embedding a), <- (ascii_nat_embedding b).
  now rewrite Hab.
Qed.

Lemma isSquare_inv (sq : string) :
  isSquare sq = true ->
  exists f r, sq = String f (String r EmptyString)
              /\ (97 <= nat_of_ascii f <= 104)%nat
              /\ (49 <= nat_of_ascii r <= 56)%nat.
Proof.
  destruct sq as [| f [| r [| ? ?]]]; intros Hsq;
    cbv beta iota delta [isSquare] in Hsq; try discriminate Hsq.
  rewrite !andb_true_iff, !Nat.leb_le in Hsq. destruct Hsq as [[[? ?] ?] ?].
  exists f, r. repeat split; assumption.
Qed.

Lemma squareToCoords_square (flip : bool) (f r : ascii) :
  (49 <= nat_of_ascii r <= 56)%nat ->
  squareToCoords flip (String f (String r EmptyString))
  = if flip
    then (Some ((7 - (Z.of_nat (nat_of_ascii f) - 97)) * 100 + 50)%Z,
          Some ((Z.of_nat (nat_of_ascii r) - 48 - 1) * 100 + 50)%Z)
    else (Some ((Z.of_nat (nat_of_ascii f) - 97) * 100 + 50)%Z,
          Some ((7 - (Z.of_nat (nat_of_ascii r) - 48 - 1)) * 100 + 50)%Z).
Proof.
  intros Hr. unfold squareToCoords, parseDigit. cbn [String.get Nat.eqb].
  change (String.get 1 (String f (String r ""))) with (Some r).
  destruct (Nat.leb_spec 48 (nat_of_ascii r)); [| lia].
  destruct (Nat.leb_spec (nat_of_ascii r) 57); [| lia].
  destruct flip; reflexivity.
Qed.

(** X20: on every square name the arrow guard accepts, [squareToCoords]
    returns the centre of a cell of the 800x800 board: both coordinates
    are defined, lie between 50 and 750 and are 50 more than a multiple of
    100; flipping the board mirrors the point through the centre; and
    different squares get different points. *)
Theorem squareToCoords_on_board (flip : bool) (sq : string) :
  isSquare sq = true ->
  exists x y,
    squareToCoords flip sq = (Some x, Some y)
    /\ squareToCoords (negb flip) sq = (Some (800 - x)%Z, Some (800 - y)%Z)
    /\ (50 <= x <= 750)%Z /\ (50 <= y <= 750)%Z
    /\ (x mod 100 = 50)%Z /\ (y mod 100 = 50)%Z
    /\ (forall sq', isSquare sq' = true ->
                    squareToCoords flip sq' = (Some x, Some y) -> sq' = sq).
Proof.
  intros Hsq. destruct (isSquare_inv sq Hsq) as (f & r & -> & Hf & Hr).
  rewrite !squareToCoords_square by exact Hr.
  assert (Hmod : forall k : Z, ((k * 100 + 50) mod 100 = 50)%Z).
  { intros k. rewrite Z.add_comm, Z.mod_add by lia. reflexivity. }
  destruct flip; cbn [negb]; eexists _, _;
    (split; [reflexivity |]);
    (split; [f_equal; f_equal; lia |]);
    (split; [lia |]); (split; [lia |]);
    (split; [apply Hmod |]); (split; [apply Hmod |]);
    intros sq' Hsq' Heq;
    destruct (isSquare_inv sq' Hsq') as (f' & r' & -> & Hf' & Hr');
    rewrite squareToCoords_square in Heq by exact Hr';
    injection Heq as Hx Hy;
    assert (nat_of_ascii f' = nat_of_ascii f) by lia;
    assert (nat_of_ascii r' = nat_of_ascii r) by lia;
    (f_equal; [now apply nat_of_ascii_inj | f_equal; now apply nat_of_ascii_inj]).
Qed.

Lemma squareToCoords_on_board_witness :
  isSquare "e4" = true
  /\ squareToCoords false "e4" = (Some 450%Z, Some 450%Z)
  /\ squareToCoords true "e4" = (Some 350%Z, Some 350%Z).
Proof.
  destruct (squareToCoords_on_board false "e4" eq_refl)
    as (x & y & Hxy & Hflip & _).
  split; [reflexivity |].
  assert (Hx : x = 450%Z /\ y = 450%Z).
  { vm_compute in Hxy. injection Hxy as <- <-. split; reflexivity. }
  destruct Hx as [-> ->]. split; [exact Hxy | exact Hflip].
Defined.

(** ** The game summary *)

Lemma parity_next (i : nat) :
  (S i mod 2 =? 0)%nat = negb (i mod 2 =? 0)%nat.
Proof.
  pose proof (Nat.mod_upper_bound i 2 ltac:(lia)).
  pose proof (Nat.mod_upper_bound (S i) 2 ltac:(lia)).
  pose proof (Nat.div_mod_eq i 2). pose proof (Nat.div_mod_eq (S i) 2).
  destruct (Nat.eqb_spec (S i mod 2) 0), (Nat.eqb_spec (i mod 2) 0);
    cbn; try reflexivity; lia.
Qed.

Lemma summaryLoop_counts (i : nat) (cs : list classification) (st : summary) :
  wCount (summaryLoop i cs st)
  = (wCount st + if (i mod 2 =? 0)%nat
                 then Nat.div2 (S (length cs)) else Nat.div2 (length cs))%nat
  /\ bCount (summaryLoop i cs st)
     = (bCount st + if (i mod 2 =? 0)%nat
                    then Nat.div2 (length cs) else Nat.div2 (S (length cs)))%nat.
Proof.
  revert i st. induction cs as [| c rest IH]; intros i st.
  - cbn [summaryLoop length Nat.div2]. destruct (i mod 2 =? 0)%nat; lia.
  - cbn [summaryLoop length]. destruct (IH (S i) (summaryStep st i c)) as [-> ->].
    rewrite parity_next. unfold summaryStep.
    destruct (i mod 2 =? 0)%nat; cbn [negb wCount bCount Nat.div2]; lia.
Qed.

Lemma alignedKey_tier (t : tier) :
  alignedKey (key t)
  = match t with
    | BRILLIANT | GREAT | BEST | GOOD | BOOK => true
    | _ => false
    end.
Proof. destruct t; vm_compute; reflexivity. Qed.

Lemma summaryKey_tier (t : tier) :
  summaryKey (key t)
  = match t with
    | GOOD | BOOK => "best"
    | _ => key t
    end.
Proof. destruct t; vm_compute; reflexivity. Qed.

Lemma tallied_step (st : summary) (i : nat) (c : classification) :
  tallied st -> tallied (summaryStep st i c).
Proof.
  intros (a1 & a2 & a3 & a4 & a5 & a6 & b1 & b2 & b3 & b4 & b5 & b6
          & Hw & Hb & Hwl & Hbl & Hwc & Hbc).
  unfold summaryStep. rewrite Hw, Hb, Hwl, Hbl, Hwc, Hbc.
  rewrite alignedKey_tier, summaryKey_tier.
  destruct (i mod 2 =? 0)%nat; destruct (cls c); unfold tallied, bucketOf;
    cbn [white black wLoss bLoss wCount bCount key bucketBump
         String.eqb Ascii.eqb Bool.eqb];
    do 12 eexists; (split; [reflexivity |]); (split; [reflexivity |]); lia.
Qed.

Lemma tallied_loop (i : nat) (cs : list classification) (st : summary) :
  tallied st -> tallied (summaryLoop i cs st).
Proof.
  revert i st. induction cs as [| c rest IH]; intros i st Hst; [exact Hst |].
  cbn [summaryLoop]. apply IH, tallied_step, Hst.
Qed.

Lemma accuracy_range (aligned count : nat) (q : Q) :
  (aligned <= count)%nat ->
  accuracyOf aligned count = Some q -> (0 <= q /\ q <= 100)%Q.
Proof.
  intros Hle. unfold accuracyOf.
  destruct (Nat.ltb_spec 0 count) as [Hpos |]; [| discriminate].
  intros [= <-].
  assert (Hc : (0 < inject_Z (Z.of_nat count))%Q).
  { change 0%Q with (inject_Z 0). rewrite <- Zlt_Qlt. lia. }
  assert (H0 : (0 <= inject_Z (Z.of_nat aligned) / inject_Z (Z.of_nat count))%Q).
  { apply Qle_shift_div_l; [exact Hc |]. rewrite Qmult_0_l.
    change 0%Q with (inject_Z 0). rewrite <- Zle_Qle. lia. }
  assert (H1 : (inject_Z (Z.of_nat aligned) / inject_Z (Z.of_nat count) <= 1)%Q).
  { apply Qle_shift_div_r; [exact Hc |]. rewrite Qmult_1_l.
    rewrite <- Zle_Qle. lia. }
  set (x := (inject_Z (Z.of_nat aligned) / inject_Z (Z.of_nat count))%Q) in *.
  split; lra.
Qed.

(** X21: the summary accounts for every move exactly once.  White's rows
    count the moves at even indices and black's the others; the six rows
    of a side add up to its number of moves (good and book moves are
    counted in the row [best]); the number of engine-aligned moves of a
    side is the sum of its rows brilliant, great and best; and an accuracy,
    where one is shown, lies between 0 and 100. *)
Theorem summary_accounts_for_every_move (cs : list classification) :
  wCount (summarize cs) = Nat.div2 (S (length cs))
  /\ bCount (summarize cs) = Nat.div2 (length cs)
  /\ map fst (white (summarize cs)) = cats
  /\ map fst (black (summarize cs)) = cats
  /\ bucketTotal (white (summarize cs)) = wCount (summarize cs)
  /\ bucketTotal (black (summarize cs)) = bCount (summarize cs)
  /\ wLoss (summarize cs)
     = (rowCount "brilliant" (white (summarize cs))
        + rowCount "great" (white (summarize cs))
        + rowCount "best" (white (summarize cs)))%nat
  /\ bLoss (summarize cs)
     = (rowCount "brilliant" (black (summarize cs))
        + rowCount "great" (black (summarize cs))
        + rowCount "best" (black (summarize cs)))%nat
  /\ (forall q, accuracyOf (wLoss (summarize cs)) (wCount (summarize cs)) = Some q ->
                (0 <= q /\ q <= 100)%Q)
  /\ (forall q, accuracyOf (bLoss (summarize cs)) (bCount (summarize cs)) = Some q ->
                (0 <= q /\ q <= 100)%Q).
Proof.
  unfold summarize.
  set (st0 := Build_summary _ _ _ _ _ _).
  assert (H0 : tallied st0).
  { exists 0%nat, 0%nat, 0%nat, 0%nat, 0%nat, 0%nat,
           0%nat, 0%nat, 0%nat, 0%nat, 0%nat, 0%nat.
    repeat split; reflexivity. }
  destruct (summaryLoop_counts 0 cs st0) as [Hwc Hbc].
  destruct (tallied_loop 0 cs st0 H0)
    as (a1 & a2 & a3 & a4 & a5 & a6 & b1 & b2 & b3 & b4 & b5 & b6
        & Hw & Hb & Hwl & Hbl & Hwc' & Hbc').
  split; [rewrite Hwc; reflexivity |].
  split; [rewrite Hbc; reflexivity |].
  rewrite Hw, Hb, Hwl, Hbl, Hwc', Hbc'.
  split; [reflexivity |]. split; [reflexivity |].
  split; [unfold bucketTotal; cbn; lia |].
  split; [unfold bucketTotal; cbn; lia |].
  split; [reflexivity |]. split; [reflexivity |].
  split; intros q; apply accuracy_range; lia.
Qed.

(** ** The move list *)

Lemma list_pair_ind {A} (P : list A -> Prop) :
  P [] -> (forall x, P [x]) -> (forall x y l, P l -> P (x :: y :: l)) ->
  forall l, P l.
Proof.
  intros H0 H1 H2 l.
  assert (Hboth : P l /\ forall x, P (x :: l)).
  { induction l as [| y l [IHl IHx]]; [split; [exact H0 | exact H1] |].
    split; [apply IHx |]. intros x. apply H2, IHl. }
  apply Hboth.
Qed.

Section MoveList.
Context {G : Type} `{Logic.ChessGame G}.

Lemma moveRows_cells (l : Logic.t G) (ms : list string) :
  forall i, cellsOf (moveRows l i ms) = cellsFrom l i ms.
Proof.
  induction ms as [| w | w b rest IH] using list_pair_ind; intros i.
  - reflexivity.
  - reflexivity.
  - cbn [moveRows cellsOf flat_map r_white r_black option_list app cellsFrom].
    fold (cellsOf (moveRows l (i + 2) rest)). rewrite IH.
    replace (i + 2)%nat with (S (S i)) by lia.
    replace (i + 1)%nat with (S i) by lia.
    replace (S i + 1)%nat with (S (S i)) by lia. reflexivity.
Qed.

Lemma moveRows_length (l : Logic.t G) (ms : list string) :
  forall i, length (moveRows l i ms) = Nat.div2 (S (length ms)).
Proof.
  induction ms as [| w | w b rest IH] using list_pair_ind; intros i.
  - reflexivity.
  - reflexivity.
  - cbn [moveRows length Nat.div2]. rewrite IH. reflexivity.
Qed.

Lemma moveRows_numbers (l : Logic.t G) (ms : list string) :
  forall j, map r_number (moveRows l (2 * j) ms)
            = seq (S j) (length (moveRows l (2 * j) ms)).
Proof.
  induction ms as [| w | w b rest IH] using list_pair_ind; intros j.
  - reflexivity.
  - cbn [moveRows map r_number length seq].
    replace (2 * j / 2)%nat with j
      by (rewrite Nat.mul_comm, Nat.div_mul; lia).
    f_equal. lia.
  - cbn [moveRows map r_number length seq].
    replace (2 * j / 2)%nat with j
      by (rewrite Nat.mul_comm, Nat.div_mul; lia).
    replace (2 * j + 2)%nat with (2 * S j)%nat by lia.
    rewrite IH. f_equal. lia.
Qed.

Lemma cellsFrom_lookup (l : Logic.t G) (ms : list string) :
  forall i k,
    cellsFrom l i ms !! k
    = (fun san => appendMoveCell l san (i + k) (i + k + 1)) <$> (ms !! k).
Proof.
  induction ms as [| san rest IH]; intros i k; [reflexivity |].
  destruct k as [| k]; cbn [cellsFrom].
  - cbn. rewrite Nat.add_0_r. reflexivity.
  - cbn [lookup list_lookup]. rewrite IH.
    replace (S i + k)%nat with (i + S k)%nat by lia. reflexivity.
Qed.

(** X22: the move table shows every move exactly once and in order: its
    rows are numbered 1, 2, 3, ..., there are half as many rows as moves
    (rounded up), and the [k]-th cell in document order shows the [k]-th
    SAN with the classification of move [k], goes to position [k + 1] when
    clicked, and is marked active exactly if the cursor stands there. *)
Theorem move_table_lists_every_move (l : Logic.t G) :
  length (renderMoves l) = Nat.div2 (S (length (moves l)))
  /\ map r_number (renderMoves l) = seq 1 (length (renderMoves l))
  /\ length (cellsOf (renderMoves l)) = length (moves l)
  /\ forall k,
       cellsOf (renderMoves l) !! k
       = (fun san =>
            {| c_san := san;
               c_cls := getMoveClassification (Z.of_nat k) l;
               c_target := k + 1;
               c_active := (Logic.idx l =? Z.of_nat (k + 1))%Z |})
         <$> (moves l !! k).
Proof.
  unfold renderMoves. split; [apply moveRows_length |].
  split; [apply (moveRows_numbers l (moves l) 0) |].
  rewrite moveRows_cells. split.
  - generalize 0%nat. induction (moves l) as [| san rest IH]; intros i;
      [reflexivity |]. cbn. now rewrite IH.
  - intros k. rewrite cellsFrom_lookup. reflexivity.
Qed.

(** X23: clicking a move cell selects that move.  On a timeline reached by
    any public operations, going to the target of the [k]-th cell puts the
    cursor on position [k + 1], which exists; [fen()] is then the position
    after that move and [currentMoveSquares()] its move record; and in the
    table drawn afterwards that cell, and no other, is marked active. *)
Theorem click_selects_move (ops : list Logic.op) (k : nat) (c : moveCell) :
  cellsOf (renderMoves (Logic.run ops (Logic.create (G := G)))) !! k = Some c ->
  Logic.idx (goToIndex (c_target c) (Logic.run ops (Logic.create (G := G))))
  = Z.of_nat (k + 1)
  /\ is_Some (Logic.fen (goToIndex (c_target c)
                           (Logic.run ops (Logic.create (G := G)))))
  /\ Logic.fen (goToIndex (c_target c) (Logic.run ops (Logic.create (G := G))))
     = Logic.fens (Logic.run ops (Logic.create (G := G))) !! (k + 1)%nat
  /\ is_Some (currentMoveSquares
                (goToIndex (c_target c) (Logic.run ops (Logic.create (G := G)))))
  /\ currentMoveSquares
       (goToIndex (c_target c) (Logic.run ops (Logic.create (G := G))))
     = Logic.squares (Logic.run ops (Logic.create (G := G))) !! k
  /\ forall j c',
       cellsOf (renderMoves
                  (goToIndex (c_target c)
                     (Logic.run ops (Logic.create (G := G))))) !! j = Some c' ->
       c_active c' = bool_decide (j = k).
Proof.
  set (l := Logic.run ops Logic.create).
  destruct (shape_ok_run ops _ (shape_ok_create (G := G))) as [Hf Hq].
  fold l in Hf, Hq.
  unfold renderMoves at 1. rewrite moveRows_cells, cellsFrom_lookup.
  destruct (moves l !! k) as [san |] eqn:Hk; [| discriminate].
  intros [= <-]. cbn [c_target appendMoveCell].
  assert (Hlt : (k < length (Logic.sans l))%nat)
    by (eapply lookup_lt_Some; exact Hk).
  change (0 + k)%nat with k.
  assert (Hgo : goToIndex (k + 1) l = Logic.with_idx (Z.of_nat (k + 1)) l).
  { unfold goToIndex, Logic.goTo.
    destruct (Z.leb_spec 0 (Z.of_nat (k + 1))); [| lia].
    destruct (Z.ltb_spec (Z.of_nat (k + 1)) (Z.of_nat (length (Logic.fens l))));
      [reflexivity | lia]. }
  rewrite Hgo. clear Hgo.
  assert (Hfen : Logic.fen (Logic.with_idx (Z.of_nat (k + 1)) l)
                 = Logic.fens l !! (k + 1)%nat).
  { unfold Logic.fen. cbn [Logic.with_idx Logic.idx Logic.fens].
    destruct (Z.ltb_spec (Z.of_nat (k + 1)) 0); [lia |].
    rewrite Nat2Z.id. reflexivity. }
  assert (Hsq : currentMoveSquares (Logic.with_idx (Z.of_nat (k + 1)) l)
                = Logic.squares l !! k).
  { unfold currentMoveSquares, at_index.
    cbn [Logic.with_idx Logic.idx Logic.squares].
    destruct (Z.eqb_spec (Z.of_nat (k + 1)) 0); [lia |].
    destruct (Z.ltb_spec (Z.of_nat (k + 1) - 1) 0); [lia |].
    f_equal. lia. }
  split_and!.
  - reflexivity.
  - rewrite Hfen. apply lookup_lt_is_Some_2. lia.
  - exact Hfen.
  - rewrite Hsq. apply lookup_lt_is_Some_2. lia.
  - exact Hsq.
  - intros j c'. unfold renderMoves. rewrite moveRows_cells, cellsFrom_lookup.
    destruct (moves _ !! j) as [san' |]; [| discriminate].
    intros [= <-]. cbn [c_active appendMoveCell Logic.with_idx Logic.idx].
    change (0 + j)%nat with j.
    destruct (Z.eqb_spec (Z.of_nat (k + 1)) (Z.of_nat (j + 1)));
      symmetry; [apply bool_decide_eq_true | apply bool_decide_eq_false]; lia.
Qed.

(** X25: once the page has stored an analysis with one classification per
    move, the accessors never lose one: [getMoveClassification(k)] is entry
    [k] of the list (null past its end), and [currentClassification()] is
    null exactly at the start position and otherwise the classification of
    the move before the cursor, which exists. *)
Theorem classification_accessors (ops : list Logic.op)
    (cs : list classification) :
  length cs = length (Logic.sans (Logic.run ops (Logic.create (G := G)))) ->
  (forall k : nat,
     getMoveClassification (Z.of_nat k)
       (setClassifications cs (Logic.run ops (Logic.create (G := G))))
     = cs !! k)
  /\ (currentClassification
        (setClassifications cs (Logic.run ops (Logic.create (G := G)))) = None
      <-> Logic.idx (Logic.run ops (Logic.create (G := G))) = 0%Z)
  /\ (Logic.idx (Logic.run ops (Logic.create (G := G))) <> 0%Z ->
      is_Some (currentClassification
                 (setClassifications cs (Logic.run ops (Logic.create (G := G)))))
      /\ currentClassification
           (setClassifications cs (Logic.run ops (Logic.create (G := G))))
         = cs !! Z.to_nat (Logic.idx (Logic.run ops (Logic.create (G := G))) - 1)).
Proof.
  set (l := Logic.run ops Logic.create). intros Hlen.
  destruct (shape_ok_run ops _ (shape_ok_create (G := G))) as [Hf _].
  destruct (cursor_ok_run ops _ (cursor_ok_create (G := G))) as [_ Hidx].
  fold l in Hf, Hidx.
  assert (Hcur : Logic.idx l <> 0%Z ->
                 is_Some (currentClassification (setClassifications cs l))
                 /\ currentClassification (setClassifications cs l)
                    = cs !! Z.to_nat (Logic.idx l - 1)).
  { intros Hnz. unfold currentClassification, at_index.
    cbn [setClassifications Logic.idx Logic.classifications].
    destruct (Z.eqb_spec (Logic.idx l) 0); [contradiction |].
    destruct (Nat.eqb_spec (length cs) 0); [lia |]. cbn [orb].
    destruct (Z.ltb_spec (Logic.idx l - 1) 0); [lia |].
    split; [| reflexivity]. apply lookup_lt_is_Some_2. lia. }
  split_and!.
  - intros k. unfold getMoveClassification, at_index.
    cbn [setClassifications Logic.classifications].
    destruct (Nat.eqb_spec (length cs) 0) as [Hz | _].
    + symmetry. apply lookup_ge_None_2. lia.
    + destruct (Z.ltb_spec (Z.of_nat k) 0); [lia |].
      now rewrite Nat2Z.id.
  - split.
    + intros Hnone.
      destruct (Z.eq_dec (Logic.idx l) 0%Z) as [? | Hnz]; [assumption |].
      destruct (Hcur Hnz) as [[c Hc] _]. congruence.
    + intros Hz. unfold currentClassification.
      cbn [setClassifications Logic.idx]. now rewrite Hz.
  - exact Hcur.
Qed.

End MoveList.

Lemma classification_accessors_witness :
  length storedAnalysis
  = length (Logic.sans (Logic.run [Logic.DoLoadPGN "1. e4 e5"; Logic.DoGoPrev]
                          (Logic.create (G := list string))))
  /\ currentClassification
       (setClassifications storedAnalysis
          (Logic.run [Logic.DoLoadPGN "1. e4 e5"; Logic.DoGoPrev]
             (Logic.create (G := list string))))
     = Some (bookClassification e4Move startFen afterE4Fen)
  /\ getMoveClassification 1
       (setClassifications storedAnalysis
          (Logic.run [Logic.DoLoadPGN "1. e4 e5"; Logic.DoGoPrev]
             (Logic.create (G := list string))))
     = Some (bookClassification (mkMove "e7" "e5" Black Pawn)
               afterE4Fen afterE4E5Fen).
Proof.
  pose proof (classification_accessors (G := list string)
                [Logic.DoLoadPGN "1. e4 e5"; Logic.DoGoPrev] storedAnalysis
                eq_refl) as (Hget & _ & Hcur).
  split; [reflexivity |].
  split; [| exact (Hget 1%nat)].
  destruct Hcur as [_ Hc]; [discriminate | exact Hc].
Defined.

Lemma click_selects_move_witness :
  cellsOf (renderMoves (Logic.run [Logic.DoLoadPGN "1. e4 e5"; Logic.DoGoStart]
                          (Logic.create (G := list string)))) !! 1%nat
  = Some {| c_san := "e5"; c_cls := None; c_target := 2; c_active := false |}
  /\ Logic.fen (goToIndex 2 (Logic.run [Logic.DoLoadPGN "1. e4 e5"; Logic.DoGoStart]
                              (Logic.create (G := list string))))
     = Some afterE4E5Fen
  /\ (currentMoveSquares
        (goToIndex 2 (Logic.run [Logic.DoLoadPGN "1. e4 e5"; Logic.DoGoStart]
                        (Logic.create (G := list string))))
      = Some {| from := "e7"; to := "e5"; color_of := Black; piece_of := Pawn |}).
Proof.
  pose proof (click_selects_move (G := list string)
                [Logic.DoLoadPGN "1. e4 e5"; Logic.DoGoStart] 1
                {| c_san := "e5"; c_cls := None; c_target := 2; c_active := false |}
                eq_refl) as (_ & _ & Hfen & _ & Hsq & _).
  split; [reflexivity |]. split; [exact Hfen | exact Hsq].
Defined.

(** ** The cache key of a finished analysis *)

Lemma append_inv_head (p x y : string) : p +:+ x = p +:+ y -> x = y.
Proof.
  induction p as [| a p IH]; [auto |].
  change (String a p +:+ x) with (String a (p +:+ x)).
  change (String a p +:+ y) with (String a (p +:+ y)).
  intros [= Heq]. now apply IH.
Qed.

Lemma eqb_refl_false (a : ascii) : Ascii.eqb a a = false -> False.
Proof. rewrite Ascii.eqb_refl. discriminate. Qed.

Lemma separator_splits (c : ascii) (x y r r' : string) :
  hasChar c x = false -> hasChar c y = false ->
  x +:+ String c r = y +:+ String c r' -> x = y /\ r = r'.
Proof.
  revert y. induction x as [| a x IH]; intros y Hx Hy.
  - destruct y as [| b y].
    + change ("" +:+ String c r) with (String c r).
      change ("" +:+ String c r') with (String c r').
      intros [= ->]. auto.
    + change ("" +:+ String c r) with (String c r).
      change (String b y +:+ String c r') with (String b (y +:+ String c r')).
      intros [= <- _]. cbn in Hy. apply orb_false_iff in Hy as [Hy _].
      destruct (eqb_refl_false _ Hy).
  - cbn in Hx. apply orb_false_iff in Hx as [Hac Hx].
    change (String a x +:+ String c r) with (String a (x +:+ String c r)).
    destruct y as [| b y].
    + change ("" +:+ String c r') with (String c r').
      intros [= -> _]. destruct (eqb_refl_false _ Hac).
    + change (String b y +:+ String c r') with (String b (y +:+ String c r')).
      cbn in Hy. apply orb_false_iff in Hy as [_ Hy].
      intros [= <- Heq]. destruct (IH y Hx Hy Heq) as [-> ->]. auto.
Qed.

Lemma hasChar_separator (c : ascii) (x r : string) :
  hasChar c (x +:+ String c r) = true.
Proof.
  induction x as [| a x IH].
  - change ("" +:+ String c r) with (String c r). cbn.
    now rewrite Ascii.eqb_refl.
  - change (String a x +:+ String c r) with (String a (x +:+ String c r)).
    cbn. rewrite IH. apply orb_true_r.
Qed.

Lemma append_empty (x r : string) (c : ascii) : x +:+ String c r <> "".
Proof.
  destruct x as [| a x].
  - change ("" +:+ String c r) with (String c r). discriminate.
  - change (String a x +:+ String c r) with (String a (x +:+ String c r)).
    discriminate.
Qed.

Lemma join_cons2 (x z : string) (r : list string) :
  Js.join "|" (x :: z :: r) = x +:+ String "|" (Js.join "|" (z :: r)).
Proof. reflexivity. Qed.

Lemma join_injective (l l' : list string) :
  Forall sanLike l -> Forall sanLike l' ->
  Js.join "|" l = Js.join "|" l' -> l = l'.
Proof.
  intros Hl. revert l'.
  induction Hl as [| x rest [Hne Hbar] Hrest IH]; intros l' Hl' Heq.
  - destruct Hl' as [| y rest' [Hne' _] _]; [reflexivity |].
    destruct rest' as [| z r'].
    + change (Js.join "|" [y]) with y in Heq.
      change (Js.join "|" []) with "" in Heq. congruence.
    + rewrite join_cons2 in Heq. change (Js.join "|" []) with "" in Heq.
      symmetry in Heq. destruct (append_empty _ _ _ Heq).
  - destruct Hl' as [| y rest' [Hne' Hbar'] Hrest'].
    + change (Js.join "|" []) with "" in Heq.
      destruct rest as [| z r].
      * change (Js.join "|" [x]) with x in Heq. congruence.
      * rewrite join_cons2 in Heq. destruct (append_empty _ _ _ Heq).
    + destruct rest as [| z r], rest' as [| z' r'].
      * change (Js.join "|" [x]) with x in Heq.
        change (Js.join "|" [y]) with y in Heq. congruence.
      * rewrite join_cons2 in Heq. change (Js.join "|" [x]) with x in Heq.
        rewrite Heq, hasChar_separator in Hbar. discriminate.
      * rewrite join_cons2 in Heq. change (Js.join "|" [y]) with y in Heq.
        rewrite <- Heq, hasChar_separator in Hbar'. discriminate.
      * rewrite !join_cons2 in Heq.
        destruct (separator_splits _ _ _ _ _ Hbar Hbar' Heq) as [-> Htl].
        f_equal. apply IH; assumption.
Qed.

Lemma pretty_N_go_plain (x : N) (s : string) :
  hasChar "_" s = false -> hasChar "_" (pretty_N_go x s) = false.
Proof.
  revert s. induction (N.lt_wf_0 x) as [x _ IH]; intros s Hs.
  assert (Hx : (x = 0 \/ 0 < x)%N) by lia. destruct Hx as [-> | Hpos].
  - now rewrite pretty_N_go_0.
  - rewrite pretty_N_go_step by exact Hpos. apply IH.
    + now apply N.div_lt.
    + cbn [hasChar]. rewrite Hs, orb_false_r.
      unfold pretty_N_char. repeat case_match; reflexivity.
Qed.

Lemma pretty_Z_plain (d : Z) : hasChar "_" (pretty d) = false.
Proof.
  assert (HN : forall p, hasChar "_" (pretty (Npos p)) = false).
  { intros p. unfold pretty, pretty_N. destruct (decide _); [reflexivity |].
    now apply pretty_N_go_plain. }
  destruct d as [| p | p]; [reflexivity | apply HN |].
  change (pretty (Zneg p)) with (String "-" (pretty (Npos p))).
  cbn [hasChar]. rewrite HN. reflexivity.
Qed.

(** X24: the cache key tells analyses apart: two keys are equal only if the
    depth is the same and the games have the same moves, provided the SANs
    are not empty and contain no bar.  An analysis is therefore never
    loaded from the cache for another game or another depth. *)
Theorem cacheKey_injective (d d' : Z) (sans sans' : list string) :
  Forall sanLike sans -> Forall sanLike sans' ->
  cacheKey d sans = cacheKey d' sans' -> d = d' /\ sans = sans'.
Proof.
  intros Hs Hs' Heq. unfold cacheKey in Heq.
  apply append_inv_head in Heq.
  change ("_" +:+ Js.join "|" sans) with (String "_" (Js.join "|" sans)) in Heq.
  change ("_" +:+ Js.join "|" sans') with (String "_" (Js.join "|" sans')) in Heq.
  destruct (separator_splits _ _ _ _ _ (pretty_Z_plain d) (pretty_Z_plain d') Heq)
    as [Hd Hj].
  split; [now apply (inj pretty) | now apply join_injective].
Qed.

Lemma cacheKey_injective_witness :
  Forall sanLike foolsMateSans
  /\ cacheKey 14 foolsMateSans = "chess_analysis_v1_14_f3|e5|g4|Qh4#"
  /\ (14%Z = 14%Z /\ foolsMateSans = foolsMateSans).
Proof.
  assert (Hs : Forall sanLike foolsMateSans).
  { repeat constructor; discriminate. }
  split; [exact Hs |]. split; [reflexivity |].
  exact (cacheKey_injective 14 14 foolsMateSans foolsMateSans Hs Hs eq_refl).
Defined.
